(** * Othello: rules engine (gamelogical.service.ts) and search core
      (game-ai.service.ts), embedded as executable Rocq definitions.

    Numbers that index arrays are integers (Z).  The numbers that are not
    integers, the draws of [Math.random()] and the thresholds they are
    compared with, are IEEE 754 binary64 values with the arithmetic the
    Standard Library specifies for them ([SpecFloat]).  Property access on
    [undefined] raises a JavaScript TypeError, which the model keeps as an
    explicit outcome; reading an array outside its range yields [undefined]
    ([None]). *)

From Stdlib Require Import ZArith List Bool Lia QArith Qpower Lqa.
From Stdlib Require Import SpecFloat.
From Stdlib Require Import Sorting.Sorted Permutation.
From Stdlib Require FinFun.
Import ListNotations.
Open Scope Z_scope.

(* ------------------------------------------------------------------ *)
(** ** Values shared by both services *)

(** [type Player = 'player' | 'ia' | '']. *)
Inductive Player : Type :=
| P_player   (* 'player' *)
| P_ia       (* 'ia' *)
| P_none.    (* ''  (empty cell) *)

(** [type Board = Player[][]]. *)
Definition Board : Type := list (list Player).

(** [{ r: number, c: number }] *)
Record Disc : Type := mkDisc { r : Z; c : Z }.

(** [{ row: number, col: number }] *)
Record Move : Type := mkMove { row : Z; col : Z }.

Definition Player_eqb (a b : Player) : bool :=
  match a, b with
  | P_player, P_player | P_ia, P_ia | P_none, P_none => true
  | _, _ => false
  end.

(** How a call can stop without returning.  [TypeError] is the JavaScript
    exception of a property access on [undefined].  The other two are
    limits of the model: [ArrayGrowth] stands for an array write outside
    [0, length) (JavaScript would grow the array or add a property),
    [OutOfFuel] for a loop or recursion cut short.  The theorems below show
    that the calls they are about end in neither. *)
Inductive halt : Type := TypeError | ArrayGrowth | OutOfFuel.

Inductive outcome (A : Type) : Type :=
| Done (a : A)
| Halt (h : halt).
Arguments Done {A} a.
Arguments Halt {A} h.

Definition obind {A B} (m : outcome A) (f : A -> outcome B) : outcome B :=
  match m with
  | Done a => f a
  | Halt h => Halt h
  end.

Declare Scope outcome_scope.
Delimit Scope outcome_scope with outcome.
Notation "x <- m ;; k" := (obind m (fun x => k))
  (at level 61, m at next level, right associativity) : outcome_scope.
Open Scope outcome_scope.

(** [a[i]] for an integer [i]: [undefined] outside the array. *)
Definition js_nth {A} (l : list A) (i : Z) : option A :=
  if i <? 0 then None else nth_error l (Z.to_nat i).

Fixpoint set_nth {A} (l : list A) (n : nat) (v : A) : list A :=
  match l, n with
  | [], _ => []
  | _ :: t, O => v :: t
  | h :: t, S n' => h :: set_nth t n' v
  end.

(** [a[i] = v] for an integer [i] inside the array. *)
Definition js_set {A} (l : list A) (i : Z) (v : A) : outcome (list A) :=
  if (0 <=? i) && (i <? Z.of_nat (length l))
  then Done (set_nth l (Z.to_nat i) v)
  else Halt ArrayGrowth.

(** [board[x][y]] *)
Definition cell (b : Board) (x y : Z) : outcome (option Player) :=
  match js_nth b x with
  | None => Halt TypeError
  | Some rowArr => Done (js_nth rowArr y)
  end.

(** [board[x][y] = v] *)
Definition assign (b : Board) (x y : Z) (v : Player) : outcome Board :=
  match js_nth b x with
  | None => Halt TypeError
  | Some rowArr =>
      rowArr' <- js_set rowArr y v ;;
      Done (set_nth b (Z.to_nat x) rowArr')
  end.

(** [v === p] where [v] was read from a board. *)
Definition same (v : option Player) (p : Player) : bool :=
  match v with
  | Some q => Player_eqb q p
  | None => false
  end.

(** [for (let i = 0; i < n; i++)] visits these indices in this order. *)
Definition upto (n : Z) : list Z := map Z.of_nat (seq 0 (Z.to_nat n)).

(** The eight ray directions, in the order both services list them. *)
Definition directions : list (Z * Z) :=
  [(-1, -1); (-1, 0); (-1, 1); (0, -1); (0, 1); (1, -1); (1, 0); (1, 1)].

(* ------------------------------------------------------------------ *)
(** ** GameLogicService (gamelogical.service.ts) *)

Module Logic.

Record FlippedPawn : Type :=
  mkFlipped { fp_row : Z; fp_col : Z; from : Player; to : Player }.

(** The service's fields. *)
Record GameLogicService : Type := mkService {
  board : Board;
  size : Z;
  currentPlayer : Player;
  lastFlipped : list FlippedPawn
}.

Definition set_board (b : Board) (s : GameLogicService) :=
  mkService b s.(size) s.(currentPlayer) s.(lastFlipped).
Definition set_size (n : Z) (s : GameLogicService) :=
  mkService s.(board) n s.(currentPlayer) s.(lastFlipped).
Definition set_currentPlayer (p : Player) (s : GameLogicService) :=
  mkService s.(board) s.(size) p s.(lastFlipped).
Definition set_lastFlipped (l : list FlippedPawn) (s : GameLogicService) :=
  mkService s.(board) s.(size) s.(currentPlayer) l.

(** A method that mutates the service: the fields as it leaves them, and
    how it stopped. *)
Definition method (A : Type) : Type :=
  GameLogicService -> GameLogicService * outcome A.

Definition ret {A} (a : A) : method A := fun s => (s, Done a).
Definition bind {A B} (m : method A) (f : A -> method B) : method B :=
  fun s => match m s with
           | (s', Done a) => f a s'
           | (s', Halt h) => (s', Halt h)
           end.
Definition modify (f : GameLogicService -> GameLogicService) : method unit :=
  fun s => (f s, Done tt).
(** A statement that may throw before it changes anything. *)
Definition update_board (f : Board -> outcome Board) : method unit :=
  fun s => match f s.(board) with
           | Done b => (set_board b s, Done tt)
           | Halt h => (s, Halt h)
           end.

Declare Scope method_scope.
Delimit Scope method_scope with method.
Notation "x <-- m ;; k" := (bind m (fun x => k))
  (at level 61, m at next level, right associativity) : method_scope.
Notation "m ;;; k" := (bind m (fun _ => k))
  (at level 61, right associativity) : method_scope.

(** [size / 2 + k] used as an array index, given as [twice = size + 2k]:
    a number that is not an integer names no array element. *)
Definition half (twice : Z) : option Z :=
  if Z.even twice then Some (twice / 2) else None.

(** [board[i][j] = v] where [i], [j] are numbers that may not be integers. *)
Definition assign_num (i j : option Z) (v : Player) (b : Board)
  : outcome Board :=
  match i with
  | None => Halt TypeError                 (* board[i] is undefined *)
  | Some x =>
      match j with
      | None => match js_nth b x with
                | None => Halt TypeError
                | Some _ => Halt ArrayGrowth
                end
      | Some y => assign b x y v
      end
  end.

(** [initBoard(size)] *)
Definition initBoard (size0 : Z) : method unit :=
  (modify (set_size size0) ;;;
   modify (set_board (repeat (repeat P_none (Z.to_nat size0))
                             (Z.to_nat size0))) ;;;
   (* mid = size / 2;  mid - 1 = (size - 2) / 2 *)
   update_board (assign_num (half (size0 - 2)) (half (size0 - 2)) P_player) ;;;
   update_board (assign_num (half size0) (half size0) P_player) ;;;
   update_board (assign_num (half (size0 - 2)) (half size0) P_ia) ;;;
   update_board (assign_num (half size0) (half (size0 - 2)) P_ia) ;;;
   modify (set_currentPlayer P_player) ;;;
   modify (set_lastFlipped []))%method.

(** [inBounds(x, y)] *)
Definition inBounds (s : GameLogicService) (x y : Z) : bool :=
  (0 <=? x) && (x <? s.(size)) && (0 <=? y) && (y <? s.(size)).

(** The [while] loop of [getFlippableDiscs] along one direction, started
    at [(x, y)] with the discs [temp] collected so far; the result is what
    the direction adds to [flippable]. *)
Fixpoint walk (s : GameLogicService) (opponent player : Player)
    (dx dy : Z) (fuel : nat) (x y : Z) (temp : list Disc)
  : outcome (list Disc) :=
  if inBounds s x y then
    match fuel with
    | O => Halt OutOfFuel
    | S fuel' =>
        v <- cell s.(board) x y ;;
        if same v opponent then
          walk s opponent player dx dy fuel' (x + dx) (y + dy)
               (temp ++ [mkDisc x y])
        else if same v player then Done temp
        else Done []
    end
  else Done [].

Fixpoint each_direction (s : GameLogicService) (opponent player : Player)
    (row col : Z) (dirs : list (Z * Z)) (flippable : list Disc)
  : outcome (list Disc) :=
  match dirs with
  | [] => Done flippable
  | (dx, dy) :: rest =>
      found <- walk s opponent player dx dy (Z.to_nat s.(size))
                    (row + dx) (col + dy) [] ;;
      each_direction s opponent player row col rest (flippable ++ found)
  end.

(** [getFlippableDiscs(row, col, player)] *)
Definition getFlippableDiscs (s : GameLogicService) (row col : Z)
    (player : Player) : outcome (list Disc) :=
  let opponent := if Player_eqb player P_player then P_ia else P_player in
  each_direction s opponent player row col directions [].

(** [isValidMove(row, col, player)] *)
Definition isValidMove (s : GameLogicService) (row col : Z)
    (player : Player) : outcome bool :=
  v <- cell s.(board) row col ;;
  if negb (same v P_none) then Done false
  else
    found <- getFlippableDiscs s row col player ;;
    Done (0 <? Z.of_nat (length found)).

Fixpoint scan_cols (s : GameLogicService) (player : Player) (x : Z)
    (cols : list Z) (moves : list Move) : outcome (list Move) :=
  match cols with
  | [] => Done moves
  | y :: rest =>
      ok <- isValidMove s x y player ;;
      scan_cols s player x rest
                (if ok then moves ++ [mkMove x y] else moves)
  end.

Fixpoint scan_rows (s : GameLogicService) (player : Player)
    (rows : list Z) (moves : list Move) : outcome (list Move) :=
  match rows with
  | [] => Done moves
  | x :: rest =>
      moves' <- scan_cols s player x (upto s.(size)) moves ;;
      scan_rows s player rest moves'
  end.

(** [getValidMoves(player)] *)
Definition getValidMoves (s : GameLogicService) (player : Player)
  : outcome (list Move) :=
  scan_rows s player (upto s.(size)) [].

(** [for (const f of flippedDiscs) this.board[f.r][f.c] = to] *)
Fixpoint flip_all (flipped : list Disc) (to_ : Player) : method unit :=
  match flipped with
  | [] => ret tt
  | f :: rest =>
      (update_board (fun b => assign b f.(r) f.(c) to_) ;;;
       flip_all rest to_)%method
  end.

(** A read-only method. *)
Definition query {A} (f : GameLogicService -> outcome A) : method A :=
  fun s => (s, f s).

(** [playMove(row, col)] *)
Definition playMove (row col : Z) : method bool :=
  (valid <-- query (fun s => isValidMove s row col s.(currentPlayer)) ;;
   if negb valid then ret false
   else
     to_ <-- query (fun s => Done s.(currentPlayer)) ;;
     flippedDiscs <-- query (fun s => getFlippableDiscs s row col
                                         s.(currentPlayer)) ;;
     flip_all flippedDiscs to_ ;;;
     update_board (fun b => assign b row col to_) ;;;
     modify (set_lastFlipped
               (map (fun f => mkFlipped f.(r) f.(c)
                       (if Player_eqb to_ P_player then P_ia else P_player)
                       to_) flippedDiscs)) ;;;
     modify (fun s => set_lastFlipped
               (s.(lastFlipped) ++ [mkFlipped row col P_none to_]) s) ;;;
     modify (fun s => set_currentPlayer
               (if Player_eqb s.(currentPlayer) P_player
                then P_ia else P_player) s) ;;;
     ret true)%method.

(** [getFlippedPawns()]: hands out a copy of [lastFlipped] and empties
    it. *)
Definition getFlippedPawns : method (list FlippedPawn) :=
  (flips <-- query (fun s => Done s.(lastFlipped)) ;;
   modify (set_lastFlipped []) ;;;
   ret flips)%method.

(** [getScores()]: the body of the inner loop, the inner loop, the scan. *)
Definition tally_cell (acc : Z * Z) (v : Player) : Z * Z :=
  match v with
  | P_player => (fst acc + 1, snd acc)
  | P_ia => (fst acc, snd acc + 1)
  | P_none => acc
  end.

Definition tally_row (acc : Z * Z) (rowArr : list Player) : Z * Z :=
  fold_left tally_cell rowArr acc.

Definition getScores (s : GameLogicService) : Z * Z :=
  fold_left tally_row s.(board) (0, 0).

(** The service as its field initialisers leave it, before the
    constructor's [initBoard()]. *)
Definition fresh : GameLogicService := mkService [] 8 P_player [].

(** [new GameLogicService()] *)
Definition start : GameLogicService := fst (initBoard 8 fresh).

End Logic.

(* ------------------------------------------------------------------ *)
(** ** GameAIService (game-ai.service.ts) *)

(** The numbers the search compares: the integer scores of [evaluate] and
    the two infinities that initialise [alpha], [beta], [value] and
    [bestScore]. *)
Inductive num : Type := NegInf | Fin (z : Z) | PosInf.

Definition num_leb (a b : num) : bool :=
  match a, b with
  | NegInf, _ => true
  | _, PosInf => true
  | Fin x, Fin y => x <=? y
  | _, _ => false
  end.

(** [a < b] *)
Definition num_ltb (a b : num) : bool := negb (num_leb b a).

(** [Math.max(a, b)], [Math.min(a, b)] *)
Definition num_max (a b : num) : num := if num_leb a b then b else a.
Definition num_min (a b : num) : num := if num_leb a b then a else b.

(* ------------------------------------------------------------------ *)

(** A JavaScript number that need not be an integer: a binary64 value. *)
Definition double : Type := spec_float.

(** An integer as a JavaScript number (exact below 2^53). *)
Definition of_int (n : Z) : double := binary_normalize 53 1024 n 0 false.

(** The number a decimal literal [a/b] denotes: the double nearest to the
    quotient, which is what the correctly rounded division returns. *)
Definition decimal (a b : Z) : double :=
  SFdiv 53 1024 (of_int a) (of_int b).

(** [Math.floor(x)] used as an array index; NaN and the infinities are the
    index of no element. *)
Definition floor64 (x : double) : option Z :=
  match x with
  | S754_zero _ => Some 0
  | S754_finite s m e => Some (Z.shiftl (cond_Zopp s (Zpos m)) e)
  | _ => None
  end.

(** A value [Math.random()] can return: a double in [0, 1). *)
Definition unit64 (u : double) : bool :=
  valid_binary 53 1024 u && SFleb (S754_zero false) u && SFltb u (of_int 1).

Module AI.

Inductive Difficulty : Type := Facile | Moyen | Difficile | Expert.

(** [depthByDifficulty] *)
Definition depthByDifficulty (d : Difficulty) : Z :=
  match d with Facile => 1 | Moyen => 2 | Difficile => 3 | Expert => 5 end.

(** [randomnessByDifficulty] *)
Definition randomnessByDifficulty (d : Difficulty) : double :=
  match d with
  | Facile => decimal 9 10
  | Moyen => decimal 3 10
  | Difficile => decimal 8 100
  | Expert => of_int 0
  end.

(** [inBounds(board, x, y)] *)
Definition inBounds (board : Board) (x y : Z) : bool :=
  let n := Z.of_nat (length board) in
  (0 <=? x) && (x <? n) && (0 <=? y) && (y <? n).

(** [opponent(p)] *)
Definition opponent (p : Player) : Player :=
  if Player_eqb p P_player then P_ia else P_player.

(** The [while] loop of [getFlippableDiscs] along one direction; the result
    is what the direction adds to [res]. *)
Fixpoint walk (board : Board) (opp player : Player)
    (dx dy : Z) (fuel : nat) (x y : Z) (temp : list Disc)
  : outcome (list Disc) :=
  if inBounds board x y then
    match fuel with
    | O => Halt OutOfFuel
    | S fuel' =>
        v <- cell board x y ;;
        if same v opp then
          walk board opp player dx dy fuel' (x + dx) (y + dy)
               (temp ++ [mkDisc x y])
        else if same v player then
          Done (if (0 <? Z.of_nat (length temp)) then temp else [])
        else Done []
    end
  else Done [].

Fixpoint each_direction (board : Board) (opp player : Player)
    (row col : Z) (dirs : list (Z * Z)) (res : list Disc)
  : outcome (list Disc) :=
  match dirs with
  | [] => Done res
  | (dx, dy) :: rest =>
      found <- walk board opp player dx dy (length board)
                    (row + dx) (col + dy) [] ;;
      each_direction board opp player row col rest (res ++ found)
  end.

(** [getFlippableDiscs(board, row, col, player)] *)
Definition getFlippableDiscs (board : Board) (row col : Z)
    (player : Player) : outcome (list Disc) :=
  v <- cell board row col ;;
  if negb (same v P_none) then Done []
  else each_direction board (opponent player) player row col directions [].

Fixpoint scan_cols (board : Board) (player : Player) (x : Z)
    (cols : list Z) (moves : list Move) : outcome (list Move) :=
  match cols with
  | [] => Done moves
  | y :: rest =>
      v <- cell board x y ;;
      ok <- (if same v P_none then
               found <- getFlippableDiscs board x y player ;;
               Done (0 <? Z.of_nat (length found))
             else Done false) ;;
      scan_cols board player x rest
                (if ok then moves ++ [mkMove x y] else moves)
  end.

Fixpoint scan_rows (board : Board) (player : Player)
    (rows : list Z) (moves : list Move) : outcome (list Move) :=
  match rows with
  | [] => Done moves
  | x :: rest =>
      moves' <- scan_cols board player x
                          (upto (Z.of_nat (length board))) moves ;;
      scan_rows board player rest moves'
  end.

(** [getValidMoves(board, player)] *)
Definition getValidMoves (board : Board) (player : Player)
  : outcome (list Move) :=
  scan_rows board player (upto (Z.of_nat (length board))) [].

(** [for (const f of flips) next[f.r][f.c] = player] *)
Fixpoint flip_all (next : Board) (flips : list Disc) (player : Player)
  : outcome Board :=
  match flips with
  | [] => Done next
  | f :: rest =>
      next' <- assign next f.(r) f.(c) player ;;
      flip_all next' rest player
  end.

(** [applyMove(board, row, col, player)]: [next] starts as a copy of
    [board], row by row; the copy is the value itself here (the aliasing
    is studied on the heap model further down). *)
Definition applyMove (board : Board) (row col : Z) (player : Player)
  : outcome Board :=
  let next := map (fun rowArr => rowArr) board in
  flips <- getFlippableDiscs board row col player ;;
  next1 <- flip_all next flips player ;;
  assign next1 row col player.

(** [isTerminal(board)] *)
Definition isTerminal (board : Board) : outcome bool :=
  a <- getValidMoves board P_player ;;
  if negb (length a =? 0)%nat then Done false
  else
    b <- getValidMoves board P_ia ;;
    Done (length b =? 0)%nat.

(** The three counters of [evaluate]'s first loop. *)
Record Counts : Type :=
  mkCounts { rootCount : Z; oppCount : Z; empties : Z }.

Fixpoint count_cells (board : Board) (root opp : Player)
    (cells : list (Z * Z)) (k : Counts) : outcome Counts :=
  match cells with
  | [] => Done k
  | (x, y) :: rest =>
      v <- cell board x y ;;
      count_cells board root opp rest
        (if same v root then
           mkCounts (k.(rootCount) + 1) k.(oppCount) k.(empties)
         else if same v opp then
           mkCounts k.(rootCount) (k.(oppCount) + 1) k.(empties)
         else
           mkCounts k.(rootCount) k.(oppCount) (k.(empties) + 1))
  end.

(** [for r < n: for c < n] visits the cells in row-major order. *)
Definition all_cells (n : Z) : list (Z * Z) :=
  flat_map (fun x => map (fun y => (x, y)) (upto n)) (upto n).

(** The loops over corners, edges and X-squares: [w] is added for a cell
    of [root], subtracted for a cell of [opp]. *)
Fixpoint weigh (board : Board) (root opp : Player) (w : Z)
    (cells : list (Z * Z)) (acc : Z) : outcome Z :=
  match cells with
  | [] => Done acc
  | (x, y) :: rest =>
      v <- cell board x y ;;
      weigh board root opp w rest
        (if same v root then acc + w
         else if same v opp then acc - w
         else acc)
  end.

(** [for (let i = 1; i < n - 1; i++)] *)
Definition inner (n : Z) : list Z :=
  map (fun k => Z.of_nat k) (seq 1 (Z.to_nat (n - 2))).

(** The cells the edge loop visits, in its order. *)
Definition edge_cells (n : Z) : list (Z * Z) :=
  flat_map (fun i => [(0, i); (n - 1, i); (i, 0); (i, n - 1)]) (inner n).

Definition cornerCoords (n : Z) : list (Z * Z) :=
  [(0, 0); (0, n - 1); (n - 1, 0); (n - 1, n - 1)].

Definition xs (n : Z) : list (Z * Z) :=
  [(1, 1); (1, n - 2); (n - 2, 1); (n - 2, n - 2)].

(** [evaluate(board, root)].  Every term is an integer, far below 2^53 on
    any board that fits in memory, so the arithmetic on doubles is exact;
    as [cornerScore] is a multiple of 30 (lemma [cornerScore_multiple]) the
    one division is exact too, and integer division gives the JavaScript
    number. *)
Definition evaluate (board : Board) (root : Player) : outcome Z :=
  let opp := opponent root in
  let n := Z.of_nat (length board) in
  k <- count_cells board root opp (all_cells n) (mkCounts 0 0 0) ;;
  let pieceDiff := k.(rootCount) - k.(oppCount) in
  mine <- getValidMoves board root ;;
  theirs <- getValidMoves board opp ;;
  let mobility := Z.of_nat (length mine) - Z.of_nat (length theirs) in
  cornerScore <- weigh board root opp 30 (cornerCoords n) 0 ;;
  edgeScore <- weigh board root opp 4 (edge_cells n) 0 ;;
  (* xPenalty -= 8 for root, += 8 for opp *)
  xPenalty <- weigh board root opp (-8) (xs n) 0 ;;
  let endgameFactor := if k.(empties) <=? 12 then 2 else 1 in
  Done (10 * mobility
        + 5 * edgeScore
        + (50 * cornerScore) / 30
        + 2 * endgameFactor * pieceDiff
        + (-1) * xPenalty).

(** The loop of a maximising node; [search child alpha beta] is the
    recursive call on a child. *)
Fixpoint max_loop (search : Board -> num -> num -> outcome num)
    (board : Board) (toMove : Player) (moves : list Move)
    (value alpha beta : num) : outcome num :=
  match moves with
  | [] => Done value
  | m :: rest =>
      child <- applyMove board m.(row) m.(col) toMove ;;
      score <- search child alpha beta ;;
      let value := num_max value score in
      let alpha := num_max alpha value in
      if num_leb beta alpha then Done value
      else max_loop search board toMove rest value alpha beta
  end.

(** The loop of a minimising node. *)
Fixpoint min_loop (search : Board -> num -> num -> outcome num)
    (board : Board) (toMove : Player) (moves : list Move)
    (value alpha beta : num) : outcome num :=
  match moves with
  | [] => Done value
  | m :: rest =>
      child <- applyMove board m.(row) m.(col) toMove ;;
      score <- search child alpha beta ;;
      let value := num_min value score in
      let beta := num_min beta value in
      if num_leb beta alpha then Done value
      else min_loop search board toMove rest value alpha beta
  end.

(** [minimax(board, depth, alpha, beta, rootPlayer, toMove)]; [fuel]
    bounds the nesting of calls. *)
Fixpoint minimax (fuel : nat) (board : Board) (depth : Z)
    (alpha beta : num) (rootPlayer toMove : Player) : outcome num :=
  match fuel with
  | O => Halt OutOfFuel
  | S fuel' =>
      leaf <- (if depth =? 0 then Done true else isTerminal board) ;;
      if leaf : bool then
        v <- evaluate board rootPlayer ;; Done (Fin v)
      else
        moves <- getValidMoves board toMove ;;
        if (length moves =? 0)%nat then
          let opp := opponent toMove in
          theirs <- getValidMoves board opp ;;
          if (length theirs =? 0)%nat then
            v <- evaluate board rootPlayer ;; Done (Fin v)
          else minimax fuel' board depth alpha beta rootPlayer opp
        else
          let search := fun child a b =>
            minimax fuel' child (depth - 1) a b rootPlayer
                    (opponent toMove) in
          if Player_eqb toMove rootPlayer then
            max_loop search board toMove moves NegInf alpha beta
          else
            min_loop search board toMove moves PosInf alpha beta
  end.

(** Nesting of [minimax] calls below a call at [depth >= 0]: one per ply,
    and at most one pass before each ply. *)
Definition fuel_for (depth : Z) : nat := S (2 * Z.to_nat depth).

(** The loop of [minimaxDecision]. *)
Fixpoint decision_loop (search : Board -> num -> num -> outcome num)
    (board : Board) (player : Player) (moves : list Move)
    (bestScore : num) (bestMove : option Move) (alpha beta : num)
  : outcome (option Move) :=
  match moves with
  | [] => Done bestMove
  | m :: rest =>
      child <- applyMove board m.(row) m.(col) player ;;
      score <- search child alpha beta ;;
      let better := num_ltb bestScore score in
      let bestScore := if better then score else bestScore in
      let bestMove := if better then Some m else bestMove in
      let alpha := num_max alpha bestScore in
      if num_leb beta alpha then Done bestMove
      else decision_loop search board player rest bestScore bestMove
                         alpha beta
  end.

(** [minimaxDecision(board, player, depth)]; [None] is [null]. *)
Definition minimaxDecision (board : Board) (player : Player) (depth : Z)
  : outcome (option Move) :=
  moves <- getValidMoves board player ;;
  if (length moves =? 0)%nat then Done None
  else
    decision_loop
      (fun child a b =>
         minimax (fuel_for (depth - 1)) child (depth - 1) a b player
                 (opponent player))
      board player moves NegInf None NegInf PosInf.

(** [Math.random()]: the source of draws is the sequence of values the
    successive calls return, each a double in [0, 1). *)
Definition Random : Type := nat -> double.

(** What [chooseMove] can hand back: a move, [null], or the [undefined] of
    an array read that misses. *)
Inductive Choice : Type := Null | Undefined | Chosen (m : Move).

(** [randomChoice(moves)], [u] being the value drawn: the product is the
    rounded product of two doubles. *)
Definition randomChoice (u : double) (moves : list Move) : Choice :=
  match floor64 (SFmul 53 1024 u (of_int (Z.of_nat (length moves)))) with
  | Some i =>
      match js_nth moves i with
      | Some m => Chosen m
      | None => Undefined
      end
  | None => Undefined
  end.

Fixpoint best_immediate_loop (board : Board) (player : Player)
    (moves : list Move) (best : Choice) (bestFlips : num)
  : outcome Choice :=
  match moves with
  | [] => Done best
  | m :: rest =>
      found <- getFlippableDiscs board m.(row) m.(col) player ;;
      let flips := Fin (Z.of_nat (length found)) in
      if num_ltb bestFlips flips
      then best_immediate_loop board player rest (Chosen m) flips
      else best_immediate_loop board player rest best bestFlips
  end.

(** [getBestImmediateMove(board, moves, player)] *)
Definition getBestImmediateMove (board : Board) (moves : list Move)
    (player : Player) : outcome Choice :=
  best_immediate_loop board player moves
    (match moves with m :: _ => Chosen m | [] => Undefined end) NegInf.

(** [moves.map(m => ({ m, score: evaluate(applyMove(board, m), player) }))] *)
Fixpoint evaluate_each (board : Board) (player : Player)
    (moves : list Move) : outcome (list (Move * Z)) :=
  match moves with
  | [] => Done []
  | m :: rest =>
      child <- applyMove board m.(row) m.(col) player ;;
      score <- evaluate child player ;;
      tail <- evaluate_each board player rest ;;
      Done ((m, score) :: tail)
  end.

(** [evaluated.sort((a, b) => b.score - a.score)]: a stable sort, best
    score first. *)
Fixpoint insert_by_score (e : Move * Z) (sorted : list (Move * Z))
  : list (Move * Z) :=
  match sorted with
  | [] => [e]
  | e' :: rest =>
      if snd e' <=? snd e then e :: sorted
      else e' :: insert_by_score e rest
  end.

Definition sort_by_score (l : list (Move * Z)) : list (Move * Z) :=
  fold_right insert_by_score [] l.

(** [choiceAmongTopMoves(board, moves, player, k)], [u] being the value
    drawn by its [randomChoice]. *)
Definition choiceAmongTopMoves (u : double) (board : Board) (moves : list Move)
    (player : Player) (k : Z) : outcome Choice :=
  evaluated <- evaluate_each board player moves ;;
  let sorted := sort_by_score evaluated in
  let top :=
    map fst (firstn (Z.to_nat (Z.max 1 (Z.min k (Z.of_nat (length sorted)))))
                    sorted) in
  Done (randomChoice u top).

Definition of_option (o : option Move) : Choice :=
  match o with Some m => Chosen m | None => Null end.

(** [chooseMove(board, player, difficulty)] with the draws of
    [Math.random()] given by [rnd]. *)
Definition chooseMove (rnd : Random) (board : Board) (player : Player)
    (difficulty : Difficulty) : outcome Choice :=
  moves <- getValidMoves board player ;;
  if (length moves =? 0)%nat then Done Null
  else
    let rand := rnd 0%nat in
    let randProb := randomnessByDifficulty difficulty in
    let depth := depthByDifficulty difficulty in
    match difficulty with
    | Facile =>
        if SFltb rand randProb then Done (randomChoice (rnd 1%nat) moves)
        else getBestImmediateMove board moves player
    | Moyen =>
        if SFltb rand randProb then Done (randomChoice (rnd 1%nat) moves)
        else if SFltb (rnd 1%nat) (decimal 8 10)
             then getBestImmediateMove board moves player
             else o <- minimaxDecision board player depth ;;
                  Done (of_option o)
    | Difficile =>
        if SFltb rand randProb
        then choiceAmongTopMoves (rnd 1%nat) board moves player 3
        else o <- minimaxDecision board player depth ;; Done (of_option o)
    | Expert =>
        o <- minimaxDecision board player depth ;; Done (of_option o)
    end.

End AI.

(* ------------------------------------------------------------------ *)
(** ** Plain minimax, the reference the search is compared with

    The same recursion as [AI.minimax] and [AI.minimaxDecision] -- same leaf
    test, same pass rule, same move order, same strictly-greater choice at
    the root -- with no [alpha], no [beta] and no early exit from a loop. *)

Module Plain.

Fixpoint max_all (search : Board -> outcome num)
    (board : Board) (toMove : Player) (moves : list Move) (value : num)
  : outcome num :=
  match moves with
  | [] => Done value
  | m :: rest =>
      child <- AI.applyMove board m.(row) m.(col) toMove ;;
      score <- search child ;;
      max_all search board toMove rest (num_max value score)
  end.

Fixpoint min_all (search : Board -> outcome num)
    (board : Board) (toMove : Player) (moves : list Move) (value : num)
  : outcome num :=
  match moves with
  | [] => Done value
  | m :: rest =>
      child <- AI.applyMove board m.(row) m.(col) toMove ;;
      score <- search child ;;
      min_all search board toMove rest (num_min value score)
  end.

Fixpoint minimax (fuel : nat) (board : Board) (depth : Z)
    (rootPlayer toMove : Player) : outcome num :=
  match fuel with
  | O => Halt OutOfFuel
  | S fuel' =>
      leaf <- (if depth =? 0 then Done true else AI.isTerminal board) ;;
      if leaf : bool then
        v <- AI.evaluate board rootPlayer ;; Done (Fin v)
      else
        moves <- AI.getValidMoves board toMove ;;
        if (length moves =? 0)%nat then
          let opp := AI.opponent toMove in
          theirs <- AI.getValidMoves board opp ;;
          if (length theirs =? 0)%nat then
            v <- AI.evaluate board rootPlayer ;; Done (Fin v)
          else minimax fuel' board depth rootPlayer opp
        else
          let search := fun child =>
            minimax fuel' child (depth - 1) rootPlayer
                    (AI.opponent toMove) in
          if Player_eqb toMove rootPlayer then
            max_all search board toMove moves NegInf
          else
            min_all search board toMove moves PosInf
  end.

Fixpoint decision_all (search : Board -> outcome num)
    (board : Board) (player : Player) (moves : list Move)
    (bestScore : num) (bestMove : option Move) : outcome (option Move) :=
  match moves with
  | [] => Done bestMove
  | m :: rest =>
      child <- AI.applyMove board m.(row) m.(col) player ;;
      score <- search child ;;
      let better := num_ltb bestScore score in
      decision_all search board player rest
        (if better then score else bestScore)
        (if better then Some m else bestMove)
  end.

Definition minimaxDecision (board : Board) (player : Player) (depth : Z)
  : outcome (option Move) :=
  moves <- AI.getValidMoves board player ;;
  if (length moves =? 0)%nat then Done None
  else
    decision_all
      (fun child =>
         minimax (AI.fuel_for (depth - 1)) child (depth - 1) player
                 (AI.opponent player))
      board player moves NegInf None.

End Plain.

(* ------------------------------------------------------------------ *)
(** ** [applyMove] on a heap of row arrays

    To see what [applyMove] does to the board it was given, rows are
    objects at addresses: a board is the list of the addresses of its rows
    (the outer array is only read, or built anew by [map], never written),
    and an assignment [next[x][y] = v] changes the row object at the
    address [next[x]]. *)

Module Heap.

Definition loc : Type := nat.

(** The row arrays allocated so far, by address. *)
Definition heap : Type := list (list Player).

(** An outer array: the addresses of its rows. *)
Definition BoardRef : Type := list loc.

(** The board value a reference denotes. *)
Fixpoint content (h : heap) (b : BoardRef) : option Board :=
  match b with
  | [] => Some []
  | l :: rest =>
      match nth_error h l, content h rest with
      | Some rowArr, Some B => Some (rowArr :: B)
      | _, _ => None
      end
  end.

(** [board.map(rowArr => rowArr.slice())]: every row is copied into a new
    object, in order. *)
Fixpoint copy_rows (h : heap) (b : BoardRef) : option (heap * BoardRef) :=
  match b with
  | [] => Some (h, [])
  | l :: rest =>
      match nth_error h l with
      | None => None
      | Some rowArr =>
          match copy_rows (h ++ [rowArr]) rest with
          | Some (h', rs) => Some (h', length h :: rs)
          | None => None
          end
      end
  end.

(** [next[x][y] = v] *)
Definition write (h : heap) (next : BoardRef) (x y : Z) (v : Player)
  : outcome heap :=
  match js_nth next x with
  | None => Halt TypeError
  | Some l =>
      match nth_error h l with
      | None => Halt TypeError
      | Some rowArr =>
          rowArr' <- js_set rowArr y v ;;
          Done (set_nth h l rowArr')
      end
  end.

Fixpoint flip_all (h : heap) (next : BoardRef) (flips : list Disc)
    (player : Player) : outcome heap :=
  match flips with
  | [] => Done h
  | f :: rest =>
      h' <- write h next f.(r) f.(c) player ;;
      flip_all h' next rest player
  end.

(** [applyMove(board, row, col, player)]: the heap it leaves and the
    board it returns. *)
Definition applyMove (h : heap) (board : BoardRef) (row col : Z)
    (player : Player) : outcome (heap * BoardRef) :=
  match copy_rows h board with
  | None => Halt TypeError
  | Some (h1, next) =>
      match content h1 board with
      | None => Halt TypeError
      | Some value =>
          flips <- AI.getFlippableDiscs value row col player ;;
          h2 <- flip_all h1 next flips player ;;
          h3 <- write h2 next row col player ;;
          Done (h3, next)
      end
  end.

End Heap.

(* ------------------------------------------------------------------ *)
(** ** Counting cells *)

Definition sumZ {A} (f : A -> Z) (l : list A) : Z :=
  fold_right (fun a acc => f a + acc) 0 l.

(** 1 for a disc, 0 for an empty cell. *)
Definition occ (p : Player) : Z :=
  match p with P_none => 0 | _ => 1 end.

(** Number of occupied cells of a board. *)
Definition occupied (b : Board) : Z := sumZ (sumZ occ) b.

(** A service whose board is the [size] x [size] grid the rest of the code
    takes it to be. *)
Definition square (s : Logic.GameLogicService) : Prop :=
  Z.of_nat (length s.(Logic.board)) = s.(Logic.size)
  /\ Forall (fun rowArr => Z.of_nat (length rowArr) = s.(Logic.size))
            s.(Logic.board).

(** The grid [initBoard] builds before it places the four discs. *)
Definition blank_grid (n : Z) : Board :=
  repeat (repeat P_none (Z.to_nat n)) (Z.to_nat n).

(* ------------------------------------------------------------------ *)
(** ** The evaluation as the specification words it

    Each term is defined from the board as a grid of cells, by what it
    counts, not by the loops of [AI.evaluate]. *)

Module EvalSpec.

(** Number of cells of the board holding [p]. *)
Definition count (p : Player) (board : Board) : Z :=
  sumZ (sumZ (fun q => if Player_eqb q p then 1 else 0)) board.

(** What is at [(x, y)], if anything. *)
Definition at_cell (board : Board) (x y : Z) : option Player :=
  match js_nth board x with
  | Some rowArr => js_nth rowArr y
  | None => None
  end.

(** +1 for a cell of the perspective, -1 for a cell of its opponent. *)
Definition sign (perspective : Player) (v : option Player) : Z :=
  if same v perspective then 1
  else if same v (AI.opponent perspective) then -1
  else 0.

Definition corners (n : Z) : list (Z * Z) :=
  [(0, 0); (0, n - 1); (n - 1, 0); (n - 1, n - 1)].

Definition is_corner (n x y : Z) : bool :=
  existsb (fun k => (x =? fst k) && (y =? snd k)) (corners n).

(** First or last row, first or last column. *)
Definition on_ring (n x y : Z) : bool :=
  (x =? 0) || (x =? n - 1) || (y =? 0) || (y =? n - 1).

(** Diagonal neighbour of a corner. *)
Definition is_x_square (n x y : Z) : bool :=
  existsb (fun k => (Z.abs (x - fst k) =? 1) && (Z.abs (y - snd k) =? 1))
          (corners n).

(** [w] per selected cell of the perspective, [-w] per selected cell of
    the opponent, over the cells of the [n] x [n] grid. *)
Definition tally (board : Board) (perspective : Player) (w : Z)
    (selected : Z -> Z -> bool) : Z :=
  sumZ (fun k =>
          if selected (fst k) (snd k)
          then w * sign perspective (at_cell board (fst k) (snd k))
          else 0)
       (AI.all_cells (Z.of_nat (length board))).

Definition pieceDiff (board : Board) (perspective : Player) : Z :=
  count perspective board - count (AI.opponent perspective) board.

Definition cornerScore (board : Board) (perspective : Player) : Z :=
  tally board perspective 30 (is_corner (Z.of_nat (length board))).

Definition edgeScore (board : Board) (perspective : Player) : Z :=
  tally board perspective 4
        (fun x y => on_ring (Z.of_nat (length board)) x y
                    && negb (is_corner (Z.of_nat (length board)) x y)).

Definition xPenalty (board : Board) (perspective : Player) : Z :=
  tally board perspective (-8) (is_x_square (Z.of_nat (length board))).

Definition endgameFactor (board : Board) : Z :=
  if count P_none board <=? 12 then 2 else 1.

(** [10 mobility + 5 edgeScore + (50/30) cornerScore
     + 2 endgameFactor pieceDiff - xPenalty], over the rationals. *)
Definition score (board : Board) (perspective : Player) (mobility : Z) : Q :=
  (10 * inject_Z mobility
   + 5 * inject_Z (edgeScore board perspective)
   + (50 / 30) * inject_Z (cornerScore board perspective)
   + 2 * inject_Z (endgameFactor board)
       * inject_Z (pieceDiff board perspective)
   - inject_Z (xPenalty board perspective))%Q.

End EvalSpec.

(** Every row is as long as the board is high. *)
Definition square_board (board : Board) : Prop :=
  Forall (fun rowArr => length rowArr = length board) board.

(* ------------------------------------------------------------------ *)
(** ** Predicates and helpers the statements use *)

(** A cell of the board: both indices name an element. *)
Definition on_board (b : Board) (x y : Z) : Prop :=
  exists v, cell b x y = Done (Some v).

(** Every row index below [size] names a row of the board. *)
Definition rows_cover (s : Logic.GameLogicService) : Prop :=
  s.(Logic.size) <= Z.of_nat (length s.(Logic.board)).

(** How many cells the walk from [(x, y)] can still visit. *)
Definition reach (n dx dy x y : Z) : Z :=
  if dx =? 1 then n - x
  else if dx =? -1 then x + 1
  else if dy =? 1 then n - y
  else y + 1.

(** The other side, as [getFlippableDiscs] and [playMove] compute it. *)
Definition opponent_of (player : Player) : Player :=
  if Player_eqb player P_player then P_ia else P_player.

(** What a call with window [(alpha, beta)] may return when the plain
    value is [V]: [V] itself inside the window, a value on the same side
    of the window outside it. *)
Definition bracket (v V alpha beta : num) : Prop :=
  (num_leb V alpha = true -> num_leb v alpha = true)
  /\ (num_ltb alpha V = true -> num_ltb V beta = true -> v = V)
  /\ (num_leb beta V = true -> num_leb beta v = true).

(** The service whose fields describe [board]: the two copies of the
    capture walk and of the move scan agree on it. *)
Definition as_service (board : Board) : Logic.GameLogicService :=
  Logic.mkService board (Z.of_nat (length board)) P_player [].

Definition has_moves (board : Board) (p : Player) : Prop :=
  exists m ms, AI.getValidMoves board p = Done (m :: ms).

(** A position where 'player' must pass and 'ia' can move. *)
Definition pass_board : Board :=
  [[P_ia; P_player; P_none; P_none];
   [P_none; P_none; P_none; P_none];
   [P_none; P_none; P_none; P_none];
   [P_none; P_none; P_none; P_none]].

(** Addresses below [base] hold in [h'] what they hold in [h]. *)
Definition keeps (base : nat) (h h' : Heap.heap) : Prop :=
  forall l, (l < base)%nat -> nth_error h' l = nth_error h l.

(* ------------------------------------------------------------------ *)
(** ** The capture rule, as a statement about lines of cells *)

(** The cell [k] steps away from [(row, col)] in direction [(dx, dy)]. *)
Definition along (row col dx dy : Z) (k : nat) : Disc :=
  mkDisc (row + Z.of_nat k * dx) (col + Z.of_nat k * dy).

(** The cells 1, 2, ..., [k] steps away, nearest first. *)
Definition line (row col dx dy : Z) (k : nat) : list Disc :=
  map (along row col dx dy) (seq 1 k).

(** From [(row, col)] in direction [(dx, dy)]: [k >= 1] discs of the
    opponent in a row, then a disc of [player], all inside the bounds. *)
Definition flanked (s : Logic.GameLogicService) (player : Player)
    (row col dx dy : Z) (k : nat) : Prop :=
  (1 <= k)%nat
  /\ (forall j, (1 <= j <= k)%nat ->
        Logic.inBounds s (along row col dx dy j).(r)
                         (along row col dx dy j).(c) = true
        /\ cell s.(Logic.board) (along row col dx dy j).(r)
                (along row col dx dy j).(c)
           = Done (Some (opponent_of player)))
  /\ Logic.inBounds s (along row col dx dy (S k)).(r)
                      (along row col dx dy (S k)).(c) = true
  /\ cell s.(Logic.board) (along row col dx dy (S k)).(r)
          (along row col dx dy (S k)).(c)
     = Done (Some player).

(** The total of [getScores] that belongs to [p]. *)
Definition score_of (p : Player) (scores : Z * Z) : Z :=
  match p with
  | P_player => fst scores
  | P_ia => snd scores
  | P_none => 0
  end.

(** Row-major order on moves: the order in which [getValidMoves] scans
    the board. *)
Definition move_lt (a b : Move) : Prop :=
  a.(row) < b.(row) \/ (a.(row) = b.(row) /\ a.(col) < b.(col)).

(** Whether the scan of [getValidMoves] keeps the cell. *)
Definition kept (s : Logic.GameLogicService) (player : Player) (x y : Z)
  : bool :=
  match Logic.isValidMove s x y player with
  | Done true => true
  | _ => false
  end.

(* ------------------------------------------------------------------ *)
(** ** A game, as the board component drives the service

    Between two [initBoard] calls the component (boardgame.component.ts)
    does three things to the service: it calls [playMove], it hands the
    turn over by assigning ['ia'] or ['player'] to [currentPlayer]
    ([passTurn], and [playAIMove] when the AI has no move), and it reads the
    animation buffer with [getFlippedPawns]. *)

Inductive action : Type :=
| Play (x y : Z)        (* gameLogic.playMove(x, y) *)
| PassToIa              (* gameLogic.currentPlayer = 'ia' *)
| PassToPlayer          (* gameLogic.currentPlayer = 'player' *)
| Collect.              (* gameLogic.getFlippedPawns() *)

(** The service after one action. *)
Definition act (a : action) (s : Logic.GameLogicService)
  : Logic.GameLogicService :=
  match a with
  | Play x y => fst (Logic.playMove x y s)
  | PassToIa => Logic.set_currentPlayer P_ia s
  | PassToPlayer => Logic.set_currentPlayer P_player s
  | Collect => fst (Logic.getFlippedPawns s)
  end.

(** Whether the action is a move the service accepted. *)
Definition accepted (a : action) (s : Logic.GameLogicService) : bool :=
  match a with
  | Play x y =>
      match snd (Logic.playMove x y s) with
      | Done true => true
      | _ => false
      end
  | _ => false
  end.

(** The service after a sequence of actions, and how many moves it
    accepted on the way. *)
Fixpoint run (acts : list action) (s : Logic.GameLogicService)
  : Logic.GameLogicService * nat :=
  match acts with
  | [] => (s, O)
  | a :: rest =>
      let (s', n) := run rest (act a s) in
      (s', if accepted a s then S n else n)
  end.

(* ------------------------------------------------------------------ *)
(** ** How the AI picks among the legal moves *)

(** [m] is the first element of [moves] with the greatest score: the
    elements before it score strictly less, those after it at most as
    much.  [score a w] reads: the score of [a] is [w]. *)
Definition first_best (score : Move -> Z -> Prop) (moves : list Move)
    (m : Move) : Prop :=
  exists before after v,
    moves = before ++ m :: after
    /\ score m v
    /\ (forall a w, In a before -> score a w -> w < v)
    /\ (forall a w, In a after -> score a w -> w <= v).

(** The number [getBestImmediateMove] compares: how many discs the move
    captures. *)
Definition captures (board : Board) (player : Player) (a : Move) (w : Z)
  : Prop :=
  exists found,
    AI.getFlippableDiscs board a.(row) a.(col) player = Done found
    /\ w = Z.of_nat (length found).

(** The number [minimaxDecision] compares, without the alpha/beta window:
    the minimax value of the position the move leads to. *)
Definition search_value (board : Board) (player : Player) (depth : Z)
    (a : Move) (w : Z) : Prop :=
  exists child,
    AI.applyMove board a.(row) a.(col) player = Done child
    /\ Plain.minimax (AI.fuel_for (depth - 1)) child (depth - 1) player
                     (AI.opponent player) = Done (Fin w).

(** The number [choiceAmongTopMoves] sorts by:
    [evaluate(applyMove(board, m.row, m.col, player), player)]. *)
Definition static_value (board : Board) (player : Player) (a : Move)
  : outcome Z :=
  child <- AI.applyMove board a.(row) a.(col) player ;;
  AI.evaluate child player.

(** Whether the move scores strictly more than [v]. *)
Definition beats (board : Board) (player : Player) (v : Z) (a : Move)
  : bool :=
  match static_value board player a with
  | Done w => v <? w
  | Halt _ => false
  end.

(** [Math.random()] returns a number in [0, 1). *)
Definition unit_draws (rnd : AI.Random) : Prop :=
  forall i, unit64 (rnd i) = true.

(** A JavaScript array has fewer than 2^32 elements. *)
Definition array_sized {A} (l : list A) : Prop :=
  Z.of_nat (length l) < 2 ^ 32.

(* ------------------------------------------------------------------ *)
(** ** BoardGameComponent (boardgame.component.ts)

    The component shows its own copy of the board and drives the two
    services.  A handler that calls [setTimeout] returns which callback it
    scheduled; the callback is a handler of its own.  Left out: the fields
    [id] and [animating] of an animated pawn, which only [isFlipping]
    reads; the flag [aiThinking]; and the events sent to the parent
    component, which read the state without changing it. *)

Module BoardGame.

(** The [pawn] of an [AnimatedPawn].  [from] is read from the component's
    board: [undefined] where a row has no such cell. *)
Record Pawn : Type :=
  mkPawn { p_row : Z; p_col : Z; p_from : option Player; p_to : Player }.

(** The component's fields; [gameLogic] is the injected service. *)
Record BoardGameComponent : Type := mkComponent {
  size : Z;
  difficulty : AI.Difficulty;
  board : Board;
  currentPlayer : Player;
  validMoves : list Move;
  flippingPawns : list Pawn;
  gameLogic : Logic.GameLogicService
}.

Definition set_board (b : Board) (w : BoardGameComponent) :=
  mkComponent w.(size) w.(difficulty) b w.(currentPlayer) w.(validMoves)
              w.(flippingPawns) w.(gameLogic).
Definition set_currentPlayer (p : Player) (w : BoardGameComponent) :=
  mkComponent w.(size) w.(difficulty) w.(board) p w.(validMoves)
              w.(flippingPawns) w.(gameLogic).
Definition set_validMoves (l : list Move) (w : BoardGameComponent) :=
  mkComponent w.(size) w.(difficulty) w.(board) w.(currentPlayer) l
              w.(flippingPawns) w.(gameLogic).
Definition set_flippingPawns (l : list Pawn) (w : BoardGameComponent) :=
  mkComponent w.(size) w.(difficulty) w.(board) w.(currentPlayer)
              w.(validMoves) l w.(gameLogic).
Definition set_gameLogic (s : Logic.GameLogicService)
    (w : BoardGameComponent) :=
  mkComponent w.(size) w.(difficulty) w.(board) w.(currentPlayer)
              w.(validMoves) w.(flippingPawns) s.

(** What a handler hands to [setTimeout]: nothing, the callback that ends
    the animation, or [playAIMove]. *)
Inductive timer : Type := NoTimer | Animation | AIMove.

(** A handler: the component as it leaves it, and how it stopped. *)
Definition handler (A : Type) : Type :=
  BoardGameComponent -> BoardGameComponent * outcome A.

Definition ret {A} (a : A) : handler A := fun w => (w, Done a).
Definition bind {A B} (m : handler A) (f : A -> handler B) : handler B :=
  fun w => match m w with
           | (w', Done a) => f a w'
           | (w', Halt h) => (w', Halt h)
           end.
Definition modify (f : BoardGameComponent -> BoardGameComponent)
  : handler unit :=
  fun w => (f w, Done tt).
(** An expression that reads the component. *)
Definition read {A} (f : BoardGameComponent -> outcome A) : handler A :=
  fun w => (w, f w).
(** A call of a method of the service. *)
Definition service {A} (m : Logic.method A) : handler A :=
  fun w => let (s', o) := m w.(gameLogic) in (set_gameLogic s' w, o).
(** A write to the component's board, which may throw before it changes
    anything. *)
Definition update_board (f : Board -> outcome Board) : handler unit :=
  fun w => match f w.(board) with
           | Done b => (set_board b w, Done tt)
           | Halt h => (w, Halt h)
           end.

Declare Scope handler_scope.
Delimit Scope handler_scope with handler.
Notation "x <-- m ;; k" := (bind m (fun x => k))
  (at level 61, m at next level, right associativity) : handler_scope.
Notation "m ;;; k" := (bind m (fun _ => k))
  (at level 61, right associativity) : handler_scope.

(** [this.currentPlayer = this.gameLogic.currentPlayer;
     this.validMoves = this.gameLogic.getValidMoves(this.currentPlayer);]
    the two statements that end every turn (followed by [emitState()]). *)
Definition refresh : handler unit :=
  (modify (fun w => set_currentPlayer
                      w.(gameLogic).(Logic.currentPlayer) w) ;;;
   moves <-- read (fun w => Logic.getValidMoves w.(gameLogic)
                                                w.(currentPlayer)) ;;
   modify (set_validMoves moves))%handler.

(** [initGame()] *)
Definition initGame : handler timer :=
  (n <-- read (fun w => Done w.(size)) ;;
   service (Logic.initBoard n) ;;;
   modify (fun w => set_board
                      (map (fun rowArr => rowArr)
                           w.(gameLogic).(Logic.board)) w) ;;;
   refresh ;;;
   modify (set_flippingPawns []) ;;;
   me <-- read (fun w => Done w.(currentPlayer)) ;;
   ret (if Player_eqb me P_ia then AIMove else NoTimer))%handler.

(** [isValidMove(row, col)] of the component: a look-up in [validMoves]. *)
Definition isValidMove (w : BoardGameComponent) (row0 col0 : Z) : bool :=
  existsb (fun m => (m.(row) =? row0) && (m.(col) =? col0)) w.(validMoves).

(** [flips.map(p => ({ ..., pawn: { row: p.r, col: p.c,
      from: this.board[p.r][p.c], to }, ... }))] *)
Fixpoint animate (b : Board) (to_ : Player) (flips : list Disc)
  : outcome (list Pawn) :=
  match flips with
  | [] => Done []
  | p :: rest =>
      v <- cell b p.(r) p.(c) ;;
      tail <- animate b to_ rest ;;
      Done (mkPawn p.(r) p.(c) v to_ :: tail)
  end.

(** [for (const p of this.flippingPawns)
      this.board[p.pawn.row][p.pawn.col] = p.pawn.to;] *)
Fixpoint paint (pawns : list Pawn) : handler unit :=
  match pawns with
  | [] => ret tt
  | p :: rest =>
      (update_board (fun b => assign b p.(p_row) p.(p_col) p.(p_to)) ;;;
       paint rest)%handler
  end.



(** [passTurn()] *)
Definition passTurn : handler timer :=
  (me <-- read (fun w => Done w.(currentPlayer)) ;;
   if negb (Player_eqb me P_player) then ret NoTimer
   else
     moves <-- read (fun w => Done w.(validMoves)) ;;
     if (0 <? Z.of_nat (length moves)) then ret NoTimer
     else
       service (Logic.modify (Logic.set_currentPlayer P_ia)) ;;;
       modify (set_currentPlayer P_ia) ;;;
       moves' <-- read (fun w => Logic.getValidMoves w.(gameLogic)
                                                     w.(currentPlayer)) ;;
       modify (set_validMoves moves') ;;;
       ret AIMove)%handler.

(** The callback [playAIMove()] schedules, up to its own [setTimeout];
    [rnd] gives the draws of [Math.random()] inside [chooseMove]. *)
Definition playAIMove (rnd : AI.Random) : handler timer :=
  (best <-- read (fun w => AI.chooseMove rnd w.(board) P_ia
                                         w.(difficulty)) ;;
   match best with
   | AI.Null | AI.Undefined =>            (* !best *)
       service (Logic.modify (Logic.set_currentPlayer P_player)) ;;;
       modify (set_currentPlayer P_player) ;;;
       moves <-- read (fun w => Logic.getValidMoves w.(gameLogic)
                                                    w.(currentPlayer)) ;;
       modify (set_validMoves moves) ;;;
       ret NoTimer
   | AI.Chosen m =>
       flips <-- read (fun w => Logic.getFlippableDiscs
                                  w.(gameLogic) m.(row) m.(col) P_ia) ;;
       flippedBefore <-- read (fun w => animate w.(board) P_ia flips) ;;
       modify (set_flippingPawns
                 (flippedBefore
                  ++ [mkPawn m.(row) m.(col) (Some P_none) P_ia])) ;;;
       moved <-- service (Logic.playMove m.(row) m.(col)) ;;
       if negb moved then
         modify (fun w => set_board
                            (map (fun rowArr => rowArr)
                                 w.(gameLogic).(Logic.board)) w) ;;;
         refresh ;;;
         ret NoTimer
       else ret Animation
   end)%handler.

(** The callback the AI's move schedules. *)
Definition ai_callback : handler timer :=
  (pawns <-- read (fun w => Done w.(flippingPawns)) ;;
   paint pawns ;;;
   modify (set_flippingPawns []) ;;;
   refresh ;;;
   me <-- read (fun w => Done w.(currentPlayer)) ;;
   moves <-- read (fun w => Done w.(validMoves)) ;;
   ret (if Player_eqb me P_ia && (0 <? Z.of_nat (length moves))
        then AIMove else NoTimer))%handler.

(** The component as its field initialisers leave it, holding a new
    service. *)
Definition fresh : BoardGameComponent :=
  mkComponent 8 AI.Moyen [] P_player [] [] Logic.start.

(** The component after [ngOnInit()]. *)
Definition start : BoardGameComponent := fst (initGame fresh).

End BoardGame.

(** The component between two turns: its board, its side to move and its
    list of legal moves are those of the service, no pawn is being
    animated, and the service's board is the [size] x [size] grid. *)
Definition in_step (w : BoardGame.BoardGameComponent) : Prop :=
  square w.(BoardGame.gameLogic)
  /\ w.(BoardGame.board) = w.(BoardGame.gameLogic).(Logic.board)
  /\ w.(BoardGame.currentPlayer)
     = w.(BoardGame.gameLogic).(Logic.currentPlayer)
  /\ Logic.getValidMoves w.(BoardGame.gameLogic) w.(BoardGame.currentPlayer)
     = Done w.(BoardGame.validMoves)
  /\ w.(BoardGame.flippingPawns) = []
  /\ w.(BoardGame.currentPlayer) <> P_none.

(* ================================================================== *)
(** * Theorems *)

(** The start position, its legal moves and the opening move (2,4). *)
Example start_board_row3 :
  nth_error Logic.start.(Logic.board) 3
  = Some [P_none; P_none; P_none; P_player; P_ia; P_none; P_none; P_none].
Proof. reflexivity. Qed.

Example start_valid_moves :
  Logic.getValidMoves Logic.start P_player
  = Done [mkMove 2 4; mkMove 3 5; mkMove 4 2; mkMove 5 3].
Proof. reflexivity. Qed.

Example start_play_2_4 :
  snd (Logic.playMove 2 4 Logic.start) = Done true
  /\ Logic.getScores (fst (Logic.playMove 2 4 Logic.start)) = (4, 1).
Proof. split; reflexivity. Qed.

(* ------------------------------------------------------------------ *)
(** ** Arrays: reading and writing by index *)

Section ArrayFacts.
Context {A : Type}.

Lemma set_nth_length (l : list A) n v : length (set_nth l n v) = length l.
Proof.
  revert n; induction l as [|h t IH]; intros [|n]; simpl; auto.
Qed.

Lemma nth_error_set_nth_eq (l : list A) n v :
  (n < length l)%nat -> nth_error (set_nth l n v) n = Some v.
Proof.
  revert n; induction l as [|h t IH]; intros [|n] Hn; simpl in *;
    try lia; auto.
  apply IH; lia.
Qed.

Lemma nth_error_set_nth_neq (l : list A) n m v :
  n <> m -> nth_error (set_nth l n v) m = nth_error l m.
Proof.
  revert n m; induction l as [|h t IH]; intros [|n] [|m] Hnm; simpl;
    try congruence; auto.
Qed.

Lemma js_nth_Some (l : list A) i a :
  js_nth l i = Some a -> 0 <= i < Z.of_nat (length l).
Proof.
  unfold js_nth. destruct (Z.ltb_spec i 0); [discriminate|].
  intros H'. assert (nth_error l (Z.to_nat i) <> None) as Hlt by congruence.
  apply nth_error_Some in Hlt. lia.
Qed.

Lemma js_nth_in_range (l : list A) i :
  0 <= i < Z.of_nat (length l) -> exists a, js_nth l i = Some a.
Proof.
  intros Hi. unfold js_nth. destruct (Z.ltb_spec i 0); [lia|].
  destruct (nth_error l (Z.to_nat i)) eqn:E; eauto.
  apply nth_error_None in E. lia.
Qed.

Lemma js_nth_None (l : list A) i :
  js_nth l i = None -> i < 0 \/ Z.of_nat (length l) <= i.
Proof.
  intros E. destruct (Z_lt_ge_dec i 0); [now left|right].
  destruct (Z_lt_ge_dec i (Z.of_nat (length l))); [|lia].
  destruct (js_nth_in_range l i) as [a Ha]; [lia|congruence].
Qed.

Lemma js_nth_set_nth_eq (l : list A) i v :
  0 <= i < Z.of_nat (length l) ->
  js_nth (set_nth l (Z.to_nat i) v) i = Some v.
Proof.
  intros Hi. unfold js_nth. destruct (Z.ltb_spec i 0); [lia|].
  apply nth_error_set_nth_eq. lia.
Qed.

Lemma js_nth_set_nth_neq (l : list A) i j v :
  0 <= i -> i <> j -> js_nth (set_nth l (Z.to_nat i) v) j = js_nth l j.
Proof.
  intros Hi Hij. unfold js_nth. destruct (Z.ltb_spec j 0); [reflexivity|].
  apply nth_error_set_nth_neq. lia.
Qed.

End ArrayFacts.

Lemma same_true v p : same v p = true -> v = Some p.
Proof.
  destruct v as [q|]; simpl; [|discriminate].
  destruct q, p; simpl; congruence.
Qed.

Lemma same_Some q p : same (Some q) p = Player_eqb q p.
Proof. reflexivity. Qed.

Lemma Player_eqb_eq a b : Player_eqb a b = true <-> a = b.
Proof. destruct a, b; simpl; split; congruence. Qed.

Lemma cell_Some_inv b x y v :
  cell b x y = Done (Some v) ->
  exists rowArr, js_nth b x = Some rowArr /\ js_nth rowArr y = Some v.
Proof.
  unfold cell. destruct (js_nth b x) as [rw|]; [|discriminate].
  intros [= E]. eauto.
Qed.

Lemma assign_on_board b x y v :
  on_board b x y -> exists b', assign b x y v = Done b'.
Proof.
  intros [old H]. apply cell_Some_inv in H as (rw & Hx & Hy).
  unfold assign, js_set. rewrite Hx.
  apply js_nth_Some in Hy.
  destruct (Z.leb_spec 0 y), (Z.ltb_spec y (Z.of_nat (length rw)));
    try lia.
  simpl. eauto.
Qed.

Lemma assign_inv b x y v b' :
  assign b x y v = Done b' ->
  exists rowArr, js_nth b x = Some rowArr
    /\ 0 <= y < Z.of_nat (length rowArr)
    /\ b' = set_nth b (Z.to_nat x) (set_nth rowArr (Z.to_nat y) v).
Proof.
  unfold assign, js_set. destruct (js_nth b x) as [rw|] eqn:Hx;
    [|discriminate].
  destruct (Z.leb_spec 0 y), (Z.ltb_spec y (Z.of_nat (length rw)));
    simpl; try discriminate.
  intros [= <-]. exists rw. repeat split; auto.
Qed.

Lemma cell_assign_eq b x y v b' :
  assign b x y v = Done b' -> cell b' x y = Done (Some v).
Proof.
  intros H. apply assign_inv in H as (rw & Hx & Hy & ->).
  unfold cell. pose proof (js_nth_Some _ _ _ Hx) as Hxr.
  rewrite js_nth_set_nth_eq by lia.
  now rewrite js_nth_set_nth_eq.
Qed.

Lemma cell_assign_neq b x y v b' x' y' :
  assign b x y v = Done b' -> (x', y') <> (x, y) ->
  cell b' x' y' = cell b x' y'.
Proof.
  intros H Hne. apply assign_inv in H as (rw & Hx & Hy & ->).
  pose proof (js_nth_Some _ _ _ Hx) as Hxr.
  unfold cell. destruct (Z.eq_dec x x') as [<-|Hxx].
  - rewrite js_nth_set_nth_eq by lia. rewrite Hx.
    rewrite js_nth_set_nth_neq; [reflexivity|lia|congruence].
  - now rewrite js_nth_set_nth_neq by lia.
Qed.

Lemma assign_length b x y v b' :
  assign b x y v = Done b' -> length b' = length b.
Proof.
  intros H. apply assign_inv in H as (rw & _ & _ & ->).
  apply set_nth_length.
Qed.

Lemma assign_keeps_on_board b x y v b' x' y' :
  assign b x y v = Done b' -> on_board b x' y' -> on_board b' x' y'.
Proof.
  intros H [w Hw]. destruct (Z.eq_dec x' x) as [->|Hx].
  - destruct (Z.eq_dec y' y) as [->|Hy].
    + exists v. eapply cell_assign_eq; eauto.
    + exists w. erewrite cell_assign_neq; eauto. congruence.
  - exists w. erewrite cell_assign_neq; eauto. congruence.
Qed.

(* ------------------------------------------------------------------ *)
(** ** Inverting the outcome monad *)

Lemma obind_Done {A B} (m : outcome A) (f : A -> outcome B) b :
  obind m f = Done b -> exists a, m = Done a /\ f a = Done b.
Proof. destruct m; simpl; [eauto|discriminate]. Qed.

Lemma obind_Halt {A B} (m : outcome A) (f : A -> outcome B) h :
  obind m f = Halt h ->
  m = Halt h \/ exists a, m = Done a /\ f a = Halt h.
Proof. destruct m; simpl; [eauto|]. intros [= ->]. now left. Qed.

Ltac inv_bind H :=
  let a := fresh "a" in
  let Ha := fresh "Ha" in
  apply obind_Done in H as (a & Ha & H).

(* ------------------------------------------------------------------ *)
(** ** GameLogicService: the capture walk *)

Module LogicFacts.
Import Logic.

Lemma inBounds_true s x y :
  inBounds s x y = true <-> 0 <= x < s.(size) /\ 0 <= y < s.(size).
Proof. unfold inBounds. rewrite !andb_true_iff. lia. Qed.

Lemma directions_cases dx dy :
  In (dx, dy) directions ->
  (dx = -1 \/ dx = 0 \/ dx = 1) /\ (dy = -1 \/ dy = 0 \/ dy = 1)
  /\ (dx <> 0 \/ dy <> 0).
Proof.
  simpl. intros H.
  repeat (destruct H as [[= <- <-]|H]; [lia|]). contradiction.
Qed.

Section Walk.
Variable s : GameLogicService.
Variables opponent player : Player.
Variables dx dy : Z.
Hypothesis Hdir : In (dx, dy) directions.

Lemma walk_not_out_of_fuel fuel x y temp :
  (inBounds s x y = true -> reach s.(size) dx dy x y <= Z.of_nat fuel) ->
  walk s opponent player dx dy fuel x y temp <> Halt OutOfFuel.
Proof.
  pose proof (directions_cases _ _ Hdir) as (Hx & Hy & Hnz).
  revert x y temp. induction fuel as [|f IH]; intros x y temp Hr; simpl.
  - destruct (inBounds s x y) eqn:Hb; [|discriminate].
    specialize (Hr eq_refl). apply inBounds_true in Hb.
    unfold reach in Hr.
    destruct (Z.eqb_spec dx 1), (Z.eqb_spec dx (-1)), (Z.eqb_spec dy 1);
      lia.
  - destruct (inBounds s x y) eqn:Hb; [|discriminate].
    specialize (Hr eq_refl).
    destruct (cell (board s) x y) as [v|h] eqn:Hc; simpl.
    + destruct (same v opponent).
      * apply IH. intros Hb'. apply inBounds_true in Hb, Hb'.
        unfold reach in *.
        destruct (Z.eqb_spec dx 1), (Z.eqb_spec dx (-1)),
          (Z.eqb_spec dy 1); lia.
      * destruct (same v player); discriminate.
    + unfold cell in Hc. destruct (js_nth (board s) x); [discriminate|].
      injection Hc as <-. discriminate.
Qed.

Lemma walk_not_array_growth fuel x y temp :
  walk s opponent player dx dy fuel x y temp <> Halt ArrayGrowth.
Proof.
  revert x y temp. induction fuel as [|f IH]; intros x y temp; simpl;
    destruct (inBounds s x y); try discriminate.
  destruct (cell (board s) x y) as [v|h] eqn:Hc; simpl.
  - destruct (same v opponent); [apply IH|].
    destruct (same v player); discriminate.
  - unfold cell in Hc. destruct (js_nth (board s) x); [discriminate|].
    injection Hc as <-. discriminate.
Qed.

Lemma walk_no_type_error fuel x y temp :
  rows_cover s ->
  walk s opponent player dx dy fuel x y temp <> Halt TypeError.
Proof.
  intros Hc. revert x y temp.
  induction fuel as [|f IH]; intros x y temp; simpl;
    destruct (inBounds s x y) eqn:Hb; try discriminate.
  apply inBounds_true in Hb.
  destruct (js_nth_in_range s.(board) x) as [rw Hrw];
    [unfold rows_cover in Hc; lia|].
  unfold cell. rewrite Hrw. simpl.
  destruct (same _ opponent); [apply IH|].
  destruct (same _ player); discriminate.
Qed.

(** What a walk returns are cells it read as the opponent's. *)
Lemma walk_discs fuel x y temp found :
  walk s opponent player dx dy fuel x y temp = Done found ->
  (forall d, In d temp ->
     cell s.(board) d.(r) d.(c) = Done (Some opponent)) ->
  forall d, In d found ->
    cell s.(board) d.(r) d.(c) = Done (Some opponent).
Proof.
  revert x y temp. induction fuel as [|f IH]; intros x y temp; simpl;
    destruct (inBounds s x y) eqn:Hb;
    try (intros [= <-] _ d []); try discriminate.
  destruct (cell (board s) x y) as [v|h] eqn:Hc; simpl; [|discriminate].
  destruct (same v opponent) eqn:Ho.
  - intros Hw Ht. eapply IH; eauto.
    intros d [Hd|[<-|[]]]%in_app_or; auto.
    apply same_true in Ho. now subst v.
  - destruct (same v player); intros [= <-]; auto. intros _ d [].
Qed.

End Walk.

(** The walk started by [getFlippableDiscs] has fuel to spare. *)
Lemma start_reach s dx dy x y :
  In (dx, dy) directions -> inBounds s x y = true ->
  reach s.(size) dx dy x y <= Z.of_nat (Z.to_nat s.(size)).
Proof.
  intros Hd Hb. apply directions_cases in Hd as (Hx & Hy & _).
  apply inBounds_true in Hb. unfold reach.
  destruct (Z.eqb_spec dx 1), (Z.eqb_spec dx (-1)), (Z.eqb_spec dy 1);
    lia.
Qed.

Lemma each_direction_discs s opponent player rw cl dirs flippable found :
  each_direction s opponent player rw cl dirs flippable = Done found ->
  (forall d, In d flippable ->
     cell s.(board) d.(r) d.(c) = Done (Some opponent)) ->
  forall d, In d found ->
    cell s.(board) d.(r) d.(c) = Done (Some opponent).
Proof.
  revert flippable. induction dirs as [|[dx dy] rest IH];
    intros flippable; simpl.
  - intros [= <-]; auto.
  - intros H Hf. inv_bind H. eapply IH; eauto.
    intros d [Hd|Hd]%in_app_or; auto.
    eapply walk_discs; eauto. intros ? [].
Qed.

Lemma each_direction_total s opponent player rw cl dirs flippable :
  rows_cover s -> incl dirs directions ->
  exists found,
    each_direction s opponent player rw cl dirs flippable = Done found.
Proof.
  intros Hc. revert flippable.
  induction dirs as [|[dx dy] rest IH]; intros flippable Hi; simpl; eauto.
  assert (In (dx, dy) directions) as Hd by (apply Hi; now left).
  destruct (walk s opponent player dx dy (Z.to_nat (size s)) (rw + dx)
              (cl + dy) []) as [l|[]] eqn:Hw; simpl.
  - apply IH. intros d Hd'. apply Hi. now right.
  - exfalso. eapply walk_no_type_error; eauto.
  - exfalso. eapply walk_not_array_growth; eauto.
  - exfalso. eapply walk_not_out_of_fuel; [exact Hd| |exact Hw].
    intros Hb. now apply start_reach.
Qed.

Lemma getFlippableDiscs_discs s rw cl player found :
  getFlippableDiscs s rw cl player = Done found ->
  forall d, In d found ->
    cell s.(board) d.(r) d.(c) = Done (Some (opponent_of player)).
Proof.
  unfold getFlippableDiscs. intros H.
  eapply each_direction_discs; eauto. intros ? [].
Qed.

Lemma getFlippableDiscs_total s rw cl player :
  rows_cover s -> exists found, getFlippableDiscs s rw cl player = Done found.
Proof.
  intros Hc. apply each_direction_total; auto. apply incl_refl.
Qed.

Lemma opponent_of_side player : opponent_of player <> P_none.
Proof. destruct player; discriminate. Qed.

End LogicFacts.

(* ------------------------------------------------------------------ *)
(** ** Counting under a write *)

Lemma sumZ_cons {A} (f : A -> Z) a l : sumZ f (a :: l) = f a + sumZ f l.
Proof. reflexivity. Qed.

Lemma sumZ_nil {A} (f : A -> Z) : sumZ f [] = 0.
Proof. reflexivity. Qed.

Lemma sumZ_app {A} (f : A -> Z) l1 l2 :
  sumZ f (l1 ++ l2) = sumZ f l1 + sumZ f l2.
Proof.
  induction l1 as [|a t IH]; [reflexivity|].
  rewrite <- app_comm_cons, !sumZ_cons, IH. lia.
Qed.

#[local] Opaque sumZ.

Lemma sumZ_set_nth {A} (f : A -> Z) (l : list A) n old v :
  nth_error l n = Some old ->
  sumZ f (set_nth l n v) = sumZ f l - f old + f v.
Proof.
  revert n; induction l as [|h t IH]; intros [|n]; simpl;
    try discriminate; rewrite !sumZ_cons.
  - intros [= ->]. lia.
  - intros H. rewrite (IH _ H). lia.
Qed.

Lemma js_nth_nth_error {A} (l : list A) i a :
  js_nth l i = Some a -> nth_error l (Z.to_nat i) = Some a.
Proof. unfold js_nth. destruct (i <? 0); [discriminate|auto]. Qed.

Lemma occupied_assign b x y v b' old :
  assign b x y v = Done b' -> cell b x y = Done (Some old) ->
  occupied b' = occupied b - occ old + occ v.
Proof.
  intros Ha Hc. apply assign_inv in Ha as (rw & Hx & Hy & ->).
  apply cell_Some_inv in Hc as (rw' & Hx' & Hy').
  assert (rw' = rw) as -> by congruence.
  unfold occupied.
  rewrite (sumZ_set_nth _ _ _ rw) by now apply js_nth_nth_error.
  rewrite (sumZ_set_nth _ _ _ old) by now apply js_nth_nth_error.
  lia.
Qed.

(** [getScores] counts each side's discs; together they are the occupied
    cells. *)
Lemma tally_row_total rowArr acc :
  fst (Logic.tally_row acc rowArr) + snd (Logic.tally_row acc rowArr)
  = fst acc + snd acc + sumZ occ rowArr.
Proof.
  unfold Logic.tally_row. revert acc.
  induction rowArr as [|v t IH]; intros acc; simpl.
  - rewrite sumZ_nil; lia.
  - rewrite IH, sumZ_cons.
    destruct v; unfold Logic.tally_cell, occ; cbn [fst snd]; lia.
Qed.

Lemma tally_board_total b acc :
  fst (fold_left Logic.tally_row b acc) + snd (fold_left Logic.tally_row b acc)
  = fst acc + snd acc + occupied b.
Proof.
  unfold occupied. revert acc.
  induction b as [|rw t IH]; intros acc; simpl.
  - rewrite sumZ_nil; lia.
  - rewrite IH, tally_row_total, sumZ_cons. lia.
Qed.

Lemma getScores_occupied s :
  fst (Logic.getScores s) + snd (Logic.getScores s)
  = occupied s.(Logic.board).
Proof. unfold Logic.getScores. rewrite tally_board_total. simpl. lia. Qed.


(* ------------------------------------------------------------------ *)
(** ** GameLogicService: validity, enumeration, playing a move *)

Module PlayFacts.
Import Logic LogicFacts.

Lemma isValidMove_true s x y player :
  isValidMove s x y player = Done true ->
  cell s.(board) x y = Done (Some P_none)
  /\ exists found, getFlippableDiscs s x y player = Done found
                   /\ found <> [].
Proof.
  unfold isValidMove. intros H. inv_bind H.
  destruct (same a P_none) eqn:Hs; simpl in H; [|discriminate].
  apply same_true in Hs. subst a. split; [assumption|].
  inv_bind H. exists a. split; [assumption|].
  injection H as H. destruct a; [discriminate|congruence].
Qed.

Lemma isValidMove_false s x y player :
  isValidMove s x y player = Done false ->
  (exists v, cell s.(board) x y = Done v /\ v <> Some P_none)
  \/ getFlippableDiscs s x y player = Done [].
Proof.
  unfold isValidMove. intros H. inv_bind H.
  destruct (same a P_none) eqn:Hs; simpl in H.
  - right. inv_bind H. injection H as H.
    destruct a0; [assumption|]. apply Z.ltb_ge in H.
    cbn [length] in H. lia.
  - left. exists a. split; [assumption|]. intros ->. discriminate.
Qed.

Lemma isValidMove_total s x y player :
  rows_cover s -> 0 <= x < Z.of_nat (length s.(board)) ->
  exists ok, isValidMove s x y player = Done ok.
Proof.
  intros Hc Hx. unfold isValidMove, cell.
  destruct (js_nth_in_range s.(board) x Hx) as [rw ->]. simpl.
  destruct (negb _); eauto.
  destruct (getFlippableDiscs_total s x y player Hc) as [found ->].
  simpl. eauto.
Qed.

Lemma upto_In n x : In x (upto n) <-> 0 <= x < n.
Proof.
  unfold upto. rewrite in_map_iff. split.
  - intros (k & <- & Hk). apply in_seq in Hk. lia.
  - intros Hx. exists (Z.to_nat x). split; [lia|]. apply in_seq. lia.
Qed.

Lemma scan_cols_valid s player x cols moves moves' :
  scan_cols s player x cols moves = Done moves' ->
  forall m, In m moves' ->
    In m moves \/ isValidMove s m.(row) m.(col) player = Done true.
Proof.
  revert moves. induction cols as [|y rest IH]; intros moves; simpl.
  - intros [= <-]; auto.
  - intros H m Hm. inv_bind H. destruct (IH _ H m Hm) as [Hin|]; auto.
    destruct a; auto.
    apply in_app_or in Hin as [|[<-|[]]]; auto.
Qed.

Lemma scan_rows_valid s player rows moves moves' :
  scan_rows s player rows moves = Done moves' ->
  forall m, In m moves' ->
    In m moves \/ isValidMove s m.(row) m.(col) player = Done true.
Proof.
  revert moves. induction rows as [|x rest IH]; intros moves; simpl.
  - intros [= <-]; auto.
  - intros H m Hm. inv_bind H. destruct (IH _ H m Hm) as [Hin|]; auto.
    eapply scan_cols_valid; eauto.
Qed.

Lemma scan_cols_total s player x cols moves :
  rows_cover s -> 0 <= x < s.(size) ->
  exists moves', scan_cols s player x cols moves = Done moves'.
Proof.
  intros Hc Hx. revert moves.
  induction cols as [|y rest IH]; intros moves; simpl; eauto.
  destruct (isValidMove_total s x y player Hc) as [ok ->];
    [unfold rows_cover in Hc; lia|].
  simpl. apply IH.
Qed.

Lemma scan_rows_total s player rows moves :
  rows_cover s -> (forall x, In x rows -> 0 <= x < s.(size)) ->
  exists moves', scan_rows s player rows moves = Done moves'.
Proof.
  intros Hc. revert moves.
  induction rows as [|x rest IH]; intros moves Hr; simpl; eauto.
  destruct (scan_cols_total s player x (upto (size s)) moves Hc)
    as [m' ->]; [apply Hr; now left|].
  simpl. apply IH. intros; apply Hr; now right.
Qed.

Lemma getValidMoves_total s player :
  rows_cover s -> exists moves, getValidMoves s player = Done moves.
Proof.
  intros Hc. apply scan_rows_total; auto. intros x; apply upto_In.
Qed.

(** The flips of [playMove]: all of them succeed when they name cells of
    the board, and the board that results is known cell by cell. *)
Lemma flip_all_cells flipped to_ s :
  (forall d, In d flipped -> on_board s.(board) d.(r) d.(c)) ->
  exists b',
    flip_all flipped to_ s = (set_board b' s, Done tt)
    /\ (forall x y, on_board s.(board) x y -> on_board b' x y)
    /\ (forall x y, In (mkDisc x y) flipped ->
                    cell b' x y = Done (Some to_))
    /\ (forall x y, ~ In (mkDisc x y) flipped ->
                    cell b' x y = cell s.(board) x y).
Proof.
  revert s. induction flipped as [|f rest IH]; intros s Hon; simpl.
  - exists s.(board). destruct s; unfold ret, set_board; simpl.
    repeat split; auto. intros ? ? [].
  - destruct (assign_on_board s.(board) f.(r) f.(c) to_) as [b1 Hb1];
      [apply Hon; now left|].
    unfold bind, update_board. rewrite Hb1.
    destruct (IH (set_board b1 s)) as (b' & Hrun & Hkeep & Hin & Hout).
    { intros d Hd. simpl. eapply assign_keeps_on_board; eauto.
      apply Hon. now right. }
    exists b'. simpl in *. split; [exact Hrun|]. split; [|split].
    + intros x y Hxy. apply Hkeep.
      eapply assign_keeps_on_board; eauto.
    + intros x y [Hf|Hr]; [|now apply Hin].
      destruct (in_dec (fun a b : Disc =>
                  ltac:(decide equality; apply Z.eq_dec) : {a = b} + {a <> b})
                  (mkDisc x y) rest) as [Hi|Hn]; [now apply Hin|].
      rewrite (Hout _ _ Hn). subst f. simpl in Hb1.
      eapply cell_assign_eq; eauto.
    + intros x y Hn. rewrite Hout by tauto.
      eapply cell_assign_neq; eauto.
      intros [= -> ->]. apply Hn. left. now destruct f.
Qed.

Lemma flip_all_occupied flipped to_ s b' :
  flip_all flipped to_ s = (set_board b' s, Done tt) ->
  to_ <> P_none ->
  (forall d, In d flipped ->
     exists v, cell s.(board) d.(r) d.(c) = Done (Some v) /\ v <> P_none) ->
  occupied b' = occupied s.(board).
Proof.
  intros Hrun Hto. revert s b' Hrun.
  induction flipped as [|f rest IH]; intros s b' Hrun Hocc; simpl in *.
  - unfold ret in Hrun. injection Hrun as Hs.
    destruct s; unfold set_board in Hs; simpl in *. congruence.
  - unfold bind, update_board in Hrun.
    destruct (assign s.(board) f.(r) f.(c) to_) as [b1|h] eqn:Hb1;
      [|discriminate].
    destruct (Hocc f (or_introl eq_refl)) as (old & Hold & Hne).
    assert (occupied b1 = occupied s.(board)) as Hb1occ.
    { rewrite (occupied_assign _ _ _ _ _ _ Hb1 Hold).
      destruct old, to_; simpl; congruence || lia. }
    rewrite <- Hb1occ.
    apply (IH (set_board b1 s)).
    + simpl. destruct (flip_all rest to_ (set_board b1 s)) as [s2 o] eqn:E.
      injection Hrun as -> ->. destruct s; reflexivity.
    + intros d Hd. simpl.
      destruct (Hocc d (or_intror Hd)) as (v & Hv & Hvn).
      destruct (Z.eq_dec d.(r) f.(r)) as [Hr|Hr];
        [destruct (Z.eq_dec d.(c) f.(c)) as [Hc|Hc]|].
      * exists to_. split; [|assumption]. rewrite Hr, Hc.
        eapply cell_assign_eq; eauto.
      * exists v. split; [|assumption].
        erewrite cell_assign_neq; eauto. congruence.
      * exists v. split; [|assumption].
        erewrite cell_assign_neq; eauto. congruence.
Qed.

(** The state a valid move leaves behind. *)
Lemma playMove_valid s x y :
  isValidMove s x y s.(currentPlayer) = Done true ->
  exists found b1 b2,
    getFlippableDiscs s x y s.(currentPlayer) = Done found
    /\ found <> []
    /\ flip_all found s.(currentPlayer) s = (set_board b1 s, Done tt)
    /\ assign b1 x y s.(currentPlayer) = Done b2
    /\ playMove x y s
       = (mkService b2 s.(size) (opponent_of s.(currentPlayer))
            (map (fun f => mkFlipped f.(r) f.(c)
                    (opponent_of s.(currentPlayer)) s.(currentPlayer))
                 found
             ++ [mkFlipped x y P_none s.(currentPlayer)]),
          Done true).
Proof.
  intros Hv. destruct (isValidMove_true _ _ _ _ Hv) as (Hcell & found & Hf & Hne).
  destruct (flip_all_cells found s.(currentPlayer) s)
    as (b1 & Hrun & Hkeep & _ & _).
  { intros d Hd. exists (opponent_of s.(currentPlayer)).
    eapply getFlippableDiscs_discs; eauto. }
  destruct (assign_on_board b1 x y s.(currentPlayer)) as [b2 Hb2].
  { apply Hkeep. now exists P_none. }
  exists found, b1, b2. repeat (split; [assumption|]).
  unfold playMove, bind, query, ret, modify, update_board.
  rewrite Hv. simpl. rewrite Hf. rewrite Hrun. simpl. rewrite Hb2.
  reflexivity.
Qed.

Lemma playMove_invalid s x y :
  isValidMove s x y s.(currentPlayer) = Done false ->
  playMove x y s = (s, Done false).
Proof.
  intros Hv. unfold playMove, bind, query, ret. now rewrite Hv.
Qed.

Lemma playMove_halts s x y h :
  isValidMove s x y s.(currentPlayer) = Halt h ->
  playMove x y s = (s, Halt h).
Proof.
  intros Hv. unfold playMove, bind, query, ret. now rewrite Hv.
Qed.

Lemma playMove_true_inv s x y s' :
  playMove x y s = (s', Done true) ->
  isValidMove s x y s.(currentPlayer) = Done true.
Proof.
  destruct (isValidMove s x y s.(currentPlayer)) as [[|]|h] eqn:Hv; auto.
  - rewrite (playMove_invalid _ _ _ Hv). discriminate.
  - rewrite (playMove_halts _ _ _ _ Hv). discriminate.
Qed.

End PlayFacts.

(* ------------------------------------------------------------------ *)
(** ** GameLogicService: the claims about moves *)

Module LogicClaims.
Import Logic LogicFacts PlayFacts.

(** C1.  On a service whose board has a row for every index below [size],
    [getValidMoves] returns, and every move it returns names an empty
    cell whose [getFlippableDiscs] is non-empty; when the side asked about
    is the current player, [playMove] on that move returns true. *)
Theorem getValidMoves_sound (s : GameLogicService) (player : Player) :
  rows_cover s ->
  exists moves,
    getValidMoves s player = Done moves
    /\ forall m, In m moves ->
         cell s.(board) m.(row) m.(col) = Done (Some P_none)
         /\ (exists found,
               getFlippableDiscs s m.(row) m.(col) player = Done found
               /\ found <> [])
         /\ (player = s.(currentPlayer) ->
             snd (playMove m.(row) m.(col) s) = Done true).
Proof.
  intros Hc. destruct (getValidMoves_total s player Hc) as [moves Hm].
  exists moves. split; [assumption|]. intros m Hin.
  destruct (scan_rows_valid _ _ _ _ _ Hm m Hin) as [[]|Hv].
  destruct (isValidMove_true _ _ _ _ Hv) as (Hcell & Hfound).
  repeat split; auto.
  intros ->. destruct (playMove_valid _ _ _ Hv) as (? & ? & ? & _ & _ & _ & _ & ->).
  reflexivity.
Qed.

Lemma getValidMoves_sound_witness :
  rows_cover start
  /\ exists moves,
       getValidMoves start P_player = Done moves
       /\ forall m, In m moves ->
            cell start.(board) m.(row) m.(col) = Done (Some P_none)
            /\ (exists found,
                  getFlippableDiscs start m.(row) m.(col) P_player
                  = Done found /\ found <> [])
            /\ (P_player = start.(currentPlayer) ->
                snd (playMove m.(row) m.(col) start) = Done true).
Proof.
  split.
  - unfold rows_cover. simpl. lia.
  - apply (getValidMoves_sound start P_player). unfold rows_cover. simpl. lia.
Defined.

(** C5.  On a coordinate whose row exists, when the target cell is occupied
    or the capture set is empty, [playMove] returns false and the service
    (board, current player, every field) is exactly as before. *)
Theorem playMove_failure_atomic (s : GameLogicService) (x y : Z) :
  0 <= x < Z.of_nat (length s.(board)) ->
  (exists p, cell s.(board) x y = Done (Some p) /\ p <> P_none)
  \/ getFlippableDiscs s x y s.(currentPlayer) = Done [] ->
  playMove x y s = (s, Done false).
Proof.
  intros Hx Hfail. apply playMove_invalid. unfold isValidMove.
  destruct (js_nth_in_range s.(board) x Hx) as [rw Hrw].
  unfold cell in *. rewrite Hrw in *. simpl.
  destruct Hfail as [(p & Hp & Hne)|Hempty].
  - injection Hp as ->. simpl. destruct p; simpl; congruence.
  - destruct (same _ P_none); simpl; [|reflexivity].
    now rewrite Hempty.
Qed.

Lemma playMove_failure_atomic_witness :
  0 <= 3 < Z.of_nat (length start.(board))
  /\ playMove 3 3 start = (start, Done false)
  /\ playMove 0 0 start = (start, Done false).
Proof.
  split; [simpl; lia|]. split.
  - apply (playMove_failure_atomic start 3 3); [simpl; lia|].
    left. exists P_player. split; [reflexivity|discriminate].
  - apply (playMove_failure_atomic start 0 0); [simpl; lia|].
    right. reflexivity.
Defined.

(** C10.  When the current player is one of the two sides and [playMove]
    returns true, the number of occupied cells (the two totals of
    [getScores] together) grows by exactly one; every cell that held a
    disc still holds one; a cell that changed is either the target, empty
    before, or a disc of the opponent, and it now holds the mover's disc;
    and the current player becomes the other side. *)
Theorem playMove_success_invariants (s s' : GameLogicService) (x y : Z) :
  s.(currentPlayer) <> P_none ->
  playMove x y s = (s', Done true) ->
  fst (getScores s') + snd (getScores s')
    = fst (getScores s) + snd (getScores s) + 1
  /\ (forall i j p, cell s.(board) i j = Done (Some p) -> p <> P_none ->
        exists p', cell s'.(board) i j = Done (Some p') /\ p' <> P_none)
  /\ (forall i j,
        cell s'.(board) i j = cell s.(board) i j
        \/ (cell s'.(board) i j = Done (Some s.(currentPlayer))
            /\ (cell s.(board) i j
                  = Done (Some (opponent_of s.(currentPlayer)))
                \/ ((i, j) = (x, y)
                    /\ cell s.(board) i j = Done (Some P_none)))))
  /\ s'.(currentPlayer) = opponent_of s.(currentPlayer)
  /\ s'.(currentPlayer) <> s.(currentPlayer)
  /\ s'.(currentPlayer) <> P_none.
Proof.
  intros Hside Hplay.
  pose proof (playMove_true_inv _ _ _ _ Hplay) as Hv.
  destruct (isValidMove_true _ _ _ _ Hv) as (Hcell & _).
  destruct (playMove_valid _ _ _ Hv)
    as (found & b1 & b2 & Hf & Hne & Hrun & Hb2 & Heq).
  rewrite Heq in Hplay. injection Hplay as <-. simpl.
  pose proof (getFlippableDiscs_discs _ _ _ _ _ Hf) as Hdiscs.
  destruct (flip_all_cells found s.(currentPlayer) s)
    as (b1' & Hrun' & Hkeep & Hin & Hout).
  { intros d Hd. eexists. apply (Hdiscs d Hd). }
  assert (b1' = b1) as ->.
  { rewrite Hrun in Hrun'. injection Hrun' as E.
    destruct s; unfold set_board in E; simpl in *. congruence. }
  assert (forall i j, {In (mkDisc i j) found} + {~ In (mkDisc i j) found})
    as Hdec.
  { intros i j. apply in_dec. decide equality; apply Z.eq_dec. }
  split; [|split; [|split; [|split; [|split]]]].
  - rewrite !getScores_occupied. simpl.
    assert (cell b1 x y = Done (Some P_none)) as Hb1.
    { rewrite Hout; [assumption|]. intros Hd.
      pose proof (Hdiscs _ Hd) as E. simpl in E. rewrite Hcell in E.
      injection E as E. symmetry in E. now apply opponent_of_side in E. }
    rewrite (occupied_assign _ _ _ _ _ _ Hb2 Hb1).
    rewrite (flip_all_occupied _ _ _ _ Hrun Hside).
    + destruct (currentPlayer s); simpl; congruence || lia.
    + intros d Hd. exists (opponent_of (currentPlayer s)).
      split; [now apply Hdiscs|apply opponent_of_side].
  - intros i j p Hp Hpn.
    assert (exists q, cell b1 i j = Done (Some q) /\ q <> P_none)
      as (q & Hq & Hqn).
    { destruct (Hdec i j) as [Hi|Hn].
      - exists (currentPlayer s). split; [now apply Hin|assumption].
      - exists p. split; [now rewrite Hout|assumption]. }
    destruct (Z.eq_dec i x) as [->|Hi]; [destruct (Z.eq_dec j y) as [->|Hj]|].
    + exists (currentPlayer s). split; [|assumption].
      eapply cell_assign_eq; eauto.
    + exists q. split; [|assumption].
      erewrite cell_assign_neq; eauto. congruence.
    + exists q. split; [|assumption].
      erewrite cell_assign_neq; eauto. congruence.
  - intros i j.
    assert ((i, j) = (x, y) \/ (i, j) <> (x, y)) as [[= -> ->]|Hxy].
    { destruct (Z.eq_dec i x) as [->|]; [destruct (Z.eq_dec j y) as [->|]|];
        [now left|right; congruence|right; congruence]. }
    + right. split; [eapply cell_assign_eq; eauto|]. right. auto.
    + rewrite (cell_assign_neq _ _ _ _ _ _ _ Hb2 Hxy).
      destruct (Hdec i j) as [Hi|Hn].
      * right. split; [now apply Hin|]. left. apply (Hdiscs _ Hi).
      * left. now apply Hout.
  - reflexivity.
  - unfold opponent_of. destruct (currentPlayer s); simpl; discriminate.
  - apply opponent_of_side.
Qed.

Lemma playMove_success_invariants_witness :
  start.(currentPlayer) <> P_none
  /\ playMove 2 4 start = (fst (playMove 2 4 start), Done true)
  /\ fst (getScores (fst (playMove 2 4 start)))
     + snd (getScores (fst (playMove 2 4 start)))
     = fst (getScores start) + snd (getScores start) + 1.
Proof.
  split; [discriminate|]. split; [reflexivity|].
  apply (playMove_success_invariants start (fst (playMove 2 4 start)) 2 4);
    [discriminate|reflexivity].
Defined.

End LogicClaims.

(* ------------------------------------------------------------------ *)
(** ** GameLogicService: what happens on bad sizes and coordinates *)

Module LogicErrors.
Import Logic LogicFacts PlayFacts.

Lemma js_nth_repeat {A} (a : A) n i :
  0 <= i < Z.of_nat n -> js_nth (repeat a n) i = Some a.
Proof.
  intros Hi. unfold js_nth. destruct (Z.ltb_spec i 0); [lia|].
  apply nth_error_repeat. lia.
Qed.

Lemma cell_blank_grid n x y :
  0 <= x < n -> 0 <= y < n -> cell (blank_grid n) x y = Done (Some P_none).
Proof.
  intros Hx Hy. unfold cell, blank_grid.
  rewrite js_nth_repeat by lia. now rewrite js_nth_repeat by lia.
Qed.

Lemma half_even n : Z.even n = true -> half n = Some (n / 2).
Proof. unfold half. now intros ->. Qed.

Lemma half_odd n : Z.even n = false -> half n = None.
Proof. unfold half. now intros ->. Qed.

(** C8 (counterexample).  Size 2 is below 4, yet [initBoard 2] completes
    normally and leaves a full 2 x 2 board; and on the odd size 3 the call
    stops with a TypeError after [size] and [board] were overwritten: the
    started 8 x 8 game is replaced by an empty 3 x 3 grid. *)
Lemma initBoard_invalid_size_counterexample :
  initBoard 2 fresh
    = (mkService [[P_player; P_ia]; [P_ia; P_player]] 2 P_player [],
       Done tt)
  /\ initBoard 3 start
    = (mkService (blank_grid 3) 3 P_player [], Halt TypeError)
  /\ board start <> blank_grid 3.
Proof. repeat split; try reflexivity. discriminate. Qed.

(** C8 (as the code has it).  [initBoard] validates nothing.  For an even
    size of at least 2 it completes normally: the board is the blank grid
    with the four centre discs, [size] is set, the current player is
    'player' and [lastFlipped] is empty.  For every other integer (odd, zero
    or negative) it stops with a TypeError at the first centre assignment,
    when [size] and [board] already hold the new size and the blank grid
    while [currentPlayer] and [lastFlipped] still hold their old values. *)
Theorem initBoard_outcomes (n : Z) (s : GameLogicService) :
  if Z.even n && (2 <=? n) then
    exists b,
      initBoard n s = (mkService b n P_player [], Done tt)
      /\ cell b (n / 2 - 1) (n / 2 - 1) = Done (Some P_player)
      /\ cell b (n / 2) (n / 2) = Done (Some P_player)
      /\ cell b (n / 2 - 1) (n / 2) = Done (Some P_ia)
      /\ cell b (n / 2) (n / 2 - 1) = Done (Some P_ia)
      /\ forall x y,
           ~ (n / 2 - 1 <= x <= n / 2 /\ n / 2 - 1 <= y <= n / 2) ->
           cell b x y = cell (blank_grid n) x y
  else
    initBoard n s
    = (mkService (blank_grid n) n s.(currentPlayer) s.(lastFlipped),
       Halt TypeError).
Proof.
  destruct (Z.even n) eqn:He; simpl.
  - destruct (Z.leb_spec 2 n) as [Hn|Hn].
    + assert (Z.even (n - 2) = true) as He2.
      { rewrite Z.even_sub, He. reflexivity. }
      assert ((n - 2) / 2 = n / 2 - 1) as Hk.
      { replace (n - 2) with (n + (-1) * 2) by lia.
        rewrite Z.div_add by lia. lia. }
      assert (n = 2 * (n / 2)) as Hn2.
      { pose proof He as He'. apply Z.even_spec in He' as [m Hm].
        assert (n / 2 = m) as ->; [|lia].
        rewrite Hm, Z.mul_comm. apply Z.div_mul. lia. }
      set (k := n / 2) in *.
      unfold initBoard, bind, modify, update_board, set_size, set_board,
        set_currentPlayer, set_lastFlipped. simpl.
      rewrite (half_even _ He), (half_even _ He2), Hk. fold k.
      fold (blank_grid n). unfold assign_num.
      destruct (assign_on_board (blank_grid n) (k - 1) (k - 1) P_player)
        as [b1 H1]; [eexists; apply cell_blank_grid; lia|].
      rewrite H1. simpl.
      assert (forall x y, 0 <= x < n -> 0 <= y < n -> on_board b1 x y)
        as Hon1.
      { intros. eapply assign_keeps_on_board; eauto.
        eexists; apply cell_blank_grid; lia. }
      destruct (assign_on_board b1 k k P_player) as [b2 H2];
        [apply Hon1; lia|].
      rewrite H2. simpl.
      assert (forall x y, 0 <= x < n -> 0 <= y < n -> on_board b2 x y)
        as Hon2.
      { intros. eapply assign_keeps_on_board; eauto. }
      destruct (assign_on_board b2 (k - 1) k P_ia) as [b3 H3];
        [apply Hon2; lia|].
      rewrite H3. simpl.
      assert (forall x y, 0 <= x < n -> 0 <= y < n -> on_board b3 x y)
        as Hon3.
      { intros. eapply assign_keeps_on_board; eauto. }
      destruct (assign_on_board b3 k (k - 1) P_ia) as [b4 H4];
        [apply Hon3; lia|].
      rewrite H4. simpl.
      exists b4. split; [reflexivity|].
      repeat split.
      * rewrite (cell_assign_neq _ _ _ _ _ _ _ H4)
          by (intros [=]; lia).
        rewrite (cell_assign_neq _ _ _ _ _ _ _ H3)
          by (intros [=]; lia).
        rewrite (cell_assign_neq _ _ _ _ _ _ _ H2)
          by (intros [=]; lia).
        eapply cell_assign_eq; eauto.
      * rewrite (cell_assign_neq _ _ _ _ _ _ _ H4)
          by (intros [=]; lia).
        rewrite (cell_assign_neq _ _ _ _ _ _ _ H3)
          by (intros [=]; lia).
        eapply cell_assign_eq; eauto.
      * rewrite (cell_assign_neq _ _ _ _ _ _ _ H4)
          by (intros [=]; lia).
        eapply cell_assign_eq; eauto.
      * eapply cell_assign_eq; eauto.
      * intros x y Hxy.
        rewrite (cell_assign_neq _ _ _ _ _ _ _ H4)
          by (intros [=]; lia).
        rewrite (cell_assign_neq _ _ _ _ _ _ _ H3)
          by (intros [=]; lia).
        rewrite (cell_assign_neq _ _ _ _ _ _ _ H2)
          by (intros [=]; lia).
        rewrite (cell_assign_neq _ _ _ _ _ _ _ H1)
          by (intros [=]; lia).
        reflexivity.
    + assert (Z.even (n - 2) = true) as He2.
      { rewrite Z.even_sub, He. reflexivity. }
      unfold initBoard, bind, modify, update_board, set_size, set_board.
      simpl. rewrite (half_even _ He2). fold (blank_grid n).
      unfold assign_num, assign.
      assert (js_nth (blank_grid n) ((n - 2) / 2) = None) as ->;
        [|reflexivity].
      unfold js_nth.
      destruct (Z.ltb_spec ((n - 2) / 2) 0) as [|Hge]; [reflexivity|].
      exfalso. assert ((n - 2) / 2 < 0); [|lia].
      apply Z.div_lt_upper_bound; lia.
  - assert (Z.even (n - 2) = false) as He2.
    { rewrite Z.even_sub, He. reflexivity. }
    unfold initBoard, bind, modify, update_board, set_size, set_board.
    simpl. rewrite (half_odd _ He2). reflexivity.
Qed.

(** C9 (counterexample).  Column 8 is outside the started 8 x 8 board, yet
    [isValidMove] and [playMove] signal nothing: both return false. *)
Lemma out_of_bounds_counterexample :
  ~ (0 <= 8 < size start)
  /\ isValidMove start 0 8 P_player = Done false
  /\ playMove 0 8 start = (start, Done false).
Proof. repeat split; try reflexivity. simpl. lia. Qed.

(** C9 (as the code has it).  On an N x N service, a coordinate outside
    [0, N) never produces a dedicated out-of-bounds error.  When the row is
    outside, the read of [board[row][col]] raises a TypeError and the
    service is untouched; when the row is inside and only the column is
    outside, [isValidMove] and [playMove] return false and the service is
    untouched. *)
Theorem out_of_range_coordinates
    (s : GameLogicService) (x y : Z) (player : Player) :
  square s ->
  ~ (0 <= x < s.(size) /\ 0 <= y < s.(size)) ->
  (~ 0 <= x < s.(size) ->
     isValidMove s x y player = Halt TypeError
     /\ playMove x y s = (s, Halt TypeError))
  /\ (0 <= x < s.(size) ->
     isValidMove s x y player = Done false
     /\ playMove x y s = (s, Done false)).
Proof.
  intros [Hlen Hrows] Hout. split.
  - intros Hx.
    assert (forall p, isValidMove s x y p = Halt TypeError) as Hv.
    { intros p. unfold isValidMove, cell.
      destruct (js_nth (board s) x) as [rw|] eqn:E; [|reflexivity].
      apply js_nth_Some in E. lia. }
    split; [apply Hv|]. apply playMove_halts, Hv.
  - intros Hx.
    assert (forall p, isValidMove s x y p = Done false) as Hv.
    { intros p. unfold isValidMove, cell.
      destruct (js_nth_in_range (board s) x) as [rw Hrw]; [lia|].
      rewrite Hrw. simpl.
      assert (Z.of_nat (length rw) = size s) as Hl.
      { rewrite Forall_forall in Hrows. apply Hrows.
        apply js_nth_nth_error in Hrw. eapply nth_error_In; eauto. }
      destruct (js_nth rw y) as [v|] eqn:E; [|reflexivity].
      apply js_nth_Some in E. lia. }
    split; [apply Hv|]. apply playMove_invalid, Hv.
Qed.

Lemma start_square : square start.
Proof.
  split; [reflexivity|]. repeat constructor.
Qed.

Lemma out_of_range_coordinates_witness :
  square start
  /\ ~ (0 <= -1 < start.(size) /\ 0 <= 0 < start.(size))
  /\ isValidMove start (-1) 0 P_player = Halt TypeError
  /\ playMove (-1) 0 start = (start, Halt TypeError).
Proof.
  split; [apply start_square|]. split; [simpl; lia|].
  apply (out_of_range_coordinates start (-1) 0 P_player start_square);
    simpl; lia.
Defined.

End LogicErrors.

(* ------------------------------------------------------------------ *)
(** ** Alpha-beta against plain minimax *)

Module Pruning.

Lemma num_max_Fin x y : num_max (Fin x) (Fin y) = Fin (Z.max x y).
Proof.
  unfold num_max, num_leb. destruct (Z.leb_spec x y); f_equal; lia.
Qed.

Lemma num_min_Fin x y : num_min (Fin x) (Fin y) = Fin (Z.min x y).
Proof.
  unfold num_min, num_leb. destruct (Z.leb_spec x y); f_equal; lia.
Qed.

Lemma Fin_inj x y : Fin x = Fin y <-> x = y.
Proof. split; congruence. Qed.

Lemma num_shapes :
  (forall z, NegInf = Fin z <-> False) /\ (forall z, Fin z = NegInf <-> False)
  /\ (forall z, PosInf = Fin z <-> False)
  /\ (forall z, Fin z = PosInf <-> False)
  /\ (NegInf = PosInf <-> False) /\ (PosInf = NegInf <-> False)
  /\ (NegInf = NegInf <-> True) /\ (PosInf = PosInf <-> True).
Proof. repeat split; try discriminate; auto; contradiction. Qed.

Lemma bool_shapes :
  (true = true <-> True) /\ (false = true <-> False)
  /\ (true = false <-> False) /\ (false = false <-> True).
Proof. repeat split; try discriminate; auto; contradiction. Qed.

(** Order facts about [num]: split every variable into its three shapes,
    compute, and leave the integers to [lia]. *)
Ltac num_arith :=
  unfold bracket, num_ltb in *;
  repeat match goal with
         | x : num |- _ =>
             destruct x; cbn [num_leb negb] in *; try discriminate
         end;
  rewrite ?num_max_Fin, ?num_min_Fin in *;
  cbn [num_max num_min num_leb negb] in *;
  rewrite ?num_max_Fin, ?num_min_Fin in *;
  cbn [num_max num_min num_leb negb] in *;
  try discriminate; try reflexivity;
  rewrite ?negb_true_iff, ?negb_false_iff, ?Z.leb_le, ?Z.leb_gt, ?Fin_inj
    in *;
  destruct num_shapes as (?E1 & ?E2 & ?E3 & ?E4 & ?E5 & ?E6 & ?E7 & ?E8);
  destruct bool_shapes as (?B1 & ?B2 & ?B3 & ?B4);
  rewrite ?E1, ?E2, ?E3, ?E4, ?E5, ?E6, ?E7, ?E8, ?B1, ?B2, ?B3, ?B4 in *;
  try tauto; try lia.

Lemma num_leb_refl a : num_leb a a = true.
Proof. num_arith. Qed.

Lemma num_leb_trans a b c :
  num_leb a b = true -> num_leb b c = true -> num_leb a c = true.
Proof. intros; num_arith. Qed.

Lemma num_max_ge_l a b : num_leb a (num_max a b) = true.
Proof. num_arith. Qed.

Lemma num_max_ge_r a b : num_leb b (num_max a b) = true.
Proof. num_arith. Qed.

Lemma num_min_le_l a b : num_leb (num_min a b) a = true.
Proof. num_arith. Qed.

Lemma num_min_le_r a b : num_leb (num_min a b) b = true.
Proof. num_arith. Qed.

Lemma num_max_lub a b c :
  num_leb a c = true -> num_leb b c = true -> num_leb (num_max a b) c = true.
Proof. intros; num_arith. Qed.

Lemma num_min_glb a b c :
  num_leb c a = true -> num_leb c b = true -> num_leb c (num_min a b) = true.
Proof. intros; num_arith. Qed.

Lemma num_max_cases a b :
  (num_leb a b = true /\ num_max a b = b)
  \/ (num_ltb b a = true /\ num_max a b = a).
Proof.
  unfold num_max, num_ltb. destruct (num_leb a b); [left|right]; auto.
Qed.

Lemma num_min_cases a b :
  (num_leb a b = true /\ num_min a b = a)
  \/ (num_ltb b a = true /\ num_min a b = b).
Proof.
  unfold num_min, num_ltb. destruct (num_leb a b); [left|right]; auto.
Qed.

Lemma bracket_exact V alpha beta : bracket V V alpha beta.
Proof. unfold bracket. auto. Qed.

(** *** One step of a maximising loop *)

Lemma max_break alpha beta value s t :
  num_ltb alpha beta = true -> num_leb value alpha = true ->
  bracket s t alpha beta ->
  num_leb beta (num_max alpha (num_max value s)) = true ->
  num_leb beta t = true /\ num_leb beta (num_max value s) = true.
Proof. intros; num_arith. Qed.

Lemma bracket_above w V alpha beta :
  num_ltb alpha beta = true -> num_leb beta V = true ->
  num_leb beta w = true -> bracket w V alpha beta.
Proof. intros; num_arith. Qed.

Lemma max_continue alpha beta value s t :
  num_ltb alpha beta = true -> num_leb value alpha = true ->
  bracket s t alpha beta ->
  num_leb beta (num_max alpha (num_max value s)) = false ->
  num_leb t (num_max alpha (num_max value s)) = true
  /\ (num_leb t alpha = true -> num_leb (num_max value s) alpha = true)
  /\ (num_ltb alpha (num_max value s) = true ->
      num_leb (num_max value s) t = true).
Proof. intros; num_arith. Qed.

Lemma max_widen alpha beta w V v :
  bracket v V (num_max alpha w) beta ->
  num_leb w v = true ->
  (num_leb V alpha = true -> num_leb w alpha = true) ->
  (num_ltb alpha w = true -> num_leb w V = true) ->
  bracket v V alpha beta.
Proof.
  intros Hb Hwv H1 H2.
  destruct (num_max_cases alpha w) as [[Hc E]|[Hc E]]; rewrite E in Hb.
  - clear E. num_arith.
  - exact Hb.
Qed.

(** *** One step of a minimising loop *)

Lemma min_break alpha beta value s t :
  num_ltb alpha beta = true -> num_leb beta value = true ->
  bracket s t alpha beta ->
  num_leb (num_min beta (num_min value s)) alpha = true ->
  num_leb t alpha = true /\ num_leb (num_min value s) alpha = true.
Proof. intros; num_arith. Qed.

Lemma bracket_below w V alpha beta :
  num_ltb alpha beta = true -> num_leb V alpha = true ->
  num_leb w alpha = true -> bracket w V alpha beta.
Proof. intros; num_arith. Qed.

Lemma min_continue alpha beta value s t :
  num_ltb alpha beta = true -> num_leb beta value = true ->
  bracket s t alpha beta ->
  num_leb (num_min beta (num_min value s)) alpha = false ->
  num_leb (num_min beta (num_min value s)) t = true
  /\ (num_leb beta t = true -> num_leb beta (num_min value s) = true)
  /\ (num_ltb (num_min value s) beta = true ->
      num_leb t (num_min value s) = true).
Proof. intros; num_arith. Qed.

Lemma min_widen alpha beta w V v :
  bracket v V alpha (num_min beta w) ->
  num_leb v w = true ->
  (num_leb beta V = true -> num_leb beta w = true) ->
  (num_ltb w beta = true -> num_leb V w = true) ->
  bracket v V alpha beta.
Proof.
  intros Hb Hwv H1 H2.
  destruct (num_min_cases beta w) as [[Hc E]|[Hc E]]; rewrite E in Hb.
  - exact Hb.
  - clear E. num_arith.
Qed.

(** *** One step of the root loop *)

Lemma root_step best s z :
  num_ltb best PosInf = true ->
  bracket s (Fin z) best PosInf ->
  num_ltb best s = num_ltb best (Fin z)
  /\ (num_ltb best (Fin z) = true -> s = Fin z)
  /\ num_max best (if num_ltb best (Fin z) then Fin z else best)
     = (if num_ltb best (Fin z) then Fin z else best)
  /\ num_ltb (if num_ltb best (Fin z) then Fin z else best) PosInf = true.
Proof.
  intros. destruct (num_ltb best (Fin z)) eqn:E; num_arith.
Qed.

End Pruning.

(* ------------------------------------------------------------------ *)
(** ** Alpha-beta against plain minimax: loops and recursion *)

Module PruningLoops.
Import Pruning.

Section Loops.
Variable search : Board -> num -> num -> outcome num.
Variable plain : Board -> outcome num.
Variable board : Board.
Variable toMove : Player.

Hypothesis search_brackets :
  forall child a b V,
    num_ltb a b = true -> plain child = Done V ->
    exists v, search child a b = Done v /\ bracket v V a b.

Lemma max_all_ge moves P V :
  Plain.max_all plain board toMove moves P = Done V -> num_leb P V = true.
Proof.
  revert P. induction moves as [|m rest IH]; intros P; simpl.
  - intros [= <-]. apply num_leb_refl.
  - intros H. inv_bind H. inv_bind H. apply IH in H.
    eapply num_leb_trans; [apply num_max_ge_l|exact H].
Qed.

Lemma min_all_le moves P V :
  Plain.min_all plain board toMove moves P = Done V -> num_leb V P = true.
Proof.
  revert P. induction moves as [|m rest IH]; intros P; simpl.
  - intros [= <-]. apply num_leb_refl.
  - intros H. inv_bind H. inv_bind H. apply IH in H.
    eapply num_leb_trans; [exact H|apply num_min_le_l].
Qed.

Lemma max_loop_brackets moves beta :
  forall value alpha P V,
    num_ltb alpha beta = true ->
    num_leb value alpha = true ->
    num_leb P alpha = true ->
    Plain.max_all plain board toMove moves P = Done V ->
    exists v,
      AI.max_loop search board toMove moves value alpha beta = Done v
      /\ bracket v V alpha beta
      /\ num_leb value v = true.
Proof.
  induction moves as [|m rest IH]; intros value alpha P V Hab Hva HPa; simpl.
  - intros [= <-]. exists value. split; [reflexivity|].
    split; [|apply num_leb_refl]. apply bracket_below; auto.
  - intros H. apply obind_Done in H as (child & Hchild & H).
    apply obind_Done in H as (t & Ht & H).
    rewrite Hchild. simpl.
    destruct (search_brackets child alpha beta t Hab Ht) as (s & Hs & Hst).
    rewrite Hs. simpl.
    pose proof (max_all_ge _ _ _ H) as HPV.
    assert (num_leb t V = true) as HtV
      by (eapply num_leb_trans; [apply num_max_ge_r|exact HPV]).
    destruct (num_leb beta (num_max alpha (num_max value s))) eqn:Hbrk.
    + exists (num_max value s).
      destruct (max_break _ _ _ _ _ Hab Hva Hst Hbrk) as [Hbt Hbw].
      split; [reflexivity|]. split; [|apply num_max_ge_l].
      apply bracket_above;
        [assumption|exact (num_leb_trans _ _ _ Hbt HtV)|assumption].
    + destruct (max_continue _ _ _ _ _ Hab Hva Hst Hbrk)
        as (Hta & Hlow & Hhigh).
      destruct (IH (num_max value s) (num_max alpha (num_max value s))
                  (num_max P t) V) as (v & Hv & Hbr & Hge); auto.
      * unfold num_ltb. now rewrite Hbrk.
      * apply num_max_ge_r.
      * apply num_max_lub; [|assumption].
        eapply num_leb_trans; [exact HPa|apply num_max_ge_l].
      * exists v. split; [exact Hv|]. split.
        -- apply (max_widen alpha beta (num_max value s) V v Hbr Hge).
           ++ intros HVa. apply Hlow. exact (num_leb_trans _ _ _ HtV HVa).
           ++ intros Haw. exact (num_leb_trans _ _ _ (Hhigh Haw) HtV).
        -- eapply num_leb_trans; [apply num_max_ge_l|exact Hge].
Qed.

Lemma min_loop_brackets moves alpha :
  forall value beta P V,
    num_ltb alpha beta = true ->
    num_leb beta value = true ->
    num_leb beta P = true ->
    Plain.min_all plain board toMove moves P = Done V ->
    exists v,
      AI.min_loop search board toMove moves value alpha beta = Done v
      /\ bracket v V alpha beta
      /\ num_leb v value = true.
Proof.
  induction moves as [|m rest IH]; intros value beta P V Hab Hva HPa; simpl.
  - intros [= <-]. exists value. split; [reflexivity|].
    split; [|apply num_leb_refl]. apply bracket_above; auto.
  - intros H. apply obind_Done in H as (child & Hchild & H).
    apply obind_Done in H as (t & Ht & H).
    rewrite Hchild. simpl.
    destruct (search_brackets child alpha beta t Hab Ht) as (s & Hs & Hst).
    rewrite Hs. simpl.
    pose proof (min_all_le _ _ _ H) as HPV.
    assert (num_leb V t = true) as HtV
      by (eapply num_leb_trans; [exact HPV|apply num_min_le_r]).
    destruct (num_leb (num_min beta (num_min value s)) alpha) eqn:Hbrk.
    + exists (num_min value s).
      destruct (min_break _ _ _ _ _ Hab Hva Hst Hbrk) as [Hbt Hbw].
      split; [reflexivity|]. split; [|apply num_min_le_l].
      apply bracket_below;
        [assumption|exact (num_leb_trans _ _ _ HtV Hbt)|assumption].
    + destruct (min_continue _ _ _ _ _ Hab Hva Hst Hbrk)
        as (Hta & Hlow & Hhigh).
      destruct (IH (num_min value s) (num_min beta (num_min value s))
                  (num_min P t) V) as (v & Hv & Hbr & Hge); auto.
      * unfold num_ltb. now rewrite Hbrk.
      * apply num_min_le_r.
      * apply num_min_glb; [|assumption].
        eapply num_leb_trans; [apply num_min_le_l|exact HPa].
      * exists v. split; [exact Hv|]. split.
        -- apply (min_widen alpha beta (num_min value s) V v Hbr Hge).
           ++ intros HVa. apply Hlow. exact (num_leb_trans _ _ _ HVa HtV).
           ++ intros Haw. exact (num_leb_trans _ _ _ HtV (Hhigh Haw)).
        -- eapply num_leb_trans; [exact Hge|apply num_min_le_l].
Qed.

Hypothesis plain_finite :
  forall child V, plain child = Done V -> exists z, V = Fin z.

Lemma decision_loop_same moves :
  forall best bestMove chosen,
    num_ltb best PosInf = true ->
    Plain.decision_all plain board toMove moves best bestMove
      = Done chosen ->
    AI.decision_loop search board toMove moves best bestMove best PosInf
      = Done chosen.
Proof.
  induction moves as [|m rest IH]; intros best bestMove chosen Hfin; simpl.
  - auto.
  - intros H. apply obind_Done in H as (child & Hchild & H).
    apply obind_Done in H as (t & Ht & H).
    rewrite Hchild. simpl.
    destruct (search_brackets child best PosInf t Hfin Ht) as (s & Hs & Hst).
    rewrite Hs. simpl.
    destruct (plain_finite _ _ Ht) as [z ->].
    destruct (root_step _ _ _ Hfin Hst) as (Hsame & Hval & Hmax & Hlt).
    rewrite Hsame.
    assert ((if num_ltb best (Fin z) then s else best)
            = (if num_ltb best (Fin z) then Fin z else best)) as ->.
    { destruct (num_ltb best (Fin z)); auto. }
    rewrite Hmax.
    assert (num_leb PosInf (if num_ltb best (Fin z) then Fin z else best)
            = false) as Hgo by (apply negb_true_iff; exact Hlt).
    simpl in Hgo. rewrite Hgo. apply IH; auto.
Qed.

End Loops.

(** A plain value is an integer: it is a leaf's evaluation. *)
Lemma max_all_finite plain board toMove moves P V :
  (forall child W, plain child = Done W -> exists z, W = Fin z) ->
  Plain.max_all plain board toMove moves P = Done V ->
  P <> PosInf ->
  (moves <> [] \/ exists z, P = Fin z) ->
  exists z, V = Fin z.
Proof.
  intros Hp. revert P. induction moves as [|m rest IH]; intros P; simpl.
  - intros [= <-] _ [[]|]; auto.
  - intros H HP _. inv_bind H. inv_bind H.
    destruct (Hp _ _ Ha0) as [z ->].
    assert (exists z', num_max P (Fin z) = Fin z') as [z' Hz'].
    { destruct P; [exists z|exists (Z.max z0 z)|congruence];
        [reflexivity|apply num_max_Fin]. }
    rewrite Hz' in H. eapply IH; eauto. discriminate.
Qed.

Lemma min_all_finite plain board toMove moves P V :
  (forall child W, plain child = Done W -> exists z, W = Fin z) ->
  Plain.min_all plain board toMove moves P = Done V ->
  P <> NegInf ->
  (moves <> [] \/ exists z, P = Fin z) ->
  exists z, V = Fin z.
Proof.
  intros Hp. revert P. induction moves as [|m rest IH]; intros P; simpl.
  - intros [= <-] _ [[]|]; auto.
  - intros H HP _. inv_bind H. inv_bind H.
    destruct (Hp _ _ Ha0) as [z ->].
    assert (exists z', num_min P (Fin z) = Fin z') as [z' Hz'].
    { destruct P; [congruence|exists (Z.min z0 z)|exists z];
        [apply num_min_Fin|reflexivity]. }
    rewrite Hz' in H. eapply IH; eauto. discriminate.
Qed.

Lemma length_eqb_false {A} (l : list A) :
  (length l =? 0)%nat = false -> l <> [].
Proof. destruct l; [discriminate|discriminate]. Qed.

Lemma plain_minimax_finite fuel :
  forall board depth rootPlayer toMove V,
    Plain.minimax fuel board depth rootPlayer toMove = Done V ->
    exists z, V = Fin z.
Proof.
  induction fuel as [|f IH]; intros board depth rootPlayer toMove V;
    simpl; [discriminate|].
  intros H. apply obind_Done in H as (leaf & _ & H).
  destruct leaf.
  { inv_bind H. injection H as <-. eauto. }
  apply obind_Done in H as (moves & _ & H).
  destruct (length moves =? 0)%nat eqn:Hm.
  - apply obind_Done in H as (theirs & _ & H).
    destruct (length theirs =? 0)%nat.
    + inv_bind H. injection H as <-. eauto.
    + eapply IH; eauto.
  - apply length_eqb_false in Hm.
    destruct (Player_eqb toMove rootPlayer).
    + eapply max_all_finite; eauto; [|discriminate].
      intros child W. apply IH.
    + eapply min_all_finite; eauto; [|discriminate].
      intros child W. apply IH.
Qed.

(** The search with window [(alpha, beta)] against the plain value. *)
Lemma minimax_brackets fuel :
  forall board depth alpha beta rootPlayer toMove V,
    num_ltb alpha beta = true ->
    Plain.minimax fuel board depth rootPlayer toMove = Done V ->
    exists v,
      AI.minimax fuel board depth alpha beta rootPlayer toMove = Done v
      /\ bracket v V alpha beta.
Proof.
  induction fuel as [|f IH];
    intros board depth alpha beta rootPlayer toMove V Hab;
    simpl; [discriminate|].
  intros H. apply obind_Done in H as (leaf & Hleaf & H).
  rewrite Hleaf. simpl. destruct leaf.
  { exists V. split; [exact H|apply bracket_exact]. }
  apply obind_Done in H as (moves & Hmoves & H).
  rewrite Hmoves. simpl.
  destruct (length moves =? 0)%nat eqn:Hm.
  - apply obind_Done in H as (theirs & Htheirs & H).
    rewrite Htheirs. simpl.
    destruct (length theirs =? 0)%nat.
    + exists V. split; [exact H|apply bracket_exact].
    + apply IH; auto.
  - pose proof (fun child a b W Hw Hp =>
                  IH child (depth - 1) a b rootPlayer (AI.opponent toMove)
                     W Hw Hp) as Hrec.
    destruct (Player_eqb toMove rootPlayer).
    + destruct (max_loop_brackets _ _ board toMove Hrec moves beta
                  NegInf alpha NegInf V Hab eq_refl eq_refl H)
        as (v & Hv & Hbr & _).
      exists v; auto.
    + assert (num_leb beta PosInf = true) as Hb
        by (destruct beta; reflexivity).
      destruct (min_loop_brackets _ _ board toMove Hrec moves alpha
                  PosInf beta PosInf V Hab Hb Hb H)
        as (v & Hv & Hbr & _).
      exists v; auto.
Qed.

(** Whenever the plain decision returns, the pruned decision returns the
    same move. *)
Lemma minimaxDecision_same board player depth chosen :
  Plain.minimaxDecision board player depth = Done chosen ->
  AI.minimaxDecision board player depth = Done chosen.
Proof.
  unfold Plain.minimaxDecision, AI.minimaxDecision. intros H.
  apply obind_Done in H as (moves & Hmoves & H). rewrite Hmoves. simpl.
  destruct (length moves =? 0)%nat; [exact H|].
  apply (decision_loop_same _
           (fun child =>
              Plain.minimax (AI.fuel_for (depth - 1)) child (depth - 1)
                            player (AI.opponent player))
           board player
           (fun child a b V Hab Hp =>
              minimax_brackets (AI.fuel_for (depth - 1)) child (depth - 1)
                               a b player (AI.opponent player) V Hab Hp)
           (fun child V Hp =>
              plain_minimax_finite (AI.fuel_for (depth - 1)) child
                                   (depth - 1) player (AI.opponent player)
                                   V Hp)
           moves NegInf None chosen eq_refl H).
Qed.

End PruningLoops.

(* ------------------------------------------------------------------ *)
(** ** GameAIService: the board helpers never stop abnormally *)

Module AIFacts.
Import LogicFacts PlayFacts.

Lemma as_service_covers board : rows_cover (as_service board).
Proof. unfold rows_cover. simpl. lia. Qed.

Lemma walk_eq board opp player dx dy fuel x y temp :
  AI.walk board opp player dx dy fuel x y temp
  = Logic.walk (as_service board) opp player dx dy fuel x y temp.
Proof.
  revert x y temp. induction fuel as [|f IH]; intros x y temp; simpl.
  - reflexivity.
  - change (Logic.inBounds (as_service board) x y)
      with (AI.inBounds board x y).
    destruct (AI.inBounds board x y); [|reflexivity].
    destruct (cell board x y) as [v|h]; simpl; [|reflexivity].
    destruct (same v opp); [apply IH|].
    destruct (same v player); [|reflexivity].
    destruct temp; reflexivity.
Qed.

Lemma each_direction_eq board opp player x y dirs res :
  AI.each_direction board opp player x y dirs res
  = Logic.each_direction (as_service board) opp player x y dirs res.
Proof.
  revert res. induction dirs as [|[dx dy] rest IH]; intros res; simpl.
  - reflexivity.
  - rewrite walk_eq, Nat2Z.id.
    destruct (Logic.walk _ _ _ _ _ _ _ _ _); simpl; [apply IH|reflexivity].
Qed.

Lemma getFlippableDiscs_eq board x y player :
  cell board x y = Done (Some P_none) ->
  AI.getFlippableDiscs board x y player
  = Logic.getFlippableDiscs (as_service board) x y player.
Proof.
  intros Hc. unfold AI.getFlippableDiscs, Logic.getFlippableDiscs.
  rewrite Hc. cbn [obind same Player_eqb negb]. apply each_direction_eq.
Qed.

Lemma valid_eq board x y player :
  (v <- cell board x y ;;
   if same v P_none then
     found <- AI.getFlippableDiscs board x y player ;;
     Done (0 <? Z.of_nat (length found))
   else Done false)
  = Logic.isValidMove (as_service board) x y player.
Proof.
  unfold Logic.isValidMove. simpl.
  destruct (cell board x y) as [v|h] eqn:Hc; simpl; [|reflexivity].
  destruct (same v P_none) eqn:Hs; simpl; [|reflexivity].
  apply same_true in Hs. subst v.
  now rewrite getFlippableDiscs_eq.
Qed.

Lemma scan_cols_eq board player x cols moves :
  AI.scan_cols board player x cols moves
  = Logic.scan_cols (as_service board) player x cols moves.
Proof.
  revert moves. induction cols as [|y rest IH]; intros moves; simpl.
  - reflexivity.
  - rewrite <- valid_eq.
    destruct (cell board x y) as [v|h]; simpl; [|reflexivity].
    destruct (same v P_none); simpl.
    + destruct (AI.getFlippableDiscs board x y player); simpl;
        [apply IH|reflexivity].
    + apply IH.
Qed.

Lemma scan_rows_eq board player rows moves :
  AI.scan_rows board player rows moves
  = Logic.scan_rows (as_service board) player rows moves.
Proof.
  revert moves. induction rows as [|x rest IH]; intros moves.
  - reflexivity.
  - cbn [AI.scan_rows Logic.scan_rows]. rewrite scan_cols_eq.
    change (Logic.size (as_service board)) with (Z.of_nat (length board)).
    destruct (Logic.scan_cols _ _ _ _ _); cbn [obind];
      [apply IH|reflexivity].
Qed.

Lemma getValidMoves_eq board player :
  AI.getValidMoves board player
  = Logic.getValidMoves (as_service board) player.
Proof. apply scan_rows_eq. Qed.

Lemma ai_getValidMoves_total board player :
  exists moves, AI.getValidMoves board player = Done moves.
Proof.
  rewrite getValidMoves_eq.
  apply PlayFacts.getValidMoves_total, as_service_covers.
Qed.

(** A move of [getValidMoves] names an empty cell, and what it captures
    are cells of the board. *)
Lemma getValidMoves_valid board player moves m :
  AI.getValidMoves board player = Done moves -> In m moves ->
  cell board m.(row) m.(col) = Done (Some P_none)
  /\ exists found,
       AI.getFlippableDiscs board m.(row) m.(col) player = Done found
       /\ found <> []
       /\ forall d, In d found ->
            cell board d.(r) d.(c) = Done (Some (AI.opponent player)).
Proof.
  rewrite getValidMoves_eq. intros Hm Hin.
  destruct (scan_rows_valid _ _ _ _ _ Hm m Hin) as [[]|Hv].
  destruct (isValidMove_true _ _ _ _ Hv) as (Hcell & found & Hf & Hne).
  simpl in Hcell. split; [assumption|].
  exists found. rewrite getFlippableDiscs_eq by assumption.
  repeat split; auto.
  apply (getFlippableDiscs_discs _ _ _ _ _ Hf).
Qed.

Lemma flip_all_ok next flips player :
  (forall d, In d flips -> on_board next d.(r) d.(c)) ->
  exists next',
    AI.flip_all next flips player = Done next'
    /\ length next' = length next
    /\ forall x y, on_board next x y -> on_board next' x y.
Proof.
  revert next. induction flips as [|f rest IH]; intros next Hon; simpl.
  - exists next. auto.
  - destruct (assign_on_board next f.(r) f.(c) player) as [n1 Hn1];
      [apply Hon; now left|].
    rewrite Hn1. simpl.
    destruct (IH n1) as (n2 & Hrun & Hlen & Hkeep).
    { intros d Hd. eapply assign_keeps_on_board; eauto.
      apply Hon. now right. }
    exists n2. split; [assumption|]. split.
    + rewrite Hlen. eapply assign_length; eauto.
    + intros x y Hxy. apply Hkeep.
      eapply assign_keeps_on_board; eauto.
Qed.

Lemma applyMove_valid board player moves m :
  AI.getValidMoves board player = Done moves -> In m moves ->
  exists child,
    AI.applyMove board m.(row) m.(col) player = Done child
    /\ length child = length board.
Proof.
  intros Hm Hin.
  destruct (getValidMoves_valid _ _ _ _ Hm Hin)
    as (Hcell & found & Hf & _ & Hd).
  unfold AI.applyMove. rewrite Hf. simpl. rewrite map_id.
  destruct (flip_all_ok board found player) as (n1 & Hrun & Hlen & Hkeep).
  { intros d Hin'. eexists. apply (Hd d Hin'). }
  rewrite Hrun. simpl.
  destruct (assign_on_board n1 m.(row) m.(col) player) as [child Hc].
  { apply Hkeep. now exists P_none. }
  exists child. split; [assumption|].
  rewrite <- Hlen. eapply assign_length; eauto.
Qed.

Lemma isTerminal_total board : exists t, AI.isTerminal board = Done t.
Proof.
  unfold AI.isTerminal.
  destruct (ai_getValidMoves_total board P_player) as [a ->]. simpl.
  destruct (negb _); eauto.
  destruct (ai_getValidMoves_total board P_ia) as [b ->]. simpl. eauto.
Qed.

(** A board with fewer than two rows has no move at all. *)
Lemma getValidMoves_small board player :
  (length board < 2)%nat -> AI.getValidMoves board player = Done [].
Proof.
  destruct board as [|rw [|rw' rest]]; simpl; intros Hl; try lia.
  - reflexivity.
  - destruct rw as [|[]]; destruct player; reflexivity.
Qed.

Lemma count_cells_total board root opp cells k :
  (forall x y, In (x, y) cells -> 0 <= x < Z.of_nat (length board)) ->
  exists k', AI.count_cells board root opp cells k = Done k'.
Proof.
  revert k. induction cells as [|[x y] rest IH]; intros k Hin; simpl; eauto.
  destruct (js_nth_in_range board x) as [rw Hrw]; [apply (Hin x y); now left|].
  unfold cell. rewrite Hrw. simpl. apply IH.
  intros; eapply Hin; right; eauto.
Qed.

Lemma weigh_total board root opp w cells acc :
  (forall x y, In (x, y) cells -> 0 <= x < Z.of_nat (length board)) ->
  exists acc', AI.weigh board root opp w cells acc = Done acc'.
Proof.
  revert acc. induction cells as [|[x y] rest IH]; intros acc Hin; simpl;
    eauto.
  destruct (js_nth_in_range board x) as [rw Hrw]; [apply (Hin x y); now left|].
  unfold cell. rewrite Hrw. simpl. apply IH.
  intros; eapply Hin; right; eauto.
Qed.

Lemma all_cells_In n x y :
  In (x, y) (AI.all_cells n) <-> 0 <= x < n /\ 0 <= y < n.
Proof.
  unfold AI.all_cells. rewrite in_flat_map. split.
  - intros (x' & Hx & Hin). apply in_map_iff in Hin as (y' & [= <- <-] & Hy).
    apply upto_In in Hx, Hy. lia.
  - intros [Hx Hy]. exists x. split; [now apply upto_In|].
    apply in_map_iff. exists y. split; [reflexivity|now apply upto_In].
Qed.

Lemma inner_In n i : In i (AI.inner n) <-> 1 <= i <= n - 2.
Proof.
  unfold AI.inner. rewrite in_map_iff. split.
  - intros (k & <- & Hk). apply in_seq in Hk. lia.
  - intros Hi. exists (Z.to_nat i). split; [lia|]. apply in_seq. lia.
Qed.

Lemma edge_cells_rows n x y :
  In (x, y) (AI.edge_cells n) -> 0 <= x < n.
Proof.
  unfold AI.edge_cells. rewrite in_flat_map.
  intros (i & Hi & Hin). apply inner_In in Hi. simpl in Hin.
  repeat (destruct Hin as [[= <- <-]|Hin]; [lia|]). contradiction.
Qed.

Lemma evaluate_total board root :
  (2 <= length board)%nat -> exists v, AI.evaluate board root = Done v.
Proof.
  intros Hn. unfold AI.evaluate.
  destruct (count_cells_total board root (AI.opponent root)
              (AI.all_cells (Z.of_nat (length board))) (AI.mkCounts 0 0 0))
    as [k ->]; [intros x y Hin; now apply all_cells_In in Hin|].
  cbn [obind].
  destruct (ai_getValidMoves_total board root) as [mine ->]. cbn [obind].
  destruct (ai_getValidMoves_total board (AI.opponent root)) as [theirs ->].
  cbn [obind].
  destruct (weigh_total board root (AI.opponent root) 30
              (AI.cornerCoords (Z.of_nat (length board))) 0) as [cs ->].
  { intros x y Hin. unfold AI.cornerCoords, AI.xs in Hin. simpl in Hin.
    repeat (destruct Hin as [[= <- <-]|Hin]; [lia|]). contradiction. }
  cbn [obind].
  destruct (weigh_total board root (AI.opponent root) 4
              (AI.edge_cells (Z.of_nat (length board))) 0) as [es ->].
  { intros x y Hin. now apply edge_cells_rows in Hin. }
  cbn [obind].
  destruct (weigh_total board root (AI.opponent root) (-8)
              (AI.xs (Z.of_nat (length board))) 0) as [xp ->].
  { intros x y Hin. unfold AI.cornerCoords, AI.xs in Hin. simpl in Hin.
    repeat (destruct Hin as [[= <- <-]|Hin]; [lia|]). contradiction. }
  cbn [obind]. eauto.
Qed.

End AIFacts.

(* ------------------------------------------------------------------ *)
(** ** The search returns: fuel and intermediate boards *)

Module SearchTotal.
Import AIFacts PruningLoops.

Section AllLoops.
Variable search : Board -> outcome num.
Variable board : Board.
Variable toMove : Player.

Lemma max_all_total moves P :
  (forall m, In m moves ->
     exists child,
       AI.applyMove board m.(row) m.(col) toMove = Done child
       /\ exists V, search child = Done V) ->
  exists V, Plain.max_all search board toMove moves P = Done V.
Proof.
  revert P. induction moves as [|m rest IH]; intros P Hm; simpl; eauto.
  destruct (Hm m (or_introl eq_refl)) as (child & -> & V & HV). simpl.
  rewrite HV. simpl. apply IH. intros; apply Hm; now right.
Qed.

Lemma min_all_total moves P :
  (forall m, In m moves ->
     exists child,
       AI.applyMove board m.(row) m.(col) toMove = Done child
       /\ exists V, search child = Done V) ->
  exists V, Plain.min_all search board toMove moves P = Done V.
Proof.
  revert P. induction moves as [|m rest IH]; intros P Hm; simpl; eauto.
  destruct (Hm m (or_introl eq_refl)) as (child & -> & V & HV). simpl.
  rewrite HV. simpl. apply IH. intros; apply Hm; now right.
Qed.

Lemma decision_all_total moves best bestMove :
  (forall m, In m moves ->
     exists child,
       AI.applyMove board m.(row) m.(col) toMove = Done child
       /\ exists V, search child = Done V) ->
  exists chosen,
    Plain.decision_all search board toMove moves best bestMove = Done chosen.
Proof.
  revert best bestMove.
  induction moves as [|m rest IH]; intros best bestMove Hm; simpl; eauto.
  destruct (Hm m (or_introl eq_refl)) as (child & -> & V & HV). simpl.
  rewrite HV. simpl. apply IH. intros; apply Hm; now right.
Qed.

(** Once a move is held, or the first score is still to come, the plain
    decision ends with a move. *)
Lemma decision_all_some moves best bestMove chosen :
  (forall child V, search child = Done V -> exists z, V = Fin z) ->
  Plain.decision_all search board toMove moves best bestMove = Done chosen ->
  bestMove <> None \/ (moves <> [] /\ best = NegInf) ->
  chosen <> None.
Proof.
  intros Hfin. revert best bestMove.
  induction moves as [|m rest IH]; intros best bestMove; simpl.
  - intros [= <-] [H|[H _]]; [exact H|now contradiction H].
  - intros H Hcase. inv_bind H. inv_bind H.
    destruct (Hfin _ _ Ha0) as [z ->].
    eapply IH; [exact H|]. left.
    destruct Hcase as [Hb|[_ ->]].
    + destruct (num_ltb best (Fin z)); [discriminate|assumption].
    + simpl. discriminate.
Qed.

End AllLoops.

Lemma plain_minimax_total fuel :
  forall board depth rootPlayer toMove,
    (2 <= length board)%nat -> 0 <= depth ->
    (2 * depth + 1 <= Z.of_nat fuel
     \/ (has_moves board toMove /\ 2 * depth <= Z.of_nat fuel
         /\ 1 <= depth)) ->
    exists V, Plain.minimax fuel board depth rootPlayer toMove = Done V.
Proof.
  induction fuel as [|f IH]; intros board depth rootPlayer toMove Hn Hd Hf.
  { lia. }
  cbn [Plain.minimax].
  assert (exists v, AI.evaluate board rootPlayer = Done v) as [e He]
    by now apply evaluate_total.
  destruct (Z.eqb_spec depth 0) as [->|Hd0].
  { cbn [obind]. rewrite He. simpl. eauto. }
  destruct (isTerminal_total board) as [t ->]. cbn [obind].
  destruct t. { rewrite He. simpl. eauto. }
  destruct (ai_getValidMoves_total board toMove) as [moves Hmoves].
  rewrite Hmoves. cbn [obind].
  destruct moves as [|m ms].
  - cbn [length Nat.eqb].
    destruct (ai_getValidMoves_total board (AI.opponent toMove))
      as [theirs Htheirs].
    rewrite Htheirs. cbn [obind].
    destruct theirs as [|m' ms']; cbn [length Nat.eqb].
    + rewrite He. simpl. eauto.
    + apply IH; auto. right. split; [now exists m', ms'|].
      destruct Hf as [Hf|[(m0 & ms0 & Hm0) _]]; [lia|congruence].
  - cbn [length Nat.eqb].
    assert (forall m', In m' (m :: ms) ->
              exists child,
                AI.applyMove board m'.(row) m'.(col) toMove = Done child
                /\ exists V,
                     Plain.minimax f child (depth - 1) rootPlayer
                                   (AI.opponent toMove) = Done V) as Hkids.
    { intros m' Hin.
      destruct (applyMove_valid _ _ _ _ Hmoves Hin) as (child & Hc & Hl).
      exists child. split; [assumption|].
      apply IH; [lia|lia|]. left. lia. }
    destruct (Player_eqb toMove rootPlayer).
    + now apply max_all_total.
    + now apply min_all_total.
Qed.

Lemma plain_decision_total board player depth :
  1 <= depth ->
  exists chosen,
    Plain.minimaxDecision board player depth = Done chosen
    /\ (has_moves board player -> chosen <> None).
Proof.
  intros Hd. unfold Plain.minimaxDecision.
  destruct (ai_getValidMoves_total board player) as [moves Hmoves].
  rewrite Hmoves. cbn [obind].
  destruct moves as [|m ms]; cbn [length Nat.eqb].
  { exists None. split; [reflexivity|].
    intros (m & ms & H). congruence. }
  assert (2 <= length board)%nat as Hn.
  { destruct (le_lt_dec 2 (length board)) as [|Hlt]; [assumption|].
    rewrite (getValidMoves_small board player Hlt) in Hmoves.
    discriminate. }
  destruct (decision_all_total
              (fun child =>
                 Plain.minimax (AI.fuel_for (depth - 1)) child (depth - 1)
                               player (AI.opponent player))
              board player (m :: ms) NegInf None) as [chosen Hch].
  { intros m' Hin.
    destruct (applyMove_valid _ _ _ _ Hmoves Hin) as (child & Hc & Hl).
    exists child. split; [assumption|].
    apply plain_minimax_total; [lia|lia|]. left.
    unfold AI.fuel_for. lia. }
  exists chosen. split; [assumption|]. intros _.
  eapply decision_all_some; [|exact Hch|].
  - intros child V. apply plain_minimax_finite.
  - right. split; [discriminate|reflexivity].
Qed.

End SearchTotal.

(* ------------------------------------------------------------------ *)
(** ** GameAIService: the claims about the search *)

Module SearchClaims.
Import AIFacts PruningLoops SearchTotal.

(** C2.  For every board, every root player and every search depth of at
    least 1, plain minimax (no pruning, same move order, same
    strictly-greater first-seen choice) returns a choice, and
    [minimaxDecision] with its alpha/beta window returns that same
    choice. *)
Theorem pruning_keeps_the_move (board : Board) (player : Player) (depth : Z) :
  1 <= depth ->
  exists chosen,
    Plain.minimaxDecision board player depth = Done chosen
    /\ AI.minimaxDecision board player depth = Done chosen.
Proof.
  intros Hd.
  destruct (plain_decision_total board player depth Hd) as (chosen & H & _).
  exists chosen. split; [assumption|].
  now apply minimaxDecision_same.
Qed.

Lemma pruning_keeps_the_move_witness :
  1 <= 3
  /\ exists chosen,
       Plain.minimaxDecision Logic.start.(Logic.board) P_ia 3 = Done chosen
       /\ AI.minimaxDecision Logic.start.(Logic.board) P_ia 3 = Done chosen.
Proof.
  split; [lia|].
  apply (pruning_keeps_the_move Logic.start.(Logic.board) P_ia 3). lia.
Defined.

(** A board where one side has a move is not terminal. *)
Lemma isTerminal_pass board toMove theirs :
  AI.getValidMoves board toMove = Done [] ->
  AI.getValidMoves board (AI.opponent toMove) = Done theirs ->
  theirs <> [] ->
  AI.isTerminal board = Done false.
Proof.
  intros Hmine Htheirs Hne. unfold AI.isTerminal, AI.opponent in *.
  assert ((length theirs =? 0)%nat = false) as Hlen
    by (destruct theirs; [congruence|reflexivity]).
  destruct toMove; cbn [Player_eqb] in Htheirs.
  - rewrite Hmine. cbn [obind length Nat.eqb negb].
    rewrite Htheirs. cbn [obind]. now rewrite Hlen.
  - rewrite Htheirs. cbn [obind]. now rewrite Hlen.
  - rewrite Htheirs. cbn [obind]. now rewrite Hlen.
Qed.

(** The node the search opens when the side to move has a legal move and
    the depth is not used up: the loop over that side's moves, each reply
    searched one level less deep. *)
Lemma minimax_node fuel board depth alpha beta rootPlayer toMove moves :
  depth <> 0 -> AI.isTerminal board = Done false ->
  AI.getValidMoves board toMove = Done moves -> moves <> [] ->
  AI.minimax (S fuel) board depth alpha beta rootPlayer toMove
  = if Player_eqb toMove rootPlayer
    then AI.max_loop
           (fun child a b =>
              AI.minimax fuel child (depth - 1) a b rootPlayer
                         (AI.opponent toMove))
           board toMove moves NegInf alpha beta
    else AI.min_loop
           (fun child a b =>
              AI.minimax fuel child (depth - 1) a b rootPlayer
                         (AI.opponent toMove))
           board toMove moves PosInf alpha beta.
Proof.
  intros Hd Hterm Hmoves Hne. cbn [AI.minimax].
  destruct (Z.eqb_spec depth 0) as [|_]; [contradiction|].
  rewrite Hterm. cbn [obind]. rewrite Hmoves. cbn [obind].
  destruct moves; [congruence|reflexivity].
Qed.

(** C3.  A node where the side to move has no legal move.  When its
    opponent has one and the depth is not used up, the node is the nested
    call on the same board at the same depth and window with the opponent
    to move, and so its result is the loop over the opponent's legal
    moves, each reply searched at [depth - 1]: the pass itself costs no
    depth.  With a fuel that covers the depth the node returns a result.
    At any depth (a leaf included) the node has the value of that same
    node with the opponent to move.  When the opponent has no legal move
    either, the result is [evaluate(board, rootPlayer)]. *)
Theorem pass_keeps_depth
    (fuel : nat) (board : Board) (depth : Z) (alpha beta : num)
    (rootPlayer toMove : Player) (theirs : list Move) :
  AI.getValidMoves board toMove = Done [] ->
  AI.getValidMoves board (AI.opponent toMove) = Done theirs ->
  (theirs <> [] ->
   (depth <> 0 ->
    AI.minimax (S fuel) board depth alpha beta rootPlayer toMove
    = AI.minimax fuel board depth alpha beta rootPlayer
                 (AI.opponent toMove)
    /\ AI.minimax (S (S fuel)) board depth alpha beta rootPlayer toMove
       = if Player_eqb (AI.opponent toMove) rootPlayer
         then AI.max_loop
                (fun child a b =>
                   AI.minimax fuel child (depth - 1) a b rootPlayer
                              (AI.opponent (AI.opponent toMove)))
                board (AI.opponent toMove) theirs NegInf alpha beta
         else AI.min_loop
                (fun child a b =>
                   AI.minimax fuel child (depth - 1) a b rootPlayer
                              (AI.opponent (AI.opponent toMove)))
                board (AI.opponent toMove) theirs PosInf alpha beta)
   /\ AI.minimax (S (S fuel)) board depth alpha beta rootPlayer toMove
      = AI.minimax (S fuel) board depth alpha beta rootPlayer
                   (AI.opponent toMove)
   /\ (1 <= depth -> num_ltb alpha beta = true ->
       exists v,
         AI.minimax (AI.fuel_for depth) board depth alpha beta rootPlayer
                    toMove = Done v))
  /\ (theirs = [] ->
      AI.minimax (S fuel) board depth alpha beta rootPlayer toMove
      = (v <- AI.evaluate board rootPlayer ;; Done (Fin v))).
Proof.
  intros Hmine Htheirs.
  assert (forall f, theirs <> [] -> depth <> 0 ->
            AI.minimax (S f) board depth alpha beta rootPlayer toMove
            = AI.minimax f board depth alpha beta rootPlayer
                         (AI.opponent toMove)) as Hpass.
  { intros f Hne Hd. cbn [AI.minimax].
    destruct (Z.eqb_spec depth 0) as [|_]; [contradiction|].
    rewrite (isTerminal_pass board toMove theirs Hmine Htheirs Hne).
    cbn [obind]. rewrite Hmine. cbn [obind length Nat.eqb].
    rewrite Htheirs. cbn [obind].
    destruct theirs; [congruence|reflexivity]. }
  split.
  - intros Hne. split; [|split].
    + intros Hd. split; [now apply Hpass|].
      rewrite (Hpass (S fuel) Hne Hd).
      apply minimax_node; try assumption.
      apply (isTerminal_pass board toMove theirs Hmine Htheirs Hne).
    + destruct (Z.eq_dec depth 0) as [->|Hd]; [|now apply Hpass].
      change (AI.minimax (S (S fuel)) board 0 alpha beta rootPlayer toMove)
        with (v <- AI.evaluate board rootPlayer ;; Done (Fin v)).
      change (AI.minimax (S fuel) board 0 alpha beta rootPlayer
                         (AI.opponent toMove))
        with (v <- AI.evaluate board rootPlayer ;; Done (Fin v)).
      reflexivity.
    + intros Hd Hab.
      assert (2 <= length board)%nat as Hn.
      { destruct (le_lt_dec 2 (length board)) as [|Hlt]; [assumption|].
        rewrite (getValidMoves_small board _ Hlt) in Htheirs.
        congruence. }
      destruct (plain_minimax_total (AI.fuel_for depth) board depth
                  rootPlayer toMove Hn ltac:(lia)) as [V HV].
      { left. unfold AI.fuel_for. lia. }
      destruct (minimax_brackets _ _ _ _ _ _ _ _ Hab HV) as (v & Hv & _).
      now exists v.
  - intros ->. cbn [AI.minimax].
    destruct (if depth =? 0 then Done true else AI.isTerminal board)
      as [[|]|h] eqn:Hleaf; cbn [obind].
    + reflexivity.
    + rewrite Hmine. cbn [obind length Nat.eqb].
      rewrite Htheirs. reflexivity.
    + destruct (depth =? 0); [discriminate|].
      destruct (isTerminal_total board) as [t Ht]. congruence.
Qed.

Lemma pass_keeps_depth_witness :
  AI.getValidMoves pass_board P_player = Done []
  /\ AI.getValidMoves pass_board (AI.opponent P_player) = Done [mkMove 0 2]
  /\ AI.minimax (S (S 3)) pass_board 2 NegInf PosInf P_ia P_player
     = (if Player_eqb (AI.opponent P_player) P_ia
        then AI.max_loop
               (fun child a b =>
                  AI.minimax 3 child (2 - 1) a b P_ia
                             (AI.opponent (AI.opponent P_player)))
               pass_board (AI.opponent P_player) [mkMove 0 2]
               NegInf NegInf PosInf
        else AI.min_loop
               (fun child a b =>
                  AI.minimax 3 child (2 - 1) a b P_ia
                             (AI.opponent (AI.opponent P_player)))
               pass_board (AI.opponent P_player) [mkMove 0 2]
               PosInf NegInf PosInf)
  /\ AI.minimax 5 pass_board 2 NegInf PosInf P_ia P_player = Done (Fin 96)
  /\ AI.evaluate pass_board P_ia = Done 40.
Proof.
  split; [reflexivity|]. split; [reflexivity|].
  destruct (pass_keeps_depth 3 pass_board 2 NegInf PosInf P_ia P_player
              [mkMove 0 2] eq_refl eq_refl) as [Hpass _].
  destruct (Hpass ltac:(discriminate)) as [Hnode _].
  destruct (Hnode ltac:(discriminate)) as [_ Hloop].
  split; [exact Hloop|]. split; vm_compute; reflexivity.
Defined.

End SearchClaims.

(* ------------------------------------------------------------------ *)
(** ** GameAIService: choosing a move *)

Module ChoiceClaims.
Import SearchTotal.

(** C6.  When [player] has a legal move, [chooseMove] at Expert returns a
    move (not [null]), and the same one whatever [Math.random()] draws. *)
Theorem expert_is_deterministic
    (board : Board) (player : Player) (rnd1 rnd2 : AI.Random) :
  has_moves board player ->
  exists m,
    AI.chooseMove rnd1 board player AI.Expert = Done (AI.Chosen m)
    /\ AI.chooseMove rnd2 board player AI.Expert = Done (AI.Chosen m).
Proof.
  intros Hm.
  destruct (plain_decision_total board player 5) as (chosen & Hp & Hsome);
    [lia|].
  apply PruningLoops.minimaxDecision_same in Hp.
  specialize (Hsome Hm). destruct chosen as [m|]; [|congruence].
  destruct Hm as (m0 & ms & Hmoves).
  exists m. unfold AI.chooseMove. rewrite Hmoves.
  cbn [obind length Nat.eqb AI.depthByDifficulty].
  rewrite Hp. split; reflexivity.
Qed.

Lemma expert_is_deterministic_witness :
  has_moves pass_board P_ia
  /\ exists m,
       AI.chooseMove (fun _ => of_int 0) pass_board P_ia AI.Expert
       = Done (AI.Chosen m)
       /\ AI.chooseMove (fun _ => decimal 1 2) pass_board P_ia AI.Expert
          = Done (AI.Chosen m).
Proof.
  assert (has_moves pass_board P_ia) as H
    by (exists (mkMove 0 2), []; reflexivity).
  split; [exact H|].
  apply (expert_is_deterministic pass_board P_ia
           (fun _ => of_int 0) (fun _ => decimal 1 2) H).
Defined.

End ChoiceClaims.

(* ------------------------------------------------------------------ *)
(** ** [applyMove] leaves its input alone *)

Module HeapFacts.
Import Heap.

Lemma content_app h extra b B :
  content h b = Some B -> content (h ++ extra) b = Some B.
Proof.
  revert B. induction b as [|l rest IH]; intros B; simpl; auto.
  destruct (nth_error h l) as [rw|] eqn:Hl; [|discriminate].
  destruct (content h rest) as [B'|]; [|discriminate].
  intros [= <-]. rewrite nth_error_app1, Hl, (IH B') by
    (try reflexivity; apply nth_error_Some; congruence).
  reflexivity.
Qed.

Lemma copy_rows_spec b :
  forall h B,
    content h b = Some B ->
    exists h' next,
      copy_rows h b = Some (h', next)
      /\ h' = h ++ B
      /\ next = seq (length h) (length b)
      /\ content h' next = Some B.
Proof.
  induction b as [|l rest IH]; intros h B; simpl.
  - intros [= <-]. exists h, []. rewrite app_nil_r. auto.
  - destruct (nth_error h l) as [rw|] eqn:Hl; [|discriminate].
    destruct (content h rest) as [B'|] eqn:Hc; [|discriminate].
    intros [= <-].
    destruct (IH (h ++ [rw]) B') as (h' & next & -> & -> & -> & Hn).
    { now apply content_app. }
    exists ((h ++ [rw]) ++ B'), (length h :: seq (length (h ++ [rw])) (length rest)).
    split; [reflexivity|]. split; [now rewrite <- app_assoc|].
    split; [now rewrite length_app, Nat.add_1_r|].
    simpl. rewrite Hn.
    rewrite <- app_assoc, nth_error_app2 by lia.
    now rewrite Nat.sub_diag.
Qed.

Lemma content_set_nth_out h l o b :
  ~ In l b -> content (set_nth h l o) b = content h b.
Proof.
  induction b as [|l' rest IH]; simpl; intros Hn; [reflexivity|].
  rewrite nth_error_set_nth_neq by (intros ->; apply Hn; now left).
  rewrite IH by (intros ?; apply Hn; now right).
  reflexivity.
Qed.

Lemma content_set_nth_in h b :
  forall B x l o,
    NoDup b -> content h b = Some B -> nth_error b x = Some l ->
    content (set_nth h l o) b = Some (set_nth B x o).
Proof.
  induction b as [|l' rest IH]; intros B x l o Hnd; simpl.
  - destruct x; discriminate.
  - destruct (nth_error h l') as [rw|] eqn:Hl; [|discriminate].
    destruct (content h rest) as [B'|] eqn:Hc; [|discriminate].
    intros [= <-]. inversion Hnd as [|? ? Hnotin Hnd']; subst.
    destruct x as [|x]; simpl.
    + intros [= ->]. rewrite nth_error_set_nth_eq
        by (apply nth_error_Some; congruence).
      rewrite content_set_nth_out, Hc by assumption. reflexivity.
    + intros Hx.
      assert (l <> l') as Hne.
      { intros ->. apply Hnotin. eapply nth_error_In; eauto. }
      rewrite nth_error_set_nth_neq, Hl by assumption.
      rewrite (IH B' x l o Hnd' eq_refl Hx). reflexivity.
Qed.

Lemma content_length h b B : content h b = Some B -> length B = length b.
Proof.
  revert B. induction b as [|l rest IH]; intros B; simpl.
  - now intros [= <-].
  - destruct (nth_error h l); [|discriminate].
    destruct (content h rest) as [B'|]; [|discriminate].
    intros [= <-]. simpl. now rewrite (IH B').
Qed.

Lemma content_nth h b B x l :
  content h b = Some B -> nth_error b x = Some l ->
  exists rw, nth_error h l = Some rw /\ nth_error B x = Some rw.
Proof.
  revert B x. induction b as [|l' rest IH]; intros B x; simpl.
  - destruct x; discriminate.
  - destruct (nth_error h l') as [rw|] eqn:Hl; [|discriminate].
    destruct (content h rest) as [B'|] eqn:Hc; [|discriminate].
    intros [= <-]. destruct x as [|x]; simpl.
    + intros [= ->]. eauto.
    + intros Hx. eapply IH; eauto.
Qed.

Section Writes.
Variable base : nat.
Variable next : BoardRef.
Hypothesis next_nodup : NoDup next.
Hypothesis next_fresh : forall l, In l next -> (base <= l)%nat.

(** A write through [next] does to the heap what [assign] does to the
    board [next] denotes, and touches nothing below [base]. *)
Lemma write_assign h B x y v B' :
  content h next = Some B -> assign B x y v = Done B' ->
  exists h',
    write h next x y v = Done h'
    /\ content h' next = Some B'
    /\ keeps base h h'.
Proof.
  intros Hc Ha. apply assign_inv in Ha as (rw & Hx & Hy & ->).
  pose proof (js_nth_Some _ _ _ Hx) as Hxr.
  rewrite (content_length _ _ _ Hc) in Hxr.
  destruct (js_nth_in_range next x Hxr) as [l Hl].
  apply js_nth_nth_error in Hx, Hl.
  destruct (content_nth _ _ _ _ _ Hc Hl) as (rw' & Hrw & Hrw').
  assert (rw' = rw) as -> by congruence.
  unfold write, js_nth. destruct (Z.ltb_spec x 0); [lia|].
  rewrite Hl, Hrw. unfold js_set.
  destruct (Z.leb_spec 0 y), (Z.ltb_spec y (Z.of_nat (length rw)));
    try lia.
  simpl. eexists. split; [reflexivity|]. split.
  - now apply content_set_nth_in.
  - intros l' Hl'. apply nth_error_set_nth_neq.
    apply nth_error_In, next_fresh in Hl. lia.
Qed.

Lemma flip_all_assign flips player :
  forall h B B',
    content h next = Some B -> AI.flip_all B flips player = Done B' ->
    exists h',
      flip_all h next flips player = Done h'
      /\ content h' next = Some B'
      /\ keeps base h h'.
Proof.
  induction flips as [|f rest IH]; intros h B B' Hc; simpl.
  - intros [= <-]. exists h. split; [reflexivity|]. split; [assumption|].
    intros l _. reflexivity.
  - intros H. apply obind_Done in H as (B1 & Ha & H).
    destruct (write_assign _ _ _ _ _ _ Hc Ha) as (h1 & -> & Hc1 & Hk1).
    simpl. destruct (IH _ _ _ Hc1 H) as (h2 & -> & Hc2 & Hk2).
    exists h2. split; [reflexivity|]. split; [assumption|].
    intros l Hl. now rewrite Hk2, Hk1.
Qed.

End Writes.

Lemma content_keeps base h h' b B :
  keeps base h h' -> (forall l, In l b -> (l < base)%nat) ->
  content h b = Some B -> content h' b = Some B.
Proof.
  intros Hk. revert B. induction b as [|l rest IH]; intros B Hb; simpl; auto.
  rewrite Hk by (apply Hb; now left).
  destruct (nth_error h l); [|discriminate].
  destruct (content h rest) as [B'|] eqn:Hc; [|discriminate].
  intros [= <-]. rewrite (IH B'); auto. intros; apply Hb; now right.
Qed.

Lemma content_in_heap h b B l :
  content h b = Some B -> In l b -> (l < length h)%nat.
Proof.
  revert B. induction b as [|l' rest IH]; intros B; simpl; [tauto|].
  destruct (nth_error h l') eqn:Hl; [|discriminate].
  destruct (content h rest) as [B'|]; [|discriminate].
  intros _ [<-|Hin]; [|eapply IH; eauto].
  apply nth_error_Some. congruence.
Qed.

(** C7.  On a heap where [board] denotes a board value, and for a move
    [getValidMoves] lists for [player], [applyMove] returns; every row
    object that existed before the call -- the rows of [board] among them
    -- is unchanged, so [board] still denotes the same value; the rows of
    the board returned are new objects, none shared with [board]; and the
    value returned is the one the search computes with. *)
Theorem applyMove_leaves_input
    (h : heap) (board : BoardRef) (value : Board) (player : Player)
    (moves : list Move) (m : Move) :
  content h board = Some value ->
  AI.getValidMoves value player = Done moves ->
  In m moves ->
  exists h' next child,
    applyMove h board m.(row) m.(col) player = Done (h', next)
    /\ (forall l rowArr, nth_error h l = Some rowArr ->
                         nth_error h' l = Some rowArr)
    /\ content h' board = Some value
    /\ (forall l, In l next -> (length h <= l)%nat /\ ~ In l board)
    /\ AI.applyMove value m.(row) m.(col) player = Done child
    /\ content h' next = Some child.
Proof.
  intros Hc Hm Hin.
  destruct (AIFacts.applyMove_valid _ _ _ _ Hm Hin) as (child & Hchild & _).
  destruct (copy_rows_spec board h value Hc)
    as (h1 & next & Hcopy & -> & -> & Hnext).
  pose proof Hchild as Hrun. unfold AI.applyMove in Hrun.
  rewrite map_id in Hrun.
  apply obind_Done in Hrun as (flips & Hflips & Hrun).
  apply obind_Done in Hrun as (B1 & Hf & Hlast).
  assert (NoDup (seq (length h) (length board))) as Hnd by apply seq_NoDup.
  assert (forall l, In l (seq (length h) (length board)) ->
                    (length h <= l)%nat) as Hfresh.
  { intros l Hl. apply in_seq in Hl. lia. }
  destruct (flip_all_assign (length h) _ Hnd Hfresh flips player
              (h ++ value) value B1 Hnext Hf) as (h2 & Hh2 & Hc2 & Hk2).
  destruct (write_assign (length h) _ Hnd Hfresh h2 B1 m.(row) m.(col)
              player child Hc2 Hlast) as (h3 & Hh3 & Hc3 & Hk3).
  exists h3, (seq (length h) (length board)), child.
  assert (keeps (length h) h h3) as Hk.
  { intros l Hl. rewrite Hk3, Hk2 by assumption.
    now apply nth_error_app1. }
  split.
  { unfold applyMove. rewrite Hcopy.
    rewrite (content_app h value board value Hc).
    rewrite Hflips. simpl. rewrite Hh2. simpl. rewrite Hh3. reflexivity. }
  split.
  { intros l rw Hl. rewrite Hk; [assumption|].
    apply nth_error_Some. congruence. }
  split.
  { apply (content_keeps (length h) h); auto.
    intros l Hl. eapply content_in_heap; eauto. }
  split; [|split; assumption].
  intros l Hl. split; [now apply Hfresh|].
  intros Hb. apply Hfresh in Hl.
  pose proof (content_in_heap _ _ _ _ Hc Hb). lia.
Qed.

Lemma applyMove_leaves_input_witness :
  content Logic.start.(Logic.board) (seq 0 8)
  = Some Logic.start.(Logic.board)
  /\ exists h' next child,
       applyMove Logic.start.(Logic.board) (seq 0 8) 2 4 P_player
       = Done (h', next)
       /\ (forall l rowArr,
             nth_error Logic.start.(Logic.board) l = Some rowArr ->
             nth_error h' l = Some rowArr)
       /\ content h' (seq 0 8) = Some Logic.start.(Logic.board)
       /\ (forall l, In l next ->
             (length Logic.start.(Logic.board) <= l)%nat
             /\ ~ In l (seq 0 8))
       /\ AI.applyMove Logic.start.(Logic.board) 2 4 P_player = Done child
       /\ content h' next = Some child.
Proof.
  split; [reflexivity|].
  apply (applyMove_leaves_input Logic.start.(Logic.board) (seq 0 8)
           Logic.start.(Logic.board) P_player
           [mkMove 2 4; mkMove 3 5; mkMove 4 2; mkMove 5 3] (mkMove 2 4));
    [reflexivity|reflexivity|now left].
Defined.

End HeapFacts.

(* ------------------------------------------------------------------ *)
(** ** Sums over the indices of a grid *)

Module GridSums.
Import PlayFacts AIFacts.

Lemma sumZ_ext {A} (f g : A -> Z) l :
  (forall a, In a l -> f a = g a) -> sumZ f l = sumZ g l.
Proof.
  induction l as [|a t IH]; intros H; [reflexivity|].
  rewrite !sumZ_cons, IH, (H a) by (intros; try apply H; simpl; auto).
  reflexivity.
Qed.

Lemma sumZ_add {A} (f g : A -> Z) l :
  sumZ (fun a => f a + g a) l = sumZ f l + sumZ g l.
Proof.
  induction l as [|a t IH]; [reflexivity|].
  rewrite !sumZ_cons, IH. lia.
Qed.

Lemma sumZ_scale {A} (w : Z) (f : A -> Z) l :
  sumZ (fun a => w * f a) l = w * sumZ f l.
Proof.
  induction l as [|a t IH]; [rewrite !sumZ_nil; lia|].
  rewrite !sumZ_cons, IH. lia.
Qed.

Lemma sumZ_zero {A} (l : list A) : sumZ (fun _ => 0) l = 0.
Proof.
  induction l as [|a t IH]; [reflexivity|]. rewrite sumZ_cons, IH. lia.
Qed.

Lemma sumZ_map {A B} (f : B -> Z) (g : A -> B) l :
  sumZ f (map g l) = sumZ (fun a => f (g a)) l.
Proof.
  induction l as [|a t IH]; [reflexivity|].
  simpl. rewrite !sumZ_cons, IH. reflexivity.
Qed.

Lemma sumZ_flat_map {A B} (f : B -> Z) (g : A -> list B) l :
  sumZ f (flat_map g l) = sumZ (fun a => sumZ f (g a)) l.
Proof.
  induction l as [|a t IH]; [reflexivity|].
  simpl. rewrite sumZ_app, sumZ_cons, IH. reflexivity.
Qed.

Lemma sumZ_all_cells (g : Z * Z -> Z) n :
  sumZ g (AI.all_cells n)
  = sumZ (fun x => sumZ (fun y => g (x, y)) (upto n)) (upto n).
Proof.
  unfold AI.all_cells. rewrite sumZ_flat_map.
  apply sumZ_ext. intros x _. apply sumZ_map.
Qed.

(** A sum that only one index contributes to. *)
Lemma sumZ_point_seq (F : Z -> Z) a len :
  forall start,
    sumZ (fun x => if x =? a then F x else 0)
         (map Z.of_nat (seq start len))
    = if (Z.of_nat start <=? a) && (a <? Z.of_nat (start + len))
      then F a else 0.
Proof.
  induction len as [|len IH]; intros start; cbn [seq map].
  - rewrite sumZ_nil.
    destruct (Z.leb_spec (Z.of_nat start) a),
      (Z.ltb_spec a (Z.of_nat (start + 0))); cbn [andb]; lia.
  - rewrite sumZ_cons, IH.
    destruct (Z.eqb_spec (Z.of_nat start) a) as [Heq|Hne];
      [rewrite Heq|];
      destruct (Z.leb_spec (Z.of_nat (S start)) a),
        (Z.ltb_spec a (Z.of_nat (S start + len)));
      destruct (Z.leb_spec a a);
      destruct (Z.leb_spec (Z.of_nat start) a),
        (Z.ltb_spec a (Z.of_nat (start + S len)));
      cbn [andb]; lia.
Qed.

Lemma sumZ_point (F : Z -> Z) a n :
  0 <= a < n ->
  sumZ (fun x => if x =? a then F x else 0) (upto n) = F a.
Proof.
  intros Ha. unfold upto. rewrite sumZ_point_seq.
  destruct (Z.leb_spec (Z.of_nat 0) a),
    (Z.ltb_spec a (Z.of_nat (0 + Z.to_nat n))); cbn [andb]; lia.
Qed.

Lemma sumZ_two (F : Z -> Z) a b n :
  0 <= a < n -> 0 <= b < n -> a <> b ->
  sumZ (fun x => if (x =? a) || (x =? b) then F x else 0) (upto n)
  = F a + F b.
Proof.
  intros Ha Hb Hab.
  rewrite <- (sumZ_point F a n Ha), <- (sumZ_point F b n Hb), <- sumZ_add.
  apply sumZ_ext. intros x _.
  destruct (Z.eqb_spec x a), (Z.eqb_spec x b); simpl; lia.
Qed.

Lemma upto_split n :
  2 <= n -> upto n = 0 :: AI.inner n ++ [n - 1].
Proof.
  intros Hn. unfold upto, AI.inner.
  replace (Z.to_nat n) with (S (Z.to_nat (n - 2) + 1)) by lia.
  simpl. f_equal. rewrite seq_app, map_app. simpl. f_equal.
  f_equal. lia.
Qed.

(** A sum that skips the first and the last index. *)
Lemma sumZ_inside (F : Z -> Z) n :
  2 <= n ->
  sumZ (fun x => if (x =? 0) || (x =? n - 1) then 0 else F x) (upto n)
  = sumZ F (AI.inner n).
Proof.
  intros Hn. rewrite (upto_split n Hn), sumZ_cons, sumZ_app, sumZ_cons,
    sumZ_nil.
  cbv beta.
  replace ((0 =? 0) || (0 =? n - 1)) with true by reflexivity.
  replace ((n - 1 =? 0) || (n - 1 =? n - 1)) with true
    by (now rewrite Z.eqb_refl, orb_true_r).
  rewrite (sumZ_ext _ F); [lia|].
  intros x Hx. apply inner_In in Hx.
  destruct (Z.eqb_spec x 0), (Z.eqb_spec x (n - 1)); simpl; lia.
Qed.

(** Summing over the indices of a list is summing over the list. *)
Lemma upto_succ n :
  upto (Z.of_nat (S n)) = 0 :: map (fun i => i + 1) (upto (Z.of_nat n)).
Proof.
  unfold upto. rewrite !Nat2Z.id. simpl. f_equal.
  rewrite <- seq_shift, !map_map. apply map_ext. intros k. lia.
Qed.

Lemma js_nth_cons_succ {A} (a : A) l i :
  0 <= i -> js_nth (a :: l) (i + 1) = js_nth l i.
Proof.
  intros Hi. unfold js_nth.
  destruct (Z.ltb_spec (i + 1) 0), (Z.ltb_spec i 0); try lia.
  replace (Z.to_nat (i + 1)) with (S (Z.to_nat i)) by lia. reflexivity.
Qed.

Lemma sumZ_by_index {A} (g : option A -> Z) (l : list A) :
  sumZ (fun i => g (js_nth l i)) (upto (Z.of_nat (length l)))
  = sumZ (fun a => g (Some a)) l.
Proof.
  induction l as [|a t IH]; [reflexivity|].
  cbn [length]. rewrite upto_succ, !sumZ_cons, sumZ_map, <- IH.
  f_equal. apply sumZ_ext. intros i Hi. apply upto_In in Hi.
  now rewrite js_nth_cons_succ by lia.
Qed.

Lemma sumZ_by_cell (g : option Player -> Z) (board : Board) :
  square_board board ->
  sumZ (fun k => g (EvalSpec.at_cell board (fst k) (snd k)))
       (AI.all_cells (Z.of_nat (length board)))
  = sumZ (sumZ (fun q => g (Some q))) board.
Proof.
  intros Hsq. rewrite sumZ_all_cells. cbn [fst snd].
  unfold EvalSpec.at_cell.
  rewrite (sumZ_by_index
             (fun o => sumZ (fun y => g match o with
                                        | Some rowArr => js_nth rowArr y
                                        | None => None
                                        end)
                            (upto (Z.of_nat (length board)))) board).
  apply sumZ_ext. intros rw Hrw.
  unfold square_board in Hsq. rewrite Forall_forall in Hsq.
  rewrite <- (Hsq rw Hrw). apply sumZ_by_index.
Qed.

End GridSums.

(* ------------------------------------------------------------------ *)
(** ** [evaluate] term by term *)

Module EvalFacts.
Import PlayFacts AIFacts GridSums.

Lemma cell_at_cell board x y :
  0 <= x < Z.of_nat (length board) ->
  cell board x y = Done (EvalSpec.at_cell board x y).
Proof.
  intros Hx. unfold cell, EvalSpec.at_cell.
  now destruct (js_nth_in_range board x Hx) as [rw ->].
Qed.

(** The loops over corners, edges and X-squares add [w] times the sign of
    each cell they visit. *)
Lemma weigh_sum board root w cells :
  forall acc,
    (forall x y, In (x, y) cells -> 0 <= x < Z.of_nat (length board)) ->
    AI.weigh board root (AI.opponent root) w cells acc
    = Done (acc + sumZ (fun k => w * EvalSpec.sign root
                                      (EvalSpec.at_cell board (fst k) (snd k)))
                       cells).
Proof.
  induction cells as [|[x y] rest IH]; intros acc Hin; cbn [AI.weigh].
  - rewrite sumZ_nil. f_equal. lia.
  - rewrite cell_at_cell by (apply (Hin x y); now left). cbn [obind].
    rewrite IH by (intros; eapply Hin; right; eauto).
    rewrite sumZ_cons. cbn [fst snd]. f_equal. unfold EvalSpec.sign.
    destruct (same _ root); [lia|].
    destruct (same _ (AI.opponent root)); lia.
Qed.

(** The counting loop. *)
Lemma count_cells_sum board root cells :
  forall k,
    (forall x y, In (x, y) cells -> 0 <= x < Z.of_nat (length board)) ->
    AI.count_cells board root (AI.opponent root) cells k
    = Done (AI.mkCounts
              (k.(AI.rootCount)
               + sumZ (fun p => if same (EvalSpec.at_cell board (fst p) (snd p))
                                        root then 1 else 0) cells)
              (k.(AI.oppCount)
               + sumZ (fun p => if same (EvalSpec.at_cell board (fst p) (snd p))
                                        root then 0
                                else if same (EvalSpec.at_cell board (fst p)
                                                               (snd p))
                                             (AI.opponent root)
                                     then 1 else 0) cells)
              (k.(AI.empties)
               + sumZ (fun p => if same (EvalSpec.at_cell board (fst p) (snd p))
                                        root then 0
                                else if same (EvalSpec.at_cell board (fst p)
                                                               (snd p))
                                             (AI.opponent root)
                                     then 0 else 1) cells)).
Proof.
  induction cells as [|[x y] rest IH]; intros k Hin; cbn [AI.count_cells].
  - rewrite !sumZ_nil. destruct k; simpl. f_equal. f_equal; lia.
  - rewrite cell_at_cell by (apply (Hin x y); now left). cbn [obind].
    rewrite IH by (intros; eapply Hin; right; eauto).
    rewrite !sumZ_cons. cbn [fst snd].
    destruct (same _ root); [|destruct (same _ (AI.opponent root))];
      cbn [AI.rootCount AI.oppCount AI.empties]; f_equal; f_equal; lia.
Qed.

Lemma count_by_cell board (g : option Player -> Z) p :
  square_board board ->
  (forall q, g (Some q) = if Player_eqb q p then 1 else 0) ->
  sumZ (fun k => g (EvalSpec.at_cell board (fst k) (snd k)))
       (AI.all_cells (Z.of_nat (length board)))
  = EvalSpec.count p board.
Proof.
  intros Hsq Hg. rewrite (sumZ_by_cell g board Hsq). unfold EvalSpec.count.
  apply sumZ_ext. intros rw _. apply sumZ_ext. intros q _. apply Hg.
Qed.

(** A sum over the cells whose row and column are both [a] or [b]. *)
Lemma sumZ_box (h : Z * Z -> Z) a b n :
  0 <= a < n -> 0 <= b < n -> a <> b ->
  sumZ (fun k =>
          if ((fst k =? a) || (fst k =? b)) && ((snd k =? a) || (snd k =? b))
          then h k else 0)
       (AI.all_cells n)
  = h (a, a) + h (a, b) + h (b, a) + h (b, b).
Proof.
  intros Ha Hb Hab. rewrite sumZ_all_cells. cbn [fst snd].
  rewrite (sumZ_ext _
             (fun x => if (x =? a) || (x =? b)
                       then h (x, a) + h (x, b) else 0)).
  - rewrite sumZ_two by assumption. lia.
  - intros x _. destruct ((x =? a) || (x =? b)); cbn [andb].
    + now apply sumZ_two.
    + apply sumZ_zero.
Qed.

Lemma is_corner_box n x y :
  EvalSpec.is_corner n x y
  = ((x =? 0) || (x =? n - 1)) && ((y =? 0) || (y =? n - 1)).
Proof.
  unfold EvalSpec.is_corner, EvalSpec.corners. cbn [existsb fst snd].
  destruct (x =? 0), (x =? n - 1), (y =? 0), (y =? n - 1); reflexivity.
Qed.

Lemma is_x_square_box n x y :
  0 <= x < n -> 0 <= y < n ->
  EvalSpec.is_x_square n x y
  = ((x =? 1) || (x =? n - 2)) && ((y =? 1) || (y =? n - 2)).
Proof.
  intros Hx Hy.
  unfold EvalSpec.is_x_square, EvalSpec.corners. cbn [existsb fst snd].
  assert (forall t, 0 <= t < n -> (Z.abs (t - 0) =? 1) = (t =? 1)) as H0.
  { intros t Ht. destruct (Z.eqb_spec (Z.abs (t - 0)) 1), (Z.eqb_spec t 1);
      lia. }
  assert (forall t, 0 <= t < n ->
                    (Z.abs (t - (n - 1)) =? 1) = (t =? n - 2)) as H1.
  { intros t Ht.
    destruct (Z.eqb_spec (Z.abs (t - (n - 1))) 1), (Z.eqb_spec t (n - 2));
      lia. }
  rewrite !H0, !H1 by assumption.
  destruct (x =? 1), (x =? n - 2), (y =? 1), (y =? n - 2); reflexivity.
Qed.

Lemma cornerScore_sum board root :
  (2 <= length board)%nat ->
  EvalSpec.cornerScore board root
  = sumZ (fun k => 30 * EvalSpec.sign root
                         (EvalSpec.at_cell board (fst k) (snd k)))
         (AI.cornerCoords (Z.of_nat (length board))).
Proof.
  intros Hn. unfold EvalSpec.cornerScore, EvalSpec.tally.
  rewrite (sumZ_ext _ _ _ (fun k _ =>
             f_equal (fun b : bool => if b then _ else 0)
                     (is_corner_box _ (fst k) (snd k)))).
  rewrite (sumZ_box (fun k => 30 * EvalSpec.sign root
                                   (EvalSpec.at_cell board (fst k) (snd k))))
    by lia.
  unfold AI.cornerCoords. rewrite !sumZ_cons, sumZ_nil. lia.
Qed.

Lemma xPenalty_sum board root :
  (4 <= length board)%nat ->
  EvalSpec.xPenalty board root
  = sumZ (fun k => -8 * EvalSpec.sign root
                         (EvalSpec.at_cell board (fst k) (snd k)))
         (AI.xs (Z.of_nat (length board))).
Proof.
  intros Hn. unfold EvalSpec.xPenalty, EvalSpec.tally.
  rewrite (sumZ_ext _
             (fun k => if ((fst k =? 1)
                           || (fst k =? Z.of_nat (length board) - 2))
                          && ((snd k =? 1)
                              || (snd k =? Z.of_nat (length board) - 2))
                       then -8 * EvalSpec.sign root
                                   (EvalSpec.at_cell board (fst k) (snd k))
                       else 0)).
  - rewrite (sumZ_box (fun k => -8 * EvalSpec.sign root
                                   (EvalSpec.at_cell board (fst k) (snd k))))
      by lia.
    unfold AI.xs. rewrite !sumZ_cons, sumZ_nil. lia.
  - intros [x y] Hin. apply all_cells_In in Hin as [Hx Hy]. cbn [fst snd].
    now rewrite is_x_square_box.
Qed.

Lemma edgeScore_sum board root :
  (2 <= length board)%nat ->
  EvalSpec.edgeScore board root
  = sumZ (fun k => 4 * EvalSpec.sign root
                        (EvalSpec.at_cell board (fst k) (snd k)))
         (AI.edge_cells (Z.of_nat (length board))).
Proof.
  intros Hn. unfold EvalSpec.edgeScore, EvalSpec.tally.
  set (n := Z.of_nat (length board)).
  pose (h := fun k : Z * Z =>
               4 * EvalSpec.sign root
                     (EvalSpec.at_cell board (fst k) (snd k))).
  assert (2 <= n) as Hn' by (unfold n; lia).
  rewrite sumZ_all_cells. cbn [fst snd]. fold h.
  rewrite (sumZ_ext _
             (fun x => (if (x =? 0) || (x =? n - 1)
                        then sumZ (fun i => h (x, i)) (AI.inner n) else 0)
                       + (if (x =? 0) || (x =? n - 1) then 0
                          else h (x, 0) + h (x, n - 1)))).
  - rewrite sumZ_add.
    rewrite (sumZ_two (fun x => sumZ (fun i => h (x, i)) (AI.inner n))
                      0 (n - 1) n) by lia.
    rewrite (sumZ_inside (fun x => h (x, 0) + h (x, n - 1)) n) by lia.
    unfold AI.edge_cells. rewrite sumZ_flat_map.
    rewrite <- !sumZ_add. apply sumZ_ext. intros i _.
    rewrite !sumZ_cons, sumZ_nil. lia.
  - intros x _. destruct ((x =? 0) || (x =? n - 1)) eqn:Ax.
    + rewrite Z.add_0_r, <- (sumZ_inside (fun i => h (x, i)) n) by lia.
      apply sumZ_ext. intros y _.
      rewrite is_corner_box. unfold EvalSpec.on_ring. rewrite Ax.
      cbn [orb andb]. destruct ((y =? 0) || (y =? n - 1)); reflexivity.
    + rewrite Z.add_0_l, <- (sumZ_two (fun y => h (x, y)) 0 (n - 1) n)
        by lia.
      apply sumZ_ext. intros y _.
      rewrite is_corner_box. unfold EvalSpec.on_ring. rewrite Ax.
      cbn [orb andb negb]. now rewrite andb_true_r.
Qed.

(** The corner term is a multiple of 30: its division by 30 is exact. *)
Lemma cornerScore_multiple board root :
  exists k, EvalSpec.cornerScore board root = 30 * k.
Proof.
  unfold EvalSpec.cornerScore, EvalSpec.tally.
  exists (sumZ (fun p =>
            if EvalSpec.is_corner (Z.of_nat (length board)) (fst p) (snd p)
            then EvalSpec.sign root (EvalSpec.at_cell board (fst p) (snd p))
            else 0)
          (AI.all_cells (Z.of_nat (length board)))).
  rewrite <- sumZ_scale. apply sumZ_ext. intros p _.
  destruct (EvalSpec.is_corner _ _ _); lia.
Qed.

Lemma opponent_cases root :
  root <> P_none ->
  (root = P_player /\ AI.opponent root = P_ia)
  \/ (root = P_ia /\ AI.opponent root = P_player).
Proof. destruct root; intros H; auto; contradiction. Qed.

(** [evaluate] returns, on a square board of side at least 4 and for a
    perspective that is one of the sides, the sum of its five terms as
    the specification defines them. *)
Lemma evaluate_terms board root :
  square_board board -> (4 <= length board)%nat -> root <> P_none ->
  exists mine theirs,
    AI.getValidMoves board root = Done mine
    /\ AI.getValidMoves board (AI.opponent root) = Done theirs
    /\ AI.evaluate board root
       = Done (10 * (Z.of_nat (length mine) - Z.of_nat (length theirs))
               + 5 * EvalSpec.edgeScore board root
               + (50 * EvalSpec.cornerScore board root) / 30
               + 2 * EvalSpec.endgameFactor board
                   * EvalSpec.pieceDiff board root
               + (-1) * EvalSpec.xPenalty board root).
Proof.
  intros Hsq Hn Hside.
  destruct (ai_getValidMoves_total board root) as [mine Hmine].
  destruct (ai_getValidMoves_total board (AI.opponent root))
    as [theirs Htheirs].
  exists mine, theirs. split; [assumption|]. split; [assumption|].
  unfold AI.evaluate.
  rewrite count_cells_sum
    by (intros x y Hin; now apply all_cells_In in Hin).
  cbn [obind AI.rootCount AI.oppCount AI.empties].
  rewrite Hmine, Htheirs. cbn [obind].
  rewrite weigh_sum.
  2:{ intros x y Hin. unfold AI.cornerCoords in Hin. simpl in Hin.
      repeat (destruct Hin as [[= <- <-]|Hin]; [lia|]). contradiction. }
  cbn [obind]. rewrite weigh_sum
    by (intros x y Hin; now apply edge_cells_rows in Hin).
  cbn [obind]. rewrite weigh_sum.
  2:{ intros x y Hin. unfold AI.xs in Hin. simpl in Hin.
      repeat (destruct Hin as [[= <- <-]|Hin]; [lia|]). contradiction. }
  cbn [obind].
  rewrite !Z.add_0_l.
  rewrite <- cornerScore_sum, <- edgeScore_sum, <- xPenalty_sum by lia.
  assert (forall p,
            sumZ (fun k => if same (EvalSpec.at_cell board (fst k) (snd k)) p
                           then 1 else 0)
                 (AI.all_cells (Z.of_nat (length board)))
            = EvalSpec.count p board) as Hcount.
  { intros p. apply (count_by_cell board
                       (fun v => if same v p then 1 else 0) p Hsq).
    intros q. reflexivity. }
  rewrite (Hcount root).
  rewrite (count_by_cell board
             (fun v => if same v root then 0
                       else if same v (AI.opponent root) then 1 else 0)
             (AI.opponent root) Hsq).
  2:{ intros q. destruct (opponent_cases root Hside) as [[-> ->]|[-> ->]];
        destruct q; reflexivity. }
  rewrite (count_by_cell board
             (fun v => if same v root then 0
                       else if same v (AI.opponent root) then 0 else 1)
             P_none Hsq).
  2:{ intros q. destruct (opponent_cases root Hside) as [[-> ->]|[-> ->]];
        destruct q; reflexivity. }
  reflexivity.
Qed.

End EvalFacts.

(* ------------------------------------------------------------------ *)
(** ** GameAIService: the claim about the evaluation *)

Module EvalClaims.
Import EvalFacts.

(** C4.  On a square board of side at least 4, from the perspective of
    either side, [evaluate] returns
    10 mobility + 5 edgeScore + (50/30) cornerScore
    + 2 endgameFactor pieceDiff - xPenalty,
    with mobility the difference of the two legal-move counts and the
    other terms as the specification defines them. *)
Theorem evaluate_formula (board : Board) (perspective : Player) :
  square_board board -> (4 <= length board)%nat ->
  perspective <> P_none ->
  exists v mine theirs,
    AI.evaluate board perspective = Done v
    /\ AI.getValidMoves board perspective = Done mine
    /\ AI.getValidMoves board (AI.opponent perspective) = Done theirs
    /\ (inject_Z v
        == EvalSpec.score board perspective
             (Z.of_nat (length mine) - Z.of_nat (length theirs)))%Q.
Proof.
  intros Hsq Hn Hside.
  destruct (evaluate_terms board perspective Hsq Hn Hside)
    as (mine & theirs & Hm & Ht & He).
  eexists; exists mine, theirs. split; [exact He|].
  split; [assumption|]. split; [assumption|].
  destruct (cornerScore_multiple board perspective) as [k Hk].
  unfold EvalSpec.score. rewrite Hk.
  replace (50 * (30 * k)) with (50 * k * 30) by lia.
  rewrite Z.div_mul by lia.
  rewrite !inject_Z_plus, !inject_Z_mult. field.
Qed.

Lemma evaluate_formula_witness :
  square_board Logic.start.(Logic.board)
  /\ (4 <= length Logic.start.(Logic.board))%nat
  /\ P_ia <> P_none
  /\ exists v mine theirs,
       AI.evaluate Logic.start.(Logic.board) P_ia = Done v
       /\ AI.getValidMoves Logic.start.(Logic.board) P_ia = Done mine
       /\ AI.getValidMoves Logic.start.(Logic.board) (AI.opponent P_ia)
          = Done theirs
       /\ (inject_Z v
           == EvalSpec.score Logic.start.(Logic.board) P_ia
                (Z.of_nat (length mine) - Z.of_nat (length theirs)))%Q.
Proof.
  assert (square_board Logic.start.(Logic.board)) as Hsq
    by (repeat constructor).
  split; [exact Hsq|]. split; [simpl; lia|]. split; [discriminate|].
  apply (evaluate_formula Logic.start.(Logic.board) P_ia Hsq);
    [simpl; lia|discriminate].
Defined.

End EvalClaims.

(* ------------------------------------------------------------------ *)
(** ** GameLogicService: what a move captures *)

Module CaptureFacts.
Import Logic LogicFacts PlayFacts.

Lemma along_step row col dx dy k :
  mkDisc ((along row col dx dy k).(r) + dx) ((along row col dx dy k).(c) + dy)
  = along row col dx dy (S k).
Proof. unfold along. simpl r. simpl c. f_equal; lia. Qed.

Lemma line_snoc row col dx dy k :
  line row col dx dy k ++ [along row col dx dy (S k)]
  = line row col dx dy (S k).
Proof. unfold line. now rewrite seq_S, map_app. Qed.

Lemma opponent_of_differs player : opponent_of player <> player.
Proof. destruct player; discriminate. Qed.

Lemma same_as v p q : v = Some q -> same v p = Player_eqb q p.
Proof. now intros ->. Qed.

Lemma Player_eqb_refl p : Player_eqb p p = true.
Proof. now destruct p. Qed.

Lemma Player_eqb_neq p q : p <> q -> Player_eqb p q = false.
Proof. destruct p, q; simpl; congruence. Qed.

Section Ray.
Variable s : GameLogicService.
Variable player : Player.
Variables row col dx dy : Z.

(** A walk that returns discs has met a flanked line, and returns it. *)
Lemma walk_sound fuel :
  forall i found,
    (forall j, (1 <= j <= i)%nat ->
       inBounds s (along row col dx dy j).(r) (along row col dx dy j).(c)
       = true
       /\ cell s.(board) (along row col dx dy j).(r)
               (along row col dx dy j).(c)
          = Done (Some (opponent_of player))) ->
    walk s (opponent_of player) player dx dy fuel
         (along row col dx dy (S i)).(r) (along row col dx dy (S i)).(c)
         (line row col dx dy i) = Done found ->
    found <> [] ->
    exists k, flanked s player row col dx dy k
              /\ found = line row col dx dy k.
Proof.
  induction fuel as [|f IH]; intros i found Hopp; cbn [walk].
  - destruct (inBounds s _ _); [discriminate|]. intros [= <-] H. congruence.
  - destruct (inBounds s _ _) eqn:Hb; [|intros [= <-] H; congruence].
    destruct (cell (board s) _ _) as [v|h] eqn:Hc; cbn [obind];
      [|discriminate].
    destruct (same v (opponent_of player)) eqn:Ho.
    + apply same_true in Ho. subst v.
      assert (mkDisc ((along row col dx dy (S i)).(r) + dx)
                     ((along row col dx dy (S i)).(c) + dy)
              = along row col dx dy (S (S i))) as E by apply along_step.
      injection E as E1 E2.
      assert ((along row col dx dy (S i)).(r) + dx
              = (along row col dx dy (S (S i))).(r)) as -> by exact E1.
      assert ((along row col dx dy (S i)).(c) + dy
              = (along row col dx dy (S (S i))).(c)) as -> by exact E2.
      change [mkDisc (along row col dx dy (S i)).(r)
                     (along row col dx dy (S i)).(c)]
        with [along row col dx dy (S i)].
      rewrite line_snoc. apply IH.
      intros j Hj. destruct (Nat.eq_dec j (S i)) as [->|Hne]; [auto|].
      apply Hopp. lia.
    + destruct (same v player) eqn:Hp; [|intros [= <-] H; congruence].
      apply same_true in Hp. subst v.
      intros [= <-] Hne. exists i. split; [|reflexivity].
      split; [|split; [assumption|split; assumption]].
      destruct i; [exfalso; apply Hne; reflexivity|lia].
Qed.

(** A flanked line is what the walk returns, fuel permitting. *)
Lemma walk_complete k fuel :
  flanked s player row col dx dy k ->
  forall i, (i <= k)%nat ->
    walk s (opponent_of player) player dx dy fuel
         (along row col dx dy (S i)).(r) (along row col dx dy (S i)).(c)
         (line row col dx dy i) = Done (line row col dx dy k)
    \/ walk s (opponent_of player) player dx dy fuel
         (along row col dx dy (S i)).(r) (along row col dx dy (S i)).(c)
         (line row col dx dy i) = Halt OutOfFuel.
Proof.
  intros (Hk & Hopp & Hb & Hp).
  induction fuel as [|f IH]; intros i Hi; cbn [walk].
  - destruct (Nat.eq_dec i k) as [->|Hne]; [rewrite Hb; now right|].
    destruct (Hopp (S i)) as [-> _]; [lia|]. now right.
  - destruct (Nat.eq_dec i k) as [->|Hne].
    + rewrite Hb, Hp. cbn [obind].
      rewrite (same_as _ _ player eq_refl),
        (Player_eqb_neq _ _ (fun E => opponent_of_differs player
                                        (eq_sym E))).
      rewrite (same_as _ _ player eq_refl), Player_eqb_refl. now left.
    + destruct (Hopp (S i)) as [Hb' Hc']; [lia|].
      rewrite Hb', Hc'. cbn [obind].
      rewrite (same_as _ _ (opponent_of player) eq_refl), Player_eqb_refl.
      assert (mkDisc ((along row col dx dy (S i)).(r) + dx)
                     ((along row col dx dy (S i)).(c) + dy)
              = along row col dx dy (S (S i))) as E by apply along_step.
      injection E as E1 E2.
      assert ((along row col dx dy (S i)).(r) + dx
              = (along row col dx dy (S (S i))).(r)) as -> by exact E1.
      assert ((along row col dx dy (S i)).(c) + dy
              = (along row col dx dy (S (S i))).(c)) as -> by exact E2.
      change [mkDisc (along row col dx dy (S i)).(r)
                     (along row col dx dy (S i)).(c)]
        with [along row col dx dy (S i)].
      rewrite line_snoc. apply IH. lia.
Qed.

End Ray.

Lemma along_one row col dx dy :
  along row col dx dy 1 = mkDisc (row + dx) (col + dy).
Proof. unfold along. f_equal; lia. Qed.

(** What the loop over directions returns: for each direction a line of
    some length, possibly none, after what was already collected. *)
Lemma each_direction_lines s player row col dirs :
  forall flippable found,
    each_direction s (opponent_of player) player row col dirs flippable
    = Done found ->
    exists ks,
      length ks = length dirs
      /\ found
         = flippable
           ++ flat_map (fun p => line row col (fst (fst p)) (snd (fst p))
                                      (snd p))
                       (combine dirs ks)
      /\ Forall (fun p => snd p <> O ->
                          flanked s player row col (fst (fst p))
                                  (snd (fst p)) (snd p))
                (combine dirs ks).
Proof.
  induction dirs as [|[dx dy] rest IH]; intros flippable found;
    cbn [each_direction].
  - intros [= <-]. exists []. rewrite app_nil_r. repeat split. constructor.
  - intros H. apply obind_Done in H as (l & Hw & H).
    destruct (IH _ _ H) as (ks & Hlen & -> & Hall).
    assert (exists k, l = line row col dx dy k
                      /\ (k <> O -> flanked s player row col dx dy k))
      as (k & -> & Hk).
    { destruct l as [|d l'].
      - exists O. split; [reflexivity|]. congruence.
      - destruct (walk_sound s player row col dx dy (Z.to_nat (size s)) 0
                    (d :: l')) as (k & Hf & ->).
        + intros j Hj. lia.
        + rewrite along_one. exact Hw.
        + discriminate.
        + exists k. auto. }
    exists (k :: ks). cbn [length combine flat_map fst snd].
    split; [now rewrite Hlen|]. split; [now rewrite app_assoc|].
    constructor; assumption.
Qed.

Lemma along_same_line dx dy row col j j' :
  In (dx, dy) directions ->
  along row col dx dy j = along row col dx dy j' -> j = j'.
Proof.
  intros Hd. apply directions_cases in Hd as (Hx & Hy & Hnz).
  unfold along. intros [= E1 E2].
  destruct Hx as [->|[->| ->]], Hy as [->|[->| ->]]; lia.
Qed.

Lemma along_same_direction dx dy dx' dy' row col j j' :
  In (dx, dy) directions -> In (dx', dy') directions ->
  (1 <= j)%nat -> (1 <= j')%nat ->
  along row col dx dy j = along row col dx' dy' j' ->
  (dx, dy) = (dx', dy').
Proof.
  intros Hd Hd' Hj Hj'.
  apply directions_cases in Hd as (Hx & Hy & Hnz).
  apply directions_cases in Hd' as (Hx' & Hy' & Hnz').
  unfold along. intros [= E1 E2].
  destruct Hx as [->|[->| ->]], Hy as [->|[->| ->]],
    Hx' as [->|[->| ->]], Hy' as [->|[->| ->]];
    try reflexivity; lia.
Qed.

Lemma line_In row col dx dy k d :
  In d (line row col dx dy k)
  <-> exists j, (1 <= j <= k)%nat /\ d = along row col dx dy j.
Proof.
  unfold line. rewrite in_map_iff. split.
  - intros (j & <- & Hj). apply in_seq in Hj. exists j. split; [lia|auto].
  - intros (j & Hj & ->). exists j. split; [reflexivity|].
    apply in_seq. lia.
Qed.

Lemma line_NoDup row col dx dy k :
  In (dx, dy) directions -> NoDup (line row col dx dy k).
Proof.
  intros Hd. unfold line. apply Finite.Injective_map_NoDup.
  - intros j j'. now apply along_same_line.
  - apply seq_NoDup.
Qed.

Lemma lines_NoDup row col dirs :
  NoDup dirs -> incl dirs directions ->
  forall ks,
    NoDup (flat_map (fun p => line row col (fst (fst p)) (snd (fst p))
                                   (snd p))
                    (combine dirs ks)).
Proof.
  induction dirs as [|[dx dy] rest IH]; intros Hnd Hin ks;
    [constructor|].
  destruct ks as [|k ks]; [constructor|].
  cbn [combine flat_map fst snd].
  inversion Hnd as [|? ? Hnotin Hnd']; subst.
  apply NoDup_app.
  - apply line_NoDup. apply Hin. now left.
  - apply IH; [assumption|]. intros d Hd. apply Hin. now right.
  - intros d Hd Hd'. apply line_In in Hd as (j & Hj & ->).
    apply in_flat_map in Hd' as ([[dx' dy'] k'] & Hp & Hl).
    cbn [fst snd] in Hl. apply line_In in Hl as (j' & Hj' & E).
    apply in_combine_l in Hp.
    assert ((dx, dy) = (dx', dy')) as Heq.
    { eapply along_same_direction; [| | | |exact E]; try lia.
      - apply Hin. now left.
      - apply Hin. now right. }
    apply Hnotin. now rewrite Heq.
Qed.

Lemma directions_NoDup : NoDup directions.
Proof.
  unfold directions.
  repeat (constructor; [simpl; intuition congruence|]). constructor.
Qed.

End CaptureFacts.

(* ------------------------------------------------------------------ *)
(** ** GameLogicService: the rules of capture and their effect on the score *)

Module CaptureRules.
Import Logic LogicFacts PlayFacts CaptureFacts.

(** X1.  The discs [getFlippableDiscs] returns are exactly the discs the
    rules capture: a disc is returned if and only if, in one of the eight
    directions from the target, it lies in an unbroken run of opponent
    discs, starting next to the target, that ends on a disc of the player
    inside the board. *)
Theorem getFlippableDiscs_rule
    (s : GameLogicService) (row col : Z) (player : Player)
    (found : list Disc) :
  getFlippableDiscs s row col player = Done found ->
  forall d,
    In d found
    <-> exists dx dy k j,
          In (dx, dy) directions
          /\ flanked s player row col dx dy k
          /\ (1 <= j <= k)%nat
          /\ d = along row col dx dy j.
Proof.
  intros Hf d. unfold getFlippableDiscs in Hf.
  change (if Player_eqb player P_player then P_ia else P_player)
    with (opponent_of player) in Hf.
  split.
  - destruct (each_direction_lines _ _ _ _ _ _ _ Hf)
      as (ks & Hlen & -> & Hall).
    cbn [app]. intros Hin.
    apply in_flat_map in Hin as ([[dx dy] k] & Hp & Hl).
    cbn [fst snd] in Hl. rewrite Forall_forall in Hall.
    apply line_In in Hl as (j & Hj & ->).
    exists dx, dy, k, j. split; [now apply in_combine_l in Hp|].
    split; [|auto]. apply (Hall _ Hp). cbn [snd]. lia.
  - intros (dx & dy & k & j & Hd & Hfl & Hj & ->).
    assert (forall dirs flippable res,
              each_direction s (opponent_of player) player row col dirs
                             flippable = Done res ->
              incl dirs directions ->
              (In (along row col dx dy j) flippable \/ In (dx, dy) dirs) ->
              In (along row col dx dy j) res) as Hgen.
    { induction dirs as [|[dx' dy'] rest IH]; intros flippable res;
        cbn [each_direction].
      - intros [= <-] _ [H|[]]. exact H.
      - intros H Hincl Hcase. apply obind_Done in H as (l & Hw & H).
        apply (IH _ _ H); [intros a Ha; apply Hincl; now right|].
        destruct Hcase as [Hin|[E|Hin]];
          [left; apply in_or_app; now left| |now right].
        injection E as -> ->. left. apply in_or_app. right.
        destruct (walk_complete s player row col dx dy k
                    (Z.to_nat (size s)) Hfl 0) as [Hdone|Hout]; [lia| |].
        + rewrite along_one in Hdone. cbn [line seq map r c] in Hdone.
          rewrite Hdone in Hw. injection Hw as <-.
          apply line_In. eauto.
        + rewrite along_one in Hout. cbn [line seq map r c] in Hout.
          exfalso.
          eapply (walk_not_out_of_fuel s (opponent_of player) player dx dy
                    Hd); [|exact Hout].
          intros Hb. now apply start_reach. }
    apply (Hgen directions [] found Hf (incl_refl _)). now right.
Qed.

Lemma getFlippableDiscs_rule_witness :
  getFlippableDiscs start 2 4 P_player = Done [mkDisc 3 4]
  /\ (In (mkDisc 3 4) [mkDisc 3 4]
      <-> exists dx dy k j,
            In (dx, dy) directions
            /\ flanked start P_player 2 4 dx dy k
            /\ (1 <= j <= k)%nat
            /\ mkDisc 3 4 = along 2 4 dx dy j).
Proof.
  split; [reflexivity|].
  apply (getFlippableDiscs_rule start 2 4 P_player [mkDisc 3 4] eq_refl).
Defined.

(** No disc is captured twice. *)
Lemma getFlippableDiscs_NoDup s row col player found :
  getFlippableDiscs s row col player = Done found -> NoDup found.
Proof.
  unfold getFlippableDiscs.
  change (if Player_eqb player P_player then P_ia else P_player)
    with (opponent_of player).
  intros Hf.
  destruct (each_direction_lines _ _ _ _ _ _ _ Hf) as (ks & _ & -> & _).
  cbn [app]. apply lines_NoDup; [apply directions_NoDup|apply incl_refl].
Qed.

End CaptureRules.

(* ------------------------------------------------------------------ *)
(** ** GameLogicService: the score after a move *)

Module ScoreFacts.
Import Logic LogicFacts PlayFacts CaptureFacts.

Lemma count_assign p b x y v b' old :
  assign b x y v = Done b' -> cell b x y = Done (Some old) ->
  EvalSpec.count p b'
  = EvalSpec.count p b
    - (if Player_eqb old p then 1 else 0)
    + (if Player_eqb v p then 1 else 0).
Proof.
  intros Ha Hc. apply assign_inv in Ha as (rw & Hx & Hy & ->).
  apply cell_Some_inv in Hc as (rw' & Hx' & Hy').
  assert (rw' = rw) as -> by congruence.
  unfold EvalSpec.count.
  rewrite (sumZ_set_nth _ _ _ rw) by now apply js_nth_nth_error.
  rewrite (sumZ_set_nth _ _ _ old) by now apply js_nth_nth_error.
  lia.
Qed.

Lemma tally_row_counts rowArr acc :
  tally_row acc rowArr
  = (fst acc + sumZ (fun q => if Player_eqb q P_player then 1 else 0) rowArr,
     snd acc + sumZ (fun q => if Player_eqb q P_ia then 1 else 0) rowArr).
Proof.
  unfold tally_row. revert acc.
  induction rowArr as [|v t IH]; intros acc; cbn [fold_left].
  - rewrite !sumZ_nil, !Z.add_0_r. now destruct acc.
  - rewrite IH, !sumZ_cons.
    destruct v; unfold tally_cell; cbn [fst snd Player_eqb]; f_equal; lia.
Qed.

Lemma tally_board_counts b acc :
  fold_left tally_row b acc
  = (fst acc + EvalSpec.count P_player b, snd acc + EvalSpec.count P_ia b).
Proof.
  unfold EvalSpec.count. revert acc.
  induction b as [|rw t IH]; intros acc; cbn [fold_left].
  - rewrite !sumZ_nil, !Z.add_0_r. now destruct acc.
  - rewrite IH, tally_row_counts, !sumZ_cons. cbn [fst snd]. f_equal; lia.
Qed.

(** [getScores] counts the cells of each side. *)
Lemma getScores_counts s :
  getScores s
  = (EvalSpec.count P_player s.(board), EvalSpec.count P_ia s.(board)).
Proof. unfold getScores. now rewrite tally_board_counts. Qed.

Lemma score_of_count p s :
  p <> P_none -> score_of p (getScores s) = EvalSpec.count p s.(board).
Proof.
  intros Hp. rewrite getScores_counts. destruct p; [reflexivity..|].
  contradiction.
Qed.

(** Flipping distinct opponent discs moves that many cells from one count
    to the other. *)
Lemma flip_all_counts flipped to_ opp :
  opp <> to_ ->
  forall s b',
    NoDup flipped ->
    (forall d, In d flipped ->
       cell s.(board) d.(r) d.(c) = Done (Some opp)) ->
    flip_all flipped to_ s = (set_board b' s, Done tt) ->
    EvalSpec.count to_ b'
    = EvalSpec.count to_ s.(board) + Z.of_nat (length flipped)
    /\ EvalSpec.count opp b'
       = EvalSpec.count opp s.(board) - Z.of_nat (length flipped).
Proof.
  intros Hne. induction flipped as [|f rest IH]; intros s b' Hnd Hopp Hrun.
  - cbn [flip_all] in Hrun. unfold ret in Hrun. injection Hrun as Hs.
    assert (b' = board s) as ->
      by (destruct s; unfold set_board in Hs; simpl in *; congruence).
    cbn [length]. lia.
  - cbn [flip_all] in Hrun. unfold bind, update_board in Hrun.
    destruct (assign s.(board) f.(r) f.(c) to_) as [b1|h] eqn:Hb1;
      [|discriminate].
    inversion Hnd as [|? ? Hnotin Hnd']; subst.
    destruct (IH (set_board b1 s) b' Hnd') as [H1 H2].
    + intros d Hd. cbn [set_board board].
      rewrite (cell_assign_neq _ _ _ _ _ _ _ Hb1);
        [apply Hopp; now right|].
      intros E. apply Hnotin. destruct d as [dr dc], f as [fr fc].
      simpl in E. injection E as -> ->. exact Hd.
    + destruct (flip_all rest to_ (set_board b1 s)) as [s2 o] eqn:E.
      injection Hrun as -> ->. destruct s; reflexivity.
    + cbn [set_board board] in H1, H2. rewrite H1, H2.
      pose proof (Hopp f (or_introl eq_refl)) as Hf.
      rewrite (count_assign to_ _ _ _ _ _ _ Hb1 Hf).
      rewrite (count_assign opp _ _ _ _ _ _ Hb1 Hf).
      rewrite !Player_eqb_refl, (Player_eqb_neq _ _ Hne),
        (Player_eqb_neq to_ opp) by congruence.
      cbn [length]. lia.
Qed.

End ScoreFacts.

Module ScoreRules.
Import Logic LogicFacts PlayFacts CaptureFacts ScoreFacts.

(** X2.  When the current player is one of the two sides and [playMove]
    returns true, [getScores] moves by exactly the capture: the mover gains
    the captured discs and the placed one, the opponent loses the captured
    discs, and at least one disc is captured. *)
Theorem playMove_scores (s s' : GameLogicService) (x y : Z) :
  s.(currentPlayer) <> P_none ->
  playMove x y s = (s', Done true) ->
  exists found,
    getFlippableDiscs s x y s.(currentPlayer) = Done found
    /\ (1 <= length found)%nat
    /\ score_of s.(currentPlayer) (getScores s')
       = score_of s.(currentPlayer) (getScores s)
         + 1 + Z.of_nat (length found)
    /\ score_of (opponent_of s.(currentPlayer)) (getScores s')
       = score_of (opponent_of s.(currentPlayer)) (getScores s)
         - Z.of_nat (length found).
Proof.
  intros Hside Hplay.
  pose proof (playMove_true_inv _ _ _ _ Hplay) as Hv.
  destruct (isValidMove_true _ _ _ _ Hv) as (Hcell & _).
  destruct (playMove_valid _ _ _ Hv)
    as (found & b1 & b2 & Hf & Hne & Hrun & Hb2 & Heq).
  rewrite Heq in Hplay. injection Hplay as <-.
  exists found. split; [assumption|].
  split; [destruct found; [congruence|cbn [length]; lia]|].
  pose proof (getFlippableDiscs_discs _ _ _ _ _ Hf) as Hdiscs.
  pose proof (CaptureRules.getFlippableDiscs_NoDup _ _ _ _ _ Hf) as Hnd.
  destruct (flip_all_counts found s.(currentPlayer)
              (opponent_of s.(currentPlayer))
              (opponent_of_differs _) s b1 Hnd Hdiscs Hrun) as [H1 H2].
  destruct (flip_all_cells found s.(currentPlayer) s)
    as (b1' & Hrun' & _ & _ & Hout).
  { intros d Hd. eexists. apply (Hdiscs d Hd). }
  assert (b1' = b1) as ->.
  { rewrite Hrun in Hrun'. injection Hrun' as E.
    destruct s; unfold set_board in E; simpl in *. congruence. }
  assert (cell b1 x y = Done (Some P_none)) as Hb1.
  { rewrite Hout; [assumption|]. intros Hd.
    pose proof (Hdiscs _ Hd) as E. cbn [r c] in E. rewrite Hcell in E.
    injection E as E. symmetry in E. now apply opponent_of_side in E. }
  rewrite !score_of_count by (assumption || apply opponent_of_side).
  cbn [board].
  rewrite (count_assign _ _ _ _ _ _ _ Hb2 Hb1).
  rewrite (count_assign (opponent_of (currentPlayer s)) _ _ _ _ _ _ Hb2 Hb1).
  rewrite H1, H2.
  rewrite Player_eqb_refl, (Player_eqb_neq P_none (currentPlayer s)),
    (Player_eqb_neq P_none (opponent_of (currentPlayer s))),
    (Player_eqb_neq (currentPlayer s) (opponent_of (currentPlayer s)))
    by (try congruence; try (intros E; symmetry in E; revert E;
                             apply opponent_of_side);
        intros E; symmetry in E; revert E; apply opponent_of_differs).
  lia.
Qed.

Lemma playMove_scores_witness :
  start.(currentPlayer) <> P_none
  /\ playMove 2 4 start = (fst (playMove 2 4 start), Done true)
  /\ exists found,
       getFlippableDiscs start 2 4 start.(currentPlayer) = Done found
       /\ (1 <= length found)%nat
       /\ score_of start.(currentPlayer)
                   (getScores (fst (playMove 2 4 start)))
          = score_of start.(currentPlayer) (getScores start)
            + 1 + Z.of_nat (length found)
       /\ score_of (opponent_of start.(currentPlayer))
                   (getScores (fst (playMove 2 4 start)))
          = score_of (opponent_of start.(currentPlayer)) (getScores start)
            - Z.of_nat (length found).
Proof.
  split; [discriminate|]. split; [reflexivity|].
  apply (playMove_scores start (fst (playMove 2 4 start)) 2 4);
    [discriminate|reflexivity].
Defined.

End ScoreRules.

(* ------------------------------------------------------------------ *)
(** ** GameLogicService: the list of legal moves *)

Module MoveListFacts.
Import Logic LogicFacts PlayFacts.

Lemma StronglySorted_app {A} (R : A -> A -> Prop) l1 l2 :
  StronglySorted R l1 -> StronglySorted R l2 ->
  (forall a b, In a l1 -> In b l2 -> R a b) ->
  StronglySorted R (l1 ++ l2).
Proof.
  induction l1 as [|a t IH]; intros H1 H2 H12; [exact H2|].
  apply StronglySorted_inv in H1 as [Ht Ha].
  cbn [app]. constructor.
  - apply IH; auto. intros; apply H12; simpl; auto.
  - apply Forall_app. split; [assumption|].
    apply Forall_forall. intros b Hb. apply H12; simpl; auto.
Qed.

Lemma StronglySorted_filter {A} (R : A -> A -> Prop) (f : A -> bool) l :
  StronglySorted R l -> StronglySorted R (filter f l).
Proof.
  induction 1 as [|a t Ht IH Ha]; cbn [filter]; [constructor|].
  destruct (f a); [|assumption]. constructor; [assumption|].
  rewrite Forall_forall in *. intros b Hb. apply Ha.
  now apply filter_In in Hb.
Qed.

Lemma StronglySorted_map {A B} (R : A -> A -> Prop) (R' : B -> B -> Prop)
    (g : A -> B) l :
  (forall a b, R a b -> R' (g a) (g b)) ->
  StronglySorted R l -> StronglySorted R' (map g l).
Proof.
  intros Hg. induction 1 as [|a t Ht IH Ha]; cbn [map]; constructor;
    [assumption|].
  rewrite Forall_forall in *. intros b Hb.
  apply in_map_iff in Hb as (a' & <- & Ha'). auto.
Qed.

Lemma seq_sorted start len : StronglySorted lt (seq start len).
Proof.
  revert start. induction len as [|len IH]; intros start; cbn [seq];
    constructor; [apply IH|].
  apply Forall_forall. intros k Hk. apply in_seq in Hk. lia.
Qed.

Lemma upto_sorted n : StronglySorted Z.lt (upto n).
Proof.
  unfold upto. apply (StronglySorted_map lt); [lia|apply seq_sorted].
Qed.

Lemma scan_cols_closed s player x cols :
  forall moves moves',
    scan_cols s player x cols moves = Done moves' ->
    moves' = moves ++ map (mkMove x) (filter (kept s player x) cols).
Proof.
  induction cols as [|y rest IH]; intros moves moves'; cbn [scan_cols].
  - intros [= <-]. cbn [filter map]. now rewrite app_nil_r.
  - intros H. apply obind_Done in H as (ok & Hok & H).
    rewrite (IH _ _ H). cbn [filter]. unfold kept at 2. rewrite Hok.
    destruct ok; cbn [map]; [now rewrite <- app_assoc|reflexivity].
Qed.

Lemma scan_rows_closed s player rows :
  forall moves moves',
    scan_rows s player rows moves = Done moves' ->
    moves' = moves
             ++ flat_map (fun x => map (mkMove x)
                                       (filter (kept s player x)
                                               (upto s.(size)))) rows.
Proof.
  induction rows as [|x rest IH]; intros moves moves'; cbn [scan_rows].
  - intros [= <-]. cbn [flat_map]. now rewrite app_nil_r.
  - intros H. apply obind_Done in H as (m1 & Hm1 & H).
    rewrite (IH _ _ H), (scan_cols_closed _ _ _ _ _ _ Hm1).
    cbn [flat_map]. now rewrite <- app_assoc.
Qed.

Lemma blocks_sorted (f : Z -> Z -> bool) cols rows :
  StronglySorted Z.lt cols -> StronglySorted Z.lt rows ->
  StronglySorted move_lt
    (flat_map (fun x => map (mkMove x) (filter (f x) cols)) rows).
Proof.
  intros Hc. induction 1 as [|x rest Hrest IH Hx]; cbn [flat_map];
    [constructor|].
  apply StronglySorted_app; [|assumption|].
  - apply (StronglySorted_map Z.lt).
    + intros a b Hab. right. cbn [row col]. auto.
    + now apply StronglySorted_filter.
  - intros a b Ha Hb.
    apply in_map_iff in Ha as (ya & <- & _).
    apply in_flat_map in Hb as (x' & Hx' & Hb).
    apply in_map_iff in Hb as (yb & <- & _).
    left. cbn [row]. rewrite Forall_forall in Hx. now apply Hx.
Qed.

End MoveListFacts.

Module MoveListRules.
Import Logic LogicFacts PlayFacts MoveListFacts.

(** X3.  [getValidMoves] lists exactly the legal cells, once each, in
    row-major order: a move is in the list if and only if its coordinates
    are within [0, size) and [isValidMove] accepts it, and the list is
    strictly increasing in (row, col). *)
Theorem getValidMoves_exact
    (s : GameLogicService) (player : Player) (moves : list Move) :
  getValidMoves s player = Done moves ->
  (forall m, In m moves
             <-> 0 <= m.(row) < s.(size) /\ 0 <= m.(col) < s.(size)
                 /\ isValidMove s m.(row) m.(col) player = Done true)
  /\ StronglySorted move_lt moves
  /\ NoDup moves.
Proof.
  intros H. unfold getValidMoves in H.
  apply scan_rows_closed in H. cbn [app] in H. subst moves.
  assert (StronglySorted move_lt
            (flat_map (fun x => map (mkMove x)
                                    (filter (kept s player x)
                                            (upto (size s))))
                      (upto (size s)))) as Hs
    by (apply blocks_sorted; apply upto_sorted).
  split; [|split; [exact Hs|]].
  - intros m. rewrite in_flat_map. split.
    + intros (x & Hx & Hm). apply in_map_iff in Hm as (y & <- & Hy).
      apply filter_In in Hy as [Hy Hk]. cbn [row col].
      apply upto_In in Hx, Hy. repeat split; try lia.
      unfold kept in Hk.
      destruct (isValidMove s x y player) as [[|]|]; congruence.
    + intros (Hx & Hy & Hv). exists m.(row).
      split; [now apply upto_In|].
      apply in_map_iff. exists m.(col). split; [now destruct m|].
      apply filter_In. split; [now apply upto_In|].
      unfold kept. now rewrite Hv.
  - clear -Hs. induction Hs as [|a t Ht IH Ha]; constructor; [|assumption].
    intros Hin. rewrite Forall_forall in Ha. specialize (Ha a Hin).
    unfold move_lt in Ha. lia.
Qed.

Lemma getValidMoves_exact_witness :
  getValidMoves start P_player
  = Done [mkMove 2 4; mkMove 3 5; mkMove 4 2; mkMove 5 3]
  /\ StronglySorted move_lt
       [mkMove 2 4; mkMove 3 5; mkMove 4 2; mkMove 5 3].
Proof.
  split; [reflexivity|].
  apply (getValidMoves_exact start P_player
           [mkMove 2 4; mkMove 3 5; mkMove 4 2; mkMove 5 3] eq_refl).
Defined.

(** X4.  After a successful [playMove], [getFlippedPawns] hands out the
    captured discs in capture order followed by the placed disc; for each
    entry, [from] is what the cell held before the move and [to] what it
    holds after; the call empties the buffer and touches nothing else, so
    a second call returns the empty list. *)
Theorem getFlippedPawns_after_move (s s1 : GameLogicService) (x y : Z) :
  playMove x y s = (s1, Done true) ->
  exists found,
    getFlippableDiscs s x y s.(currentPlayer) = Done found
    /\ getFlippedPawns s1
       = (set_lastFlipped [] s1,
          Done (map (fun f => mkFlipped f.(r) f.(c)
                                (opponent_of s.(currentPlayer))
                                s.(currentPlayer)) found
                ++ [mkFlipped x y P_none s.(currentPlayer)]))
    /\ (forall p,
          In p (map (fun f => mkFlipped f.(r) f.(c)
                                (opponent_of s.(currentPlayer))
                                s.(currentPlayer)) found
                ++ [mkFlipped x y P_none s.(currentPlayer)]) ->
          cell s.(board) p.(fp_row) p.(fp_col) = Done (Some p.(from))
          /\ cell s1.(board) p.(fp_row) p.(fp_col) = Done (Some p.(to)))
    /\ getFlippedPawns (set_lastFlipped [] s1)
       = (set_lastFlipped [] s1, Done []).
Proof.
  intros Hplay.
  pose proof (playMove_true_inv _ _ _ _ Hplay) as Hv.
  destruct (isValidMove_true _ _ _ _ Hv) as (Hcell & _).
  destruct (playMove_valid _ _ _ Hv)
    as (found & b1 & b2 & Hf & Hne & Hrun & Hb2 & Heq).
  rewrite Heq in Hplay. injection Hplay as <-.
  exists found. split; [assumption|]. split; [reflexivity|].
  split; [|reflexivity].
  pose proof (getFlippableDiscs_discs _ _ _ _ _ Hf) as Hdiscs.
  destruct (flip_all_cells found s.(currentPlayer) s)
    as (b1' & Hrun' & _ & Hin & _).
  { intros d Hd. eexists. apply (Hdiscs d Hd). }
  assert (b1' = b1) as ->.
  { rewrite Hrun in Hrun'. injection Hrun' as E.
    destruct s; unfold set_board in E; simpl in *. congruence. }
  intros p Hp. cbn [board].
  apply in_app_or in Hp as [Hp|[<-|[]]].
  - apply in_map_iff in Hp as (d & <- & Hd). cbn [fp_row fp_col from to].
    split; [now apply Hdiscs|].
    rewrite (cell_assign_neq _ _ _ _ _ _ _ Hb2).
    + apply Hin. now destruct d.
    + intros [= E1 E2]. pose proof (Hdiscs d Hd) as Ho.
      rewrite E1, E2, Hcell in Ho. injection Ho as Ho.
      symmetry in Ho. revert Ho. apply opponent_of_side.
  - cbn [fp_row fp_col from to]. split; [assumption|].
    eapply cell_assign_eq; eauto.
Qed.

Lemma getFlippedPawns_after_move_witness :
  playMove 2 4 start = (fst (playMove 2 4 start), Done true)
  /\ exists found,
       getFlippableDiscs start 2 4 start.(currentPlayer) = Done found
       /\ getFlippedPawns (fst (playMove 2 4 start))
          = (set_lastFlipped [] (fst (playMove 2 4 start)),
             Done (map (fun f => mkFlipped f.(r) f.(c)
                                   (opponent_of start.(currentPlayer))
                                   start.(currentPlayer)) found
                   ++ [mkFlipped 2 4 P_none start.(currentPlayer)]))
       /\ (forall p,
             In p (map (fun f => mkFlipped f.(r) f.(c)
                                   (opponent_of start.(currentPlayer))
                                   start.(currentPlayer)) found
                   ++ [mkFlipped 2 4 P_none start.(currentPlayer)]) ->
             cell start.(board) p.(fp_row) p.(fp_col) = Done (Some p.(from))
             /\ cell (fst (playMove 2 4 start)).(board) p.(fp_row) p.(fp_col)
                = Done (Some p.(to)))
       /\ getFlippedPawns (set_lastFlipped [] (fst (playMove 2 4 start)))
          = (set_lastFlipped [] (fst (playMove 2 4 start)), Done []).
Proof.
  split; [reflexivity|].
  apply (getFlippedPawns_after_move start (fst (playMove 2 4 start)) 2 4).
  reflexivity.
Defined.

End MoveListRules.

(* ------------------------------------------------------------------ *)
(** ** GameLogicService: what every game keeps *)

Module GameFacts.
Import Logic LogicFacts PlayFacts LogicErrors.

Lemma Forall_set_nth {A} (P : A -> Prop) l n a :
  Forall P l -> P a -> Forall P (set_nth l n a).
Proof.
  intros Hl Ha. revert n.
  induction Hl as [|h t Hh Ht IH]; intros [|n]; cbn [set_nth];
    constructor; auto.
Qed.

Lemma assign_rows (n : Z) b x y v b' :
  assign b x y v = Done b' ->
  Forall (fun rowArr => Z.of_nat (length rowArr) = n) b ->
  Forall (fun rowArr => Z.of_nat (length rowArr) = n) b'.
Proof.
  intros Ha Hb. apply assign_inv in Ha as (rw & Hx & Hy & ->).
  apply Forall_set_nth; [assumption|].
  rewrite set_nth_length. rewrite Forall_forall in Hb. apply Hb.
  apply js_nth_nth_error in Hx. eapply nth_error_In; eauto.
Qed.

Lemma flip_all_rows flipped to_ :
  forall s s' o,
    flip_all flipped to_ s = (s', o) ->
    square s -> square s' /\ size s' = size s
                /\ currentPlayer s' = currentPlayer s
                /\ lastFlipped s' = lastFlipped s.
Proof.
  induction flipped as [|f rest IH]; intros s s' o; cbn [flip_all].
  - unfold ret. intros [= <- <-]. auto.
  - unfold bind, update_board.
    destruct (assign (board s) (r f) (c f) to_) as [b1|h] eqn:Hb1.
    + intros H Hsq. destruct (flip_all rest to_ (set_board b1 s))
        as [s2 o2] eqn:E.
      assert (s2 = s' /\ True) as [-> _]
        by (destruct o2; injection H as -> _; auto).
      destruct (IH _ _ _ E) as (H1 & H2 & H3 & H4); [|auto].
      destruct Hsq as [Hlen Hrows]. split; cbn [set_board board size].
      * rewrite (assign_length _ _ _ _ _ Hb1). exact Hlen.
      * eapply assign_rows; eauto.
    + intros [= <- <-]. auto.
Qed.

(** A square service stays square, of the same size, through [playMove],
    whatever the call returns. *)
Lemma playMove_square s x y s' o :
  playMove x y s = (s', o) -> square s ->
  square s' /\ size s' = size s.
Proof.
  intros Hplay Hsq.
  destruct (isValidMove s x y s.(currentPlayer)) as [[|]|h] eqn:Hv.
  - destruct (playMove_valid _ _ _ Hv)
      as (found & b1 & b2 & Hf & Hne & Hrun & Hb2 & Heq).
    rewrite Heq in Hplay. injection Hplay as <- <-.
    destruct (flip_all_rows _ _ _ _ _ Hrun Hsq) as ([Hlen Hrows] & _).
    cbn [set_board board size] in Hlen, Hrows.
    split; [|reflexivity]. split; cbn [board size].
    + rewrite (assign_length _ _ _ _ _ Hb2). exact Hlen.
    + eapply assign_rows; eauto.
  - rewrite (playMove_invalid _ _ _ Hv) in Hplay.
    injection Hplay as <- <-. auto.
  - rewrite (playMove_halts _ _ _ _ Hv) in Hplay.
    injection Hplay as <- <-. auto.
Qed.

Lemma sumZ_occ_le rowArr : 0 <= sumZ occ rowArr <= Z.of_nat (length rowArr).
Proof.
  induction rowArr as [|v t IH]; [rewrite sumZ_nil; simpl; lia|].
  rewrite sumZ_cons. cbn [length]. destruct v; cbn [occ]; lia.
Qed.

Lemma occupied_le n b :
  Forall (fun rowArr => Z.of_nat (length rowArr) = n) b ->
  0 <= occupied b <= Z.of_nat (length b) * n.
Proof.
  unfold occupied. induction 1 as [|rw t Hrw Ht IH];
    [rewrite sumZ_nil; simpl; lia|].
  rewrite sumZ_cons. cbn [length]. pose proof (sumZ_occ_le rw). nia.
Qed.

(** The board [initBoard] leaves for an even size of at least 2, as the
    four assignments build it. *)
Lemma initBoard_even n s :
  Z.even n = true -> 2 <= n ->
  exists b1 b2 b3 b4,
    assign (blank_grid n) (n / 2 - 1) (n / 2 - 1) P_player = Done b1
    /\ assign b1 (n / 2) (n / 2) P_player = Done b2
    /\ assign b2 (n / 2 - 1) (n / 2) P_ia = Done b3
    /\ assign b3 (n / 2) (n / 2 - 1) P_ia = Done b4
    /\ initBoard n s = (mkService b4 n P_player [], Done tt)
    /\ 2 * (n / 2) = n.
Proof.
  intros He Hn.
  assert (Z.even (n - 2) = true) as He2.
  { rewrite Z.even_sub, He. reflexivity. }
  assert ((n - 2) / 2 = n / 2 - 1) as Hk.
  { replace (n - 2) with (n + (-1) * 2) by lia.
    rewrite Z.div_add by lia. lia. }
  assert (n = 2 * (n / 2)) as Hn2.
  { pose proof He as He'. apply Z.even_spec in He' as [m Hm].
    assert (n / 2 = m) as ->; [|lia].
    rewrite Hm, Z.mul_comm. apply Z.div_mul. lia. }
  set (k := n / 2) in *.
  destruct (assign_on_board (blank_grid n) (k - 1) (k - 1) P_player)
    as [b1 H1]; [eexists; apply cell_blank_grid; lia|].
  assert (forall x y, 0 <= x < n -> 0 <= y < n -> on_board b1 x y) as Hon1.
  { intros. eapply assign_keeps_on_board; eauto.
    eexists; apply cell_blank_grid; lia. }
  destruct (assign_on_board b1 k k P_player) as [b2 H2]; [apply Hon1; lia|].
  assert (forall x y, 0 <= x < n -> 0 <= y < n -> on_board b2 x y) as Hon2.
  { intros. eapply assign_keeps_on_board; eauto. }
  destruct (assign_on_board b2 (k - 1) k P_ia) as [b3 H3];
    [apply Hon2; lia|].
  assert (forall x y, 0 <= x < n -> 0 <= y < n -> on_board b3 x y) as Hon3.
  { intros. eapply assign_keeps_on_board; eauto. }
  destruct (assign_on_board b3 k (k - 1) P_ia) as [b4 H4];
    [apply Hon3; lia|].
  exists b1, b2, b3, b4. repeat (split; [assumption|]).
  split; [|lia].
  unfold initBoard, bind, modify, update_board, set_size, set_board,
    set_currentPlayer, set_lastFlipped. cbn [board size currentPlayer
    lastFlipped fst snd].
  rewrite (half_even _ He), (half_even _ He2), Hk. fold k.
  fold (blank_grid n). unfold assign_num.
  rewrite H1. cbn [board]. rewrite H2. cbn [board]. rewrite H3.
  cbn [board]. rewrite H4. reflexivity.
Qed.

Lemma blank_grid_square n :
  0 <= n ->
  Z.of_nat (length (blank_grid n)) = n
  /\ Forall (fun rowArr => Z.of_nat (length rowArr) = n) (blank_grid n).
Proof.
  intros Hn. unfold blank_grid. rewrite repeat_length. split; [lia|].
  apply Forall_forall. intros rw Hrw. apply repeat_spec in Hrw. subst rw.
  rewrite repeat_length. lia.
Qed.

Lemma count_blank_grid p n :
  p <> P_none -> EvalSpec.count p (blank_grid n) = 0.
Proof.
  intros Hp. unfold EvalSpec.count, blank_grid.
  rewrite (GridSums.sumZ_ext _ (fun _ => 0)); [apply GridSums.sumZ_zero|].
  intros rw Hrw. apply repeat_spec in Hrw. subst rw.
  rewrite (GridSums.sumZ_ext _ (fun _ => 0)); [apply GridSums.sumZ_zero|].
  intros q Hq. apply repeat_spec in Hq. subst q.
  destruct p; try reflexivity. contradiction.
Qed.

(** The position [initBoard] leaves for an even size of at least 2. *)
Lemma initBoard_position n s :
  Z.even n = true -> 2 <= n ->
  square (fst (initBoard n s))
  /\ size (fst (initBoard n s)) = n
  /\ getScores (fst (initBoard n s)) = (2, 2)
  /\ currentPlayer (fst (initBoard n s)) = P_player.
Proof.
  intros He Hn.
  destruct (initBoard_even n s He Hn)
    as (b1 & b2 & b3 & b4 & H1 & H2 & H3 & H4 & Heq & Hk).
  rewrite Heq. cbn [fst snd size currentPlayer lastFlipped].
  destruct (blank_grid_square n) as [Hlen Hrows]; [lia|].
  split; [|split; [reflexivity|split; [|reflexivity]]].
  - split; cbn [board size].
    + rewrite (assign_length _ _ _ _ _ H4), (assign_length _ _ _ _ _ H3),
        (assign_length _ _ _ _ _ H2), (assign_length _ _ _ _ _ H1).
      exact Hlen.
    + eapply assign_rows; [exact H4|]. eapply assign_rows; [exact H3|].
      eapply assign_rows; [exact H2|]. eapply assign_rows; [exact H1|].
      exact Hrows.
  - rewrite ScoreFacts.getScores_counts. cbn [board].
    assert (cell (blank_grid n) (n / 2 - 1) (n / 2 - 1)
            = Done (Some P_none)) as C1 by (apply cell_blank_grid; lia).
    assert (cell b1 (n / 2) (n / 2) = Done (Some P_none)) as C2.
    { rewrite (cell_assign_neq _ _ _ _ _ _ _ H1) by (intros [=]; lia).
      apply cell_blank_grid; lia. }
    assert (cell b2 (n / 2 - 1) (n / 2) = Done (Some P_none)) as C3.
    { rewrite (cell_assign_neq _ _ _ _ _ _ _ H2) by (intros [=]; lia).
      rewrite (cell_assign_neq _ _ _ _ _ _ _ H1) by (intros [=]; lia).
      apply cell_blank_grid; lia. }
    assert (cell b3 (n / 2) (n / 2 - 1) = Done (Some P_none)) as C4.
    { rewrite (cell_assign_neq _ _ _ _ _ _ _ H3) by (intros [=]; lia).
      rewrite (cell_assign_neq _ _ _ _ _ _ _ H2) by (intros [=]; lia).
      rewrite (cell_assign_neq _ _ _ _ _ _ _ H1) by (intros [=]; lia).
      apply cell_blank_grid; lia. }
    rewrite !(ScoreFacts.count_assign _ _ _ _ _ _ _ H4 C4),
      !(ScoreFacts.count_assign _ _ _ _ _ _ _ H3 C3),
      !(ScoreFacts.count_assign _ _ _ _ _ _ _ H2 C2),
      !(ScoreFacts.count_assign _ _ _ _ _ _ _ H1 C1),
      !count_blank_grid by discriminate.
    reflexivity.
Qed.

End GameFacts.

Module GameRules.
Import Logic LogicFacts PlayFacts LogicErrors GameFacts.

(** X5.  For every even size of at least 2, and whatever the service held
    before, [initBoard] leaves a square board of that size with two discs
    for each side, 'player' to move and an empty animation buffer; the
    state it leaves does not depend on the state it found. *)
Theorem initBoard_start (n : Z) (s : GameLogicService) :
  Z.even n = true -> 2 <= n ->
  snd (initBoard n s) = Done tt
  /\ square (fst (initBoard n s))
  /\ size (fst (initBoard n s)) = n
  /\ getScores (fst (initBoard n s)) = (2, 2)
  /\ currentPlayer (fst (initBoard n s)) = P_player
  /\ lastFlipped (fst (initBoard n s)) = []
  /\ forall s0, initBoard n s0 = initBoard n s.
Proof.
  intros He Hn.
  destruct (initBoard_position n s He Hn) as (Hsq & Hsize & Hsc & Hcur).
  destruct (initBoard_even n s He Hn)
    as (b1 & b2 & b3 & b4 & H1 & H2 & H3 & H4 & Heq & Hk).
  split; [now rewrite Heq|].
  repeat (split; [assumption|]).
  split; [now rewrite Heq|].
  intros s0.
  destruct (initBoard_even n s0 He Hn)
    as (c1 & c2 & c3 & c4 & G1 & G2 & G3 & G4 & Geq & _).
  rewrite Geq, Heq. congruence.
Qed.

Lemma initBoard_start_witness :
  Z.even 8 = true /\ 2 <= 8
  /\ snd (initBoard 8 fresh) = Done tt
  /\ square (fst (initBoard 8 fresh))
  /\ size (fst (initBoard 8 fresh)) = 8
  /\ getScores (fst (initBoard 8 fresh)) = (2, 2)
  /\ currentPlayer (fst (initBoard 8 fresh)) = P_player
  /\ lastFlipped (fst (initBoard 8 fresh)) = []
  /\ forall s0, initBoard 8 s0 = initBoard 8 fresh.
Proof.
  split; [reflexivity|]. split; [lia|].
  apply (initBoard_start 8 fresh); [reflexivity|lia].
Defined.

(** What the actions of a game keep. *)
Lemma act_keeps a s :
  square s -> s.(currentPlayer) <> P_none ->
  square (act a s) /\ size (act a s) = size s
  /\ (act a s).(currentPlayer) <> P_none
  /\ occupied (act a s).(board)
     = occupied s.(board) + (if accepted a s then 1 else 0).
Proof.
  intros Hsq Hside. destruct a as [x y| | |]; cbn [act accepted].
  - destruct (playMove x y s) as [s' o] eqn:Hplay. cbn [fst snd].
    destruct (playMove_square _ _ _ _ _ Hplay Hsq) as [Hsq' Hsize].
    split; [assumption|]. split; [assumption|].
    destruct (isValidMove s x y s.(currentPlayer)) as [[|]|h] eqn:Hv.
    + destruct (playMove_valid _ _ _ Hv)
        as (found & b1 & b2 & Hf & Hne & Hrun & Hb2 & Heq).
      pose proof Hplay as Hplay'. rewrite Heq in Hplay'.
      injection Hplay' as <- <-. cbn [currentPlayer board].
      split; [apply opponent_of_side|].
      pose proof (getFlippableDiscs_discs _ _ _ _ _ Hf) as Hdiscs.
      destruct (isValidMove_true _ _ _ _ Hv) as (Hcell & _).
      destruct (flip_all_cells found s.(currentPlayer) s)
        as (b1' & Hrun' & _ & _ & Hout).
      { intros d Hd. eexists. apply (Hdiscs d Hd). }
      assert (b1' = b1) as ->.
      { rewrite Hrun in Hrun'. injection Hrun' as E.
        destruct s; unfold set_board in E; simpl in *. congruence. }
      assert (cell b1 x y = Done (Some P_none)) as Hb1.
      { rewrite Hout; [assumption|]. intros Hd.
        pose proof (Hdiscs _ Hd) as E. cbn [r c] in E. rewrite Hcell in E.
        injection E as E. symmetry in E. now apply opponent_of_side in E. }
      rewrite (occupied_assign _ _ _ _ _ _ Hb2 Hb1).
      rewrite (flip_all_occupied _ _ _ _ Hrun Hside).
      * destruct (currentPlayer s); cbn [occ]; congruence || lia.
      * intros d Hd. exists (opponent_of (currentPlayer s)).
        split; [now apply Hdiscs|apply opponent_of_side].
    + rewrite (playMove_invalid _ _ _ Hv) in Hplay.
      injection Hplay as <- <-. split; [assumption|lia].
    + rewrite (playMove_halts _ _ _ _ Hv) in Hplay.
      injection Hplay as <- <-. split; [assumption|lia].
  - repeat split; try apply Hsq; cbn; try discriminate; lia.
  - repeat split; try apply Hsq; cbn; try discriminate; lia.
  - repeat split; try apply Hsq; cbn; try assumption; lia.
Qed.

Lemma run_keeps acts :
  forall s,
    square s -> s.(currentPlayer) <> P_none ->
    square (fst (run acts s))
    /\ size (fst (run acts s)) = size s
    /\ (fst (run acts s)).(currentPlayer) <> P_none
    /\ occupied (fst (run acts s)).(board)
       = occupied s.(board) + Z.of_nat (snd (run acts s)).
Proof.
  induction acts as [|a rest IH]; intros s Hsq Hside; cbn [run].
  - cbn [fst snd]. repeat split; try apply Hsq; auto. simpl. lia.
  - destruct (act_keeps a s Hsq Hside) as (Hsq1 & Hsz1 & Hs1 & Ho1).
    destruct (IH (act a s) Hsq1 Hs1) as (Hsq2 & Hsz2 & Hs2 & Ho2).
    destruct (run rest (act a s)) as [s' k]. cbn [fst snd] in *.
    split; [assumption|]. split; [congruence|]. split; [assumption|].
    rewrite Ho2, Ho1. destruct (accepted a s); lia.
Qed.

(** X6.  A game cannot go on for ever.  From the position [initBoard]
    leaves on an even size [n >= 2], through any sequence of moves, turn
    hand-overs and buffer reads, the board stays an [n] x [n] square, the
    side to move stays one of the two sides, the number of discs is 4 plus
    the number of accepted moves, and so at most [n * n - 4] moves are
    ever accepted. *)
Theorem game_is_bounded (n : Z) (s : GameLogicService) (acts : list action) :
  Z.even n = true -> 2 <= n ->
  square (fst (run acts (fst (initBoard n s))))
  /\ size (fst (run acts (fst (initBoard n s)))) = n
  /\ (fst (run acts (fst (initBoard n s)))).(currentPlayer) <> P_none
  /\ fst (getScores (fst (run acts (fst (initBoard n s)))))
     + snd (getScores (fst (run acts (fst (initBoard n s)))))
     = 4 + Z.of_nat (snd (run acts (fst (initBoard n s))))
  /\ Z.of_nat (snd (run acts (fst (initBoard n s)))) <= n * n - 4.
Proof.
  intros He Hn.
  destruct (initBoard_position n s He Hn) as (Hsq & Hsize & Hscores & Hcur).
  destruct (run_keeps acts (fst (initBoard n s)) Hsq)
    as (Hsq' & Hsz' & Hs' & Ho'); [rewrite Hcur; discriminate|].
  assert (occupied (board (fst (initBoard n s))) = 4) as H4.
  { rewrite <- getScores_occupied, Hscores. reflexivity. }
  split; [assumption|]. split; [congruence|]. split; [assumption|].
  rewrite getScores_occupied, Ho', H4. split; [reflexivity|].
  destruct Hsq' as [Hlen Hrows].
  pose proof (occupied_le _ _ Hrows) as Hle.
  rewrite Hlen, Hsz', Hsize in Hle. lia.
Qed.

Lemma game_is_bounded_witness :
  Z.even 8 = true /\ 2 <= 8
  /\ Z.of_nat (snd (run [Play 2 4; Collect; Play 0 0; PassToIa; Play 2 3]
                        (fst (initBoard 8 fresh))))
     <= 8 * 8 - 4.
Proof.
  split; [reflexivity|]. split; [lia|].
  apply (game_is_bounded 8 fresh
           [Play 2 4; Collect; Play 0 0; PassToIa; Play 2 3]);
    [reflexivity|lia].
Defined.

End GameRules.

(* ------------------------------------------------------------------ *)
(** ** The two services agree *)

Module AgreeFacts.
Import LogicFacts PlayFacts AIFacts.

(** The read-only methods of the service look at [board] and [size]
    only. *)
Lemma walk_fields b n cp lf cp' lf' opp player dx dy fuel x y temp :
  Logic.walk (Logic.mkService b n cp lf) opp player dx dy fuel x y temp
  = Logic.walk (Logic.mkService b n cp' lf') opp player dx dy fuel x y temp.
Proof.
  revert x y temp.
  induction fuel as [|f IH]; intros x y temp; cbn [Logic.walk];
    unfold Logic.inBounds; cbn [Logic.board Logic.size]; [reflexivity|].
  destruct (_ && _); [|reflexivity].
  destruct (cell b x y) as [v|h]; cbn [obind]; [|reflexivity].
  destruct (same v opp); [apply IH|reflexivity].
Qed.

Lemma each_direction_fields b n cp lf cp' lf' opp player x y dirs res :
  Logic.each_direction (Logic.mkService b n cp lf) opp player x y dirs res
  = Logic.each_direction (Logic.mkService b n cp' lf') opp player x y dirs
                         res.
Proof.
  revert res. induction dirs as [|[dx dy] rest IH]; intros res;
    cbn [Logic.each_direction Logic.size]; [reflexivity|].
  rewrite (walk_fields b n cp lf cp' lf').
  destruct (Logic.walk _ _ _ _ _ _ _ _ _); cbn [obind];
    [apply IH|reflexivity].
Qed.

Lemma getFlippableDiscs_fields b n cp lf cp' lf' x y player :
  Logic.getFlippableDiscs (Logic.mkService b n cp lf) x y player
  = Logic.getFlippableDiscs (Logic.mkService b n cp' lf') x y player.
Proof. apply each_direction_fields. Qed.

Lemma isValidMove_fields b n cp lf cp' lf' x y player :
  Logic.isValidMove (Logic.mkService b n cp lf) x y player
  = Logic.isValidMove (Logic.mkService b n cp' lf') x y player.
Proof.
  unfold Logic.isValidMove. cbn [Logic.board].
  now rewrite (getFlippableDiscs_fields b n cp lf cp' lf').
Qed.

Lemma scan_cols_fields b n cp lf cp' lf' player x cols moves :
  Logic.scan_cols (Logic.mkService b n cp lf) player x cols moves
  = Logic.scan_cols (Logic.mkService b n cp' lf') player x cols moves.
Proof.
  revert moves. induction cols as [|y rest IH]; intros moves;
    cbn [Logic.scan_cols]; [reflexivity|].
  rewrite (isValidMove_fields b n cp lf cp' lf').
  destruct (Logic.isValidMove _ _ _ _); cbn [obind]; [apply IH|reflexivity].
Qed.

Lemma scan_rows_fields b n cp lf cp' lf' player rows moves :
  Logic.scan_rows (Logic.mkService b n cp lf) player rows moves
  = Logic.scan_rows (Logic.mkService b n cp' lf') player rows moves.
Proof.
  revert moves. induction rows as [|x rest IH]; intros moves;
    cbn [Logic.scan_rows Logic.size]; [reflexivity|].
  rewrite (scan_cols_fields b n cp lf cp' lf').
  destruct (Logic.scan_cols _ _ _ _ _); cbn [obind]; [apply IH|reflexivity].
Qed.

Lemma as_service_eq s :
  s.(Logic.size) = Z.of_nat (length s.(Logic.board)) ->
  exists cp lf,
    s = Logic.mkService s.(Logic.board) (Z.of_nat (length s.(Logic.board)))
                        cp lf.
Proof.
  intros Hs. destruct s as [b n cp lf]. cbn in *. subst n. eauto.
Qed.

(** Both services list the same legal moves. *)
Lemma getValidMoves_agree s player :
  s.(Logic.size) = Z.of_nat (length s.(Logic.board)) ->
  AI.getValidMoves s.(Logic.board) player = Logic.getValidMoves s player.
Proof.
  intros Hsize. destruct (as_service_eq s Hsize) as (cp & lf & Hs).
  rewrite getValidMoves_eq. rewrite Hs at 2. apply scan_rows_fields.
Qed.

(** The flips of [applyMove] are the flips of [playMove]. *)
Lemma flip_all_agree flips to_ :
  forall s s1,
    Logic.flip_all flips to_ s = (s1, Done tt) ->
    AI.flip_all s.(Logic.board) flips to_ = Done s1.(Logic.board).
Proof.
  induction flips as [|f rest IH]; intros s s1;
    cbn [Logic.flip_all AI.flip_all].
  - unfold Logic.ret. now intros [= <-].
  - unfold Logic.bind, Logic.update_board.
    destruct (assign (Logic.board s) (r f) (c f) to_) as [b1|h];
      [|discriminate].
    cbn [obind]. intros H.
    apply (IH (Logic.set_board b1 s) s1 H).
Qed.

End AgreeFacts.

Module AgreeRules.
Import LogicFacts PlayFacts AIFacts AgreeFacts.

(** X7.  On a service whose [size] is the number of rows of its board,
    the search service sees the game as the rules service does: both list
    the same legal moves in the same order for either side, both capture
    the same discs on an empty target, and [applyMove] on a move that
    [playMove] accepts yields the board [playMove] leaves. *)
Theorem search_sees_the_rules (s : Logic.GameLogicService) (player : Player) :
  s.(Logic.size) = Z.of_nat (length s.(Logic.board)) ->
  AI.getValidMoves s.(Logic.board) player = Logic.getValidMoves s player
  /\ (forall x y,
        cell s.(Logic.board) x y = Done (Some P_none) ->
        AI.getFlippableDiscs s.(Logic.board) x y player
        = Logic.getFlippableDiscs s x y player)
  /\ (forall x y s',
        Logic.playMove x y s = (s', Done true) ->
        AI.applyMove s.(Logic.board) x y s.(Logic.currentPlayer)
        = Done s'.(Logic.board)).
Proof.
  intros Hsize.
  destruct (as_service_eq s Hsize) as (cp & lf & Hs).
  assert (forall x y p,
            cell s.(Logic.board) x y = Done (Some P_none) ->
            AI.getFlippableDiscs s.(Logic.board) x y p
            = Logic.getFlippableDiscs s x y p) as Hcap.
  { intros x y p Hc. rewrite (getFlippableDiscs_eq _ _ _ _ Hc).
    rewrite Hs at 2. apply getFlippableDiscs_fields. }
  split; [|split; [intros; now apply Hcap|]].
  - now apply getValidMoves_agree.
  - intros x y s' Hplay.
    pose proof (playMove_true_inv _ _ _ _ Hplay) as Hv.
    destruct (isValidMove_true _ _ _ _ Hv) as (Hcell & _).
    destruct (playMove_valid _ _ _ Hv)
      as (found & b1 & b2 & Hf & Hne & Hrun & Hb2 & Heq).
    rewrite Heq in Hplay. injection Hplay as <-. cbn [Logic.board].
    unfold AI.applyMove. rewrite (Hcap _ _ _ Hcell), Hf. cbn [obind].
    rewrite map_id, (flip_all_agree _ _ _ _ Hrun).
    cbn [Logic.set_board Logic.board obind]. exact Hb2.
Qed.

Lemma search_sees_the_rules_witness :
  Logic.start.(Logic.size) = Z.of_nat (length Logic.start.(Logic.board))
  /\ AI.getValidMoves Logic.start.(Logic.board) P_ia
     = Logic.getValidMoves Logic.start P_ia.
Proof.
  split; [reflexivity|].
  apply (search_sees_the_rules Logic.start P_ia). reflexivity.
Defined.

End AgreeRules.

(* ------------------------------------------------------------------ *)
(** ** GameAIService: the evaluation is zero-sum *)

Module ZeroSum.
Import AIFacts GridSums EvalFacts.

Lemma opponent_twice root :
  root <> P_none -> AI.opponent (AI.opponent root) = root.
Proof. destruct root; intros H; try reflexivity. contradiction. Qed.

Lemma sign_opponent root v :
  root <> P_none ->
  EvalSpec.sign (AI.opponent root) v = - EvalSpec.sign root v.
Proof.
  intros Hr. unfold EvalSpec.sign. rewrite (opponent_twice root Hr).
  destruct v as [[]|]; destruct root; try reflexivity; contradiction.
Qed.

Lemma weigh_opponent board root w cells :
  root <> P_none ->
  sumZ (fun k => w * EvalSpec.sign (AI.opponent root)
                       (EvalSpec.at_cell board (fst k) (snd k))) cells
  = - sumZ (fun k => w * EvalSpec.sign root
                         (EvalSpec.at_cell board (fst k) (snd k))) cells.
Proof.
  intros Hr.
  rewrite (sumZ_ext _ (fun k => (-1) * (w * EvalSpec.sign root
                          (EvalSpec.at_cell board (fst k) (snd k))))).
  - rewrite sumZ_scale. lia.
  - intros k _. rewrite (sign_opponent root _ Hr). lia.
Qed.

Lemma corner_sum_multiple board root cells :
  exists k,
    sumZ (fun p => 30 * EvalSpec.sign root
                         (EvalSpec.at_cell board (fst p) (snd p))) cells
    = 30 * k.
Proof. eexists. apply sumZ_scale. Qed.

(** X8.  [evaluate] is zero-sum: on every board with at least two rows,
    the score from one side's perspective is the exact opposite of the
    score from the other side's. *)
Theorem evaluate_zero_sum (board : Board) (root : Player) :
  (2 <= length board)%nat -> root <> P_none ->
  exists v,
    AI.evaluate board root = Done v
    /\ AI.evaluate board (AI.opponent root) = Done (- v).
Proof.
  intros Hn Hr.
  destruct (ai_getValidMoves_total board root) as [mine Hmine].
  destruct (ai_getValidMoves_total board (AI.opponent root))
    as [theirs Htheirs].
  assert (forall x y, In (x, y) (AI.cornerCoords (Z.of_nat (length board)))
                      -> 0 <= x < Z.of_nat (length board)) as Hc.
  { intros x y Hin. unfold AI.cornerCoords in Hin. simpl in Hin.
    repeat (destruct Hin as [[= <- <-]|Hin]; [lia|]). contradiction. }
  assert (forall x y, In (x, y) (AI.xs (Z.of_nat (length board)))
                      -> 0 <= x < Z.of_nat (length board)) as Hx.
  { intros x y Hin. unfold AI.xs in Hin. simpl in Hin.
    repeat (destruct Hin as [[= <- <-]|Hin]; [lia|]). contradiction. }
  assert (forall x y, In (x, y) (AI.edge_cells (Z.of_nat (length board)))
                      -> 0 <= x < Z.of_nat (length board)) as He
    by (intros x y Hin; now apply edge_cells_rows in Hin).
  assert (forall x y, In (x, y) (AI.all_cells (Z.of_nat (length board)))
                      -> 0 <= x < Z.of_nat (length board)) as Ha
    by (intros x y Hin; now apply all_cells_In in Hin).
  eexists. split.
  - unfold AI.evaluate.
    rewrite (count_cells_sum _ _ _ _ Ha).
    cbn [obind AI.rootCount AI.oppCount AI.empties].
    rewrite Hmine, Htheirs. cbn [obind].
    rewrite (weigh_sum _ _ _ _ _ Hc). cbn [obind].
    rewrite (weigh_sum _ _ _ _ _ He). cbn [obind].
    rewrite (weigh_sum _ _ _ _ _ Hx). cbn [obind]. reflexivity.
  - unfold AI.evaluate.
    rewrite (count_cells_sum _ _ _ _ Ha).
    cbn [obind AI.rootCount AI.oppCount AI.empties].
    rewrite (opponent_twice root Hr), Hmine, Htheirs. cbn [obind].
    pose proof (weigh_sum board (AI.opponent root)) as Hw.
    rewrite (opponent_twice root Hr) in Hw.
    rewrite (Hw _ _ _ Hc). cbn [obind].
    rewrite (Hw _ _ _ He). cbn [obind].
    rewrite (Hw _ _ _ Hx). cbn [obind].
    rewrite !(weigh_opponent _ _ _ _ Hr). f_equal.
    destruct (corner_sum_multiple board root
                (AI.cornerCoords (Z.of_nat (length board)))) as [k ->].
    rewrite !Z.add_0_l.
    replace (50 * - (30 * k)) with ((- (50 * k)) * 30) by lia.
    replace (50 * (30 * k)) with ((50 * k) * 30) by lia.
    rewrite !Z.div_mul by lia.
    set (R := fun p => if same (EvalSpec.at_cell board (fst p) (snd p)) root
                       then 1 else 0).
    set (O := fun p => if same (EvalSpec.at_cell board (fst p) (snd p))
                               (AI.opponent root) then 1 else 0).
    assert (forall p : Z * Z, R p = 1 -> O p = 0) as Hex.
    { intros p. unfold R, O.
      destruct (EvalSpec.at_cell board (fst p) (snd p)) as [[]|];
        destruct root; cbn; congruence. }
    rewrite (sumZ_ext
               (fun p => if same (EvalSpec.at_cell board (fst p) (snd p))
                                 (AI.opponent root) then 0
                         else if same (EvalSpec.at_cell board (fst p) (snd p))
                                      root then 1 else 0) R).
    2:{ intros p _. specialize (Hex p). unfold R, O in *.
        destruct (same _ (AI.opponent root)), (same _ root); try reflexivity.
        specialize (Hex eq_refl). discriminate. }
    rewrite (sumZ_ext
               (fun p => if same (EvalSpec.at_cell board (fst p) (snd p))
                                 root then 0
                         else if same (EvalSpec.at_cell board (fst p) (snd p))
                                      (AI.opponent root) then 1 else 0) O).
    2:{ intros p _. specialize (Hex p). unfold R, O in *.
        destruct (same _ (AI.opponent root)), (same _ root); try reflexivity.
        specialize (Hex eq_refl). discriminate. }
    rewrite (sumZ_ext
               (fun p => if same (EvalSpec.at_cell board (fst p) (snd p))
                                 (AI.opponent root) then 0
                         else if same (EvalSpec.at_cell board (fst p) (snd p))
                                      root then 0 else 1)
               (fun p => if same (EvalSpec.at_cell board (fst p) (snd p))
                                 root then 0
                         else if same (EvalSpec.at_cell board (fst p) (snd p))
                                      (AI.opponent root) then 0 else 1)).
    2:{ intros p _.
        destruct (same _ (AI.opponent root)), (same _ root); reflexivity. }
    fold R. fold O.
    destruct (_ <=? 12); lia.
Qed.

Lemma evaluate_zero_sum_witness :
  (2 <= length pass_board)%nat /\ P_ia <> P_none
  /\ exists v,
       AI.evaluate pass_board P_ia = Done v
       /\ AI.evaluate pass_board (AI.opponent P_ia) = Done (- v).
Proof.
  split; [simpl; lia|]. split; [discriminate|].
  apply (evaluate_zero_sum pass_board P_ia); [simpl; lia|discriminate].
Defined.

End ZeroSum.

(* ------------------------------------------------------------------ *)
(** ** Doubles: the rounded product of a draw and an array length *)

Module DoubleFacts.

Lemma pow2_pos e : (0 < 2 ^ e)%Q.
Proof. apply Qpower_0_lt. reflexivity. Qed.

Lemma pow2_add a b : (2 ^ (a + b) == 2 ^ a * 2 ^ b)%Q.
Proof. apply Qpower_plus. discriminate. Qed.

Lemma pow2_Z k : 0 <= k -> (inject_Z (2 ^ k) == 2 ^ k)%Q.
Proof. intros Hk. now rewrite Zpower_Qpower. Qed.

Lemma pow2_le a b : a <= b -> (2 ^ a <= 2 ^ b)%Q.
Proof. intros H. apply Qpower_le_compat_l; [assumption|discriminate]. Qed.

Lemma pow2_step d : 1 <= d -> 2 ^ (Z.succ d - 1) = 2 * 2 ^ (d - 1).
Proof.
  intros Hd. replace (Z.succ d - 1) with (Z.succ (d - 1)) by lia.
  apply Z.pow_succ_r. lia.
Qed.

Lemma digits2_bounds p :
  2 ^ (Zpos (digits2_pos p) - 1) <= Zpos p < 2 ^ Zpos (digits2_pos p).
Proof.
  induction p as [p IH|p IH|]; cbn [digits2_pos].
  - rewrite Pos2Z.inj_succ, Pos2Z.inj_xI.
    rewrite pow2_step, Z.pow_succ_r by lia.
    generalize dependent (2 ^ (Z.pos (digits2_pos p) - 1)).
    generalize dependent (2 ^ Z.pos (digits2_pos p)). intros; lia.
  - rewrite Pos2Z.inj_succ. change (Z.pos p~0) with (2 * Z.pos p).
    rewrite pow2_step, Z.pow_succ_r by lia.
    generalize dependent (2 ^ (Z.pos (digits2_pos p) - 1)).
    generalize dependent (2 ^ Z.pos (digits2_pos p)). intros; lia.
  - cbn. lia.
Qed.

Lemma shr_1_fields mrs :
  0 <= shr_m mrs ->
  shr_m (shr_1 mrs) = Z.shiftr (shr_m mrs) 1
  /\ shr_r (shr_1 mrs) = Z.testbit (shr_m mrs) 0.
Proof.
  destruct mrs as [m r s]. cbn [shr_m]. intros Hm.
  destruct m as [|[p|p|]|]; try lia; cbn; auto.
Qed.

Lemma iter_shr_fields p :
  forall mrs,
    0 <= shr_m mrs ->
    shr_m (iter_pos shr_1 p mrs) = Z.shiftr (shr_m mrs) (Zpos p)
    /\ shr_r (iter_pos shr_1 p mrs) = Z.testbit (shr_m mrs) (Zpos p - 1).
Proof.
  induction p as [p IH|p IH|]; intros mrs Hm; cbn [iter_pos].
  - destruct (shr_1_fields mrs Hm) as [H1 _].
    assert (0 <= shr_m (shr_1 mrs)) as Hm1
      by (rewrite H1; now apply Z.shiftr_nonneg).
    destruct (IH _ Hm1) as [H2 _].
    assert (0 <= shr_m (iter_pos shr_1 p (shr_1 mrs))) as Hm2
      by (rewrite H2; now apply Z.shiftr_nonneg).
    destruct (IH _ Hm2) as [H3 H4]. rewrite H3, H4, H2, H1. split.
    + rewrite !Z.shiftr_shiftr by lia. f_equal. lia.
    + rewrite Z.shiftr_spec by lia. rewrite Z.shiftr_spec by lia.
      f_equal. lia.
  - destruct (IH _ Hm) as [H2 _].
    assert (0 <= shr_m (iter_pos shr_1 p mrs)) as Hm2
      by (rewrite H2; now apply Z.shiftr_nonneg).
    destruct (IH _ Hm2) as [H3 H4]. rewrite H3, H4, H2. split.
    + rewrite !Z.shiftr_shiftr by lia. f_equal. lia.
    + rewrite Z.shiftr_spec by lia. f_equal. lia.
  - apply (shr_1_fields mrs Hm).
Qed.

(** Rounding to nearest adds at most half a unit. *)
Lemma round_up_bound M p :
  0 <= M -> 1 <= p ->
  2 * (Z.shiftr M p + (if Z.testbit M (p - 1) then 1 else 0)) * 2 ^ p
  <= 2 * M + 2 ^ p.
Proof.
  intros HM Hp.
  assert (Z.shiftr M p = Z.shiftr (Z.shiftr M (p - 1)) 1) as ->
    by (rewrite Z.shiftr_shiftr by lia; f_equal; lia).
  rewrite Z.testbit_odd.
  set (a := Z.shiftr M (p - 1)).
  assert (2 ^ (p - 1) * a <= M) as Hle.
  { subst a. rewrite Z.shiftr_div_pow2 by lia.
    apply Z.mul_div_le. apply Z.pow_pos_nonneg; lia. }
  assert (2 ^ p = 2 * 2 ^ (p - 1)) as ->.
  { replace p with (Z.succ (p - 1)) at 1 by lia.
    now rewrite Z.pow_succ_r by lia. }
  assert (0 < 2 ^ (p - 1)) as Hpos by (apply Z.pow_pos_nonneg; lia).
  rewrite <- Z.div2_spec.
  pose proof (Z.div2_odd a) as Ha.
  destruct (Z.odd a); cbn [Z.b2z] in Ha; nia.
Qed.

Lemma round_nearest_even_le res :
  shr_m res
  <= round_nearest_even (shr_m res) (loc_of_shr_record res)
  <= shr_m res + (if shr_r res then 1 else 0).
Proof.
  destruct res as [m [|] [|]]; cbn; try lia.
  destruct (Z.even m); lia.
Qed.

Lemma shr_fexp_exact m e :
  0 <= m ->
  exists res,
    shr_fexp 53 1024 m e loc_Exact
    = (res, e + Z.max 0 (fexp 53 1024 (Zdigits2 m + e) - e))
    /\ 0 <= shr_m res
    /\ (fexp 53 1024 (Zdigits2 m + e) - e <= 0 ->
        res = Build_shr_record m false false)
    /\ (1 <= fexp 53 1024 (Zdigits2 m + e) - e ->
        shr_m res = Z.shiftr m (fexp 53 1024 (Zdigits2 m + e) - e)
        /\ shr_r res
           = Z.testbit m (fexp 53 1024 (Zdigits2 m + e) - e - 1)).
Proof.
  intros Hm. unfold shr_fexp, shr. cbn [shr_record_of_loc].
  destruct (fexp 53 1024 (Zdigits2 m + e) - e) as [|p|p] eqn:Hp.
  - eexists. split; [f_equal; lia|]. cbn [shr_m].
    repeat split; auto; lia.
  - destruct (iter_shr_fields p (Build_shr_record m false false) Hm)
      as [H1 H2]. cbn [shr_m] in H1, H2.
    eexists. split; [f_equal; lia|]. split.
    + rewrite H1. now apply Z.shiftr_nonneg.
    + split; [lia|]. intros _. now split.
  - eexists. split; [f_equal; lia|]. cbn [shr_m].
    repeat split; auto; lia.
Qed.

Lemma scale_le a b k e :
  0 <= k -> a * 2 ^ k <= b ->
  (inject_Z a * 2 ^ (e + k) <= inject_Z b * 2 ^ e)%Q.
Proof.
  intros Hk Hab. rewrite pow2_add, <- (pow2_Z k Hk).
  rewrite Zle_Qle in Hab. rewrite inject_Z_mult in Hab.
  pose proof (pow2_pos e) as He.
  setoid_replace (inject_Z a * (2 ^ e * inject_Z (2 ^ k)))%Q
    with (inject_Z a * inject_Z (2 ^ k) * 2 ^ e)%Q by ring.
  apply Qmult_le_compat_r; [assumption|]. now apply Qlt_le_weak.
Qed.

(** The second normalisation only drops low bits. *)
Lemma renormalise_le m1 e1 :
  0 <= m1 ->
  exists res,
    shr_fexp 53 1024 m1 e1 loc_Exact
    = (res, e1 + Z.max 0 (fexp 53 1024 (Zdigits2 m1 + e1) - e1))
    /\ 0 <= shr_m res
    /\ (inject_Z (shr_m res)
        * 2 ^ (e1 + Z.max 0 (fexp 53 1024 (Zdigits2 m1 + e1) - e1))
        <= inject_Z m1 * 2 ^ e1)%Q.
Proof.
  intros Hm.
  destruct (shr_fexp_exact m1 e1 Hm) as (res & Heq & Hpos & Hno & Hyes).
  exists res. split; [assumption|]. split; [assumption|].
  apply scale_le; [lia|].
  destruct (Z_le_gt_dec (fexp 53 1024 (Zdigits2 m1 + e1) - e1) 0) as [Hq|Hq].
  - rewrite (Hno Hq). cbn [shr_m]. rewrite Z.max_l by lia. cbn. lia.
  - destruct Hyes as [-> _]; [lia|]. rewrite Z.max_r by lia.
    rewrite Z.shiftr_div_pow2 by lia. rewrite Z.mul_comm.
    apply Z.mul_div_le. apply Z.pow_pos_nonneg; lia.
Qed.

(** What [binary_round_aux] returns on an exact positive product, and
    how far above the product it can lie: a relative 2^-53 in the normal
    range, an absolute 2^-1075 in the subnormal one. *)
Lemma round_aux_bound sx M E :
  exists m2 e2,
    0 <= m2
    /\ binary_round_aux 53 1024 sx (Zpos M) E loc_Exact
       = match m2 with
         | Z0 => S754_zero sx
         | Zpos m => if e2 <=? 1024 - 53 then S754_finite sx m e2
                     else S754_infinity sx
         | Zneg _ => S754_nan
         end
    /\ ((inject_Z m2 * 2 ^ e2
         <= inject_Z (Zpos M) * 2 ^ E * (1 + 2 ^ (-53)))%Q
        \/ (inject_Z m2 * 2 ^ e2
            <= inject_Z (Zpos M) * 2 ^ E + 2 ^ (-1075))%Q).
Proof.
  destruct (shr_fexp_exact (Zpos M) E ltac:(lia))
    as (res1 & Heq1 & Hpos1 & Hno & Hyes).
  set (p := fexp 53 1024 (Zdigits2 (Zpos M) + E) - E) in *.
  set (m1 := round_nearest_even (shr_m res1) (loc_of_shr_record res1)).
  pose proof (round_nearest_even_le res1) as Hm1. fold m1 in Hm1.
  destruct (renormalise_le m1 (E + Z.max 0 p) ltac:(lia))
    as (res2 & Heq2 & Hpos2 & Hle2).
  eexists (shr_m res2), _. split; [assumption|]. split.
  { unfold binary_round_aux. rewrite Heq1. fold m1. rewrite Heq2.
    reflexivity. }
  pose proof (pow2_pos E) as HE.
  assert (0 <= inject_Z (Zpos M) * 2 ^ E)%Q as HV.
  { apply Qmult_le_0_compat; [|now apply Qlt_le_weak].
    change 0%Q with (inject_Z 0). rewrite <- Zle_Qle. lia. }
  destruct (Z_le_gt_dec p 0) as [Hp|Hp].
  - (* no bit is dropped: the product is returned as it is *)
    left. eapply Qle_trans; [exact Hle2|].
    assert (m1 = Zpos M) as ->.
    { unfold m1. rewrite (Hno Hp). reflexivity. }
    rewrite Z.max_l by lia. rewrite Z.add_0_r.
    pose proof (pow2_pos (-53)) as He.
    setoid_replace (inject_Z (Zpos M) * 2 ^ E * (1 + 2 ^ (-53)))%Q
      with (inject_Z (Zpos M) * 2 ^ E
            + inject_Z (Zpos M) * 2 ^ E * 2 ^ (-53))%Q by ring.
    assert (0 <= inject_Z (Zpos M) * 2 ^ E * 2 ^ (-53))%Q
      by (apply Qmult_le_0_compat; [assumption|now apply Qlt_le_weak]).
    lra.
  - destruct Hyes as [Hm Hr]; [lia|].
    rewrite Z.max_r in * by lia.
    assert (2 * m1 * 2 ^ p <= 2 * Zpos M + 2 ^ p) as Hup.
    { pose proof (round_up_bound (Zpos M) p ltac:(lia) ltac:(lia)) as Hb.
      rewrite <- Hm, <- Hr in Hb.
      assert (0 < 2 ^ p) by (apply Z.pow_pos_nonneg; lia). nia. }
    assert (inject_Z m1 * 2 ^ (E + p)
            <= inject_Z (Zpos M) * 2 ^ E + 2 ^ (E + p) * (1 # 2))%Q as Hq.
    { rewrite !pow2_add, <- (pow2_Z p) by lia.
      rewrite Zle_Qle in Hup.
      rewrite inject_Z_plus, !inject_Z_mult in Hup.
      change (inject_Z 2) with 2%Q in Hup.
      assert (inject_Z m1 * inject_Z (2 ^ p) * 2 ^ E
              <= (inject_Z (Zpos M)
                  + inject_Z (2 ^ p) * (1 # 2)) * 2 ^ E)%Q as Hs.
      { apply Qmult_le_compat_r; [lra|now apply Qlt_le_weak]. }
      lra. }
    assert (E + p = Z.max (Zpos (digits2_pos M) + E - 53) (-1074)) as Hfexp.
    { unfold p, fexp, emin. cbn [Zdigits2]. lia. }
    destruct (Z_le_gt_dec (-1074) (Zpos (digits2_pos M) + E - 53))
      as [Hn|Hn].
    + left. eapply Qle_trans; [exact Hle2|].
      eapply Qle_trans; [exact Hq|].
      rewrite Hfexp, Z.max_l by lia.
      pose proof (digits2_bounds M) as [Hlo _].
      assert (2 ^ (Zpos (digits2_pos M) + E - 53) * (1 # 2)
              <= inject_Z (Zpos M) * 2 ^ E * 2 ^ (-53))%Q as Hhalf.
      { replace (Zpos (digits2_pos M) + E - 53)
          with ((Zpos (digits2_pos M) - 1) + E + (-53) + 1) by lia.
        rewrite !pow2_add. change (2 ^ 1)%Q with 2%Q.
        rewrite Zle_Qle in Hlo. rewrite pow2_Z in Hlo by lia.
        pose proof (pow2_pos (-53)) as He.
        assert (2 ^ (Zpos (digits2_pos M) - 1) * 2 ^ E
                <= inject_Z (Zpos M) * 2 ^ E)%Q as H1
          by (apply Qmult_le_compat_r; [assumption|now apply Qlt_le_weak]).
        assert (2 ^ (Zpos (digits2_pos M) - 1) * 2 ^ E * 2 ^ (-53)
                <= inject_Z (Zpos M) * 2 ^ E * 2 ^ (-53))%Q as H2
          by (apply Qmult_le_compat_r; [assumption|now apply Qlt_le_weak]).
        lra. }
      lra.
    + right. eapply Qle_trans; [exact Hle2|].
      eapply Qle_trans; [exact Hq|].
      rewrite Hfexp, Z.max_r by lia.
      replace (-1074) with (-1075 + 1) by lia.
      rewrite pow2_add. change (2 ^ 1)%Q with 2%Q. lra.
Qed.

Lemma shiftl_le_value a e :
  0 <= a -> (inject_Z (Z.shiftl a e) <= inject_Z a * 2 ^ e)%Q.
Proof.
  intros Ha. destruct (Z_le_gt_dec 0 e) as [He|He].
  - rewrite Z.shiftl_mul_pow2, inject_Z_mult, pow2_Z by lia.
    apply Qle_refl.
  - rewrite <- (Z.shiftr_opp_r a e).
    setoid_replace (inject_Z (Z.shiftr a (- e)))
      with (inject_Z (Z.shiftr a (- e)) * 2 ^ (e + - e))%Q.
    + apply scale_le; [lia|].
      rewrite Z.shiftr_div_pow2 by lia. rewrite Z.mul_comm.
      apply Z.mul_div_le. apply Z.pow_pos_nonneg; lia.
    + rewrite Z.add_opp_diag_r. change (2 ^ 0)%Q with 1%Q. ring.
Qed.

Lemma of_int_1 : of_int 1 = S754_finite false 4503599627370496 (-52).
Proof. reflexivity. Qed.

Lemma eps_value : (2 ^ (-53) == 1 # 9007199254740992)%Q.
Proof. reflexivity. Qed.

(** A draw in [0, 1): zero, or a positive double of at most
    1 - 2^-53. *)
Lemma unit64_inv u :
  unit64 u = true ->
  (exists s, u = S754_zero s)
  \/ exists m e,
       u = S754_finite false m e
       /\ (inject_Z (Zpos m) * 2 ^ e <= 1 - 2 ^ (-53))%Q.
Proof.
  unfold unit64. rewrite of_int_1.
  intros [[Hvalid Hpos]%andb_true_iff Hlt]%andb_true_iff.
  destruct u as [s|[|]| |s m e]; try discriminate; [left; now exists s|].
  right. destruct s; [discriminate|]. exists m, e. split; [reflexivity|].
  cbn [valid_binary] in Hvalid. unfold bounded, canonical_mantissa in Hvalid.
  apply andb_true_iff in Hvalid as [Hcanon _].
  apply Z.eqb_eq in Hcanon. unfold fexp, emin in Hcanon.
  pose proof (digits2_bounds m) as [_ Hhi].
  assert (Zpos m < 2 ^ 53) as Hm.
  { eapply Z.lt_le_trans; [exact Hhi|].
    apply Z.pow_le_mono_r; lia. }
  remember 4503599627370496%positive as q eqn:Hq52.
  unfold SFltb, SFcompare in Hlt.
  pose proof (pow2_pos e) as He.
  destruct (Z.compare_spec e (-52)) as [->|Hlt52|Hgt]; try discriminate.
  - (* e = -52 and the mantissa is below 2^52 *)
    assert (Zpos m < 4503599627370496) as Hm52.
    { destruct (Pos.compare_cont Eq m q) eqn:Hc; try discriminate.
      pose proof (proj1 (Pos.compare_lt_iff m q) Hc) as Hmq.
      apply Pos2Z.pos_lt_pos in Hmq. now rewrite Hq52 in Hmq. }
    clear Hlt.
    assert (inject_Z (Zpos m) <= 4503599627370495)%Q as Hq.
    { change 4503599627370495%Q with (inject_Z 4503599627370495).
      rewrite <- Zle_Qle. lia. }
    assert (2 ^ (-52) == 1 # 4503599627370496)%Q as -> by reflexivity.
    rewrite eps_value.
    assert (inject_Z (Zpos m) * (1 # 4503599627370496)
            <= 4503599627370495 * (1 # 4503599627370496))%Q as Hs
      by (apply Qmult_le_compat_r; [assumption|discriminate]).
    eapply Qle_trans; [exact Hs|]. discriminate.
  - assert (2 ^ e <= 2 ^ (-53))%Q as Hpow by (apply pow2_le; lia).
    assert (inject_Z (Zpos m) <= 9007199254740991)%Q as Hq.
    { change 9007199254740991%Q with (inject_Z 9007199254740991).
      rewrite <- Zle_Qle. lia. }
    assert (0 <= inject_Z (Zpos m))%Q as Hq0.
    { change 0%Q with (inject_Z 0). rewrite <- Zle_Qle. lia. }
    assert (inject_Z (Zpos m) * 2 ^ e <= inject_Z (Zpos m) * 2 ^ (-53))%Q
      as H1.
    { rewrite !(Qmult_comm (inject_Z (Zpos m))).
      apply Qmult_le_compat_r; assumption. }
    assert (inject_Z (Zpos m) * 2 ^ (-53)
            <= 9007199254740991 * 2 ^ (-53))%Q as H2.
    { apply Qmult_le_compat_r; [assumption|].
      apply Qlt_le_weak, pow2_pos. }
    eapply Qle_trans; [exact H1|]. eapply Qle_trans; [exact H2|].
    rewrite eps_value. discriminate.
Qed.

Lemma iter_xO k p :
  Zpos (Pos.iter xO p k) = Zpos p * 2 ^ Zpos k
  /\ Zpos (digits2_pos (Pos.iter xO p k))
     = Zpos (digits2_pos p) + Zpos k.
Proof.
  induction k as [|k [IH1 IH2]] using Pos.peano_ind.
  - cbn [Pos.iter digits2_pos]. split; [|lia].
    change (Z.pos p~0) with (2 * Z.pos p). change (2 ^ 1) with 2. lia.
  - rewrite Pos.iter_succ. cbn [digits2_pos]. split.
    + change (Z.pos (Pos.iter xO p k)~0) with (2 * Z.pos (Pos.iter xO p k)).
      rewrite IH1, Pos2Z.inj_succ, Z.pow_succ_r by lia. lia.
    + rewrite Pos2Z.inj_succ, IH2, Pos2Z.inj_succ. lia.
Qed.

(** A mantissa of 53 bits with an exponent in range is returned as it
    is. *)
Lemma round_aux_exact s m e :
  Zpos (digits2_pos m) = 53 -> -1074 <= e <= 971 ->
  binary_round_aux 53 1024 s (Zpos m) e loc_Exact = S754_finite s m e.
Proof.
  intros Hd He.
  assert (fexp 53 1024 (Zdigits2 (Zpos m) + e) - e = 0) as Hp.
  { unfold fexp, emin. cbn [Zdigits2]. lia. }
  destruct (shr_fexp_exact (Zpos m) e ltac:(lia))
    as (res & Heq & _ & Hno & _).
  rewrite (Hno ltac:(lia)), Hp in Heq. cbn [Z.max Z.compare] in Heq.
  rewrite Z.add_0_r in Heq.
  unfold binary_round_aux. rewrite Heq.
  cbn [shr_m loc_of_shr_record round_nearest_even]. rewrite Heq.
  cbn [shr_m].
  destruct (Z.leb_spec e (1024 - 53)); [reflexivity|lia].
Qed.

(** The double of an integer below 2^53 is that integer. *)
Lemma of_int_value n :
  1 <= n < 2 ^ 53 ->
  exists m e,
    of_int n = S754_finite false m e
    /\ (inject_Z (Zpos m) * 2 ^ e == inject_Z n)%Q.
Proof.
  intros [Hlo Hhi]. destruct n as [|p|p]; try lia.
  unfold of_int, binary_normalize, binary_round, shl_align.
  pose proof (digits2_bounds p) as [Hd _].
  assert (Zpos (digits2_pos p) <= 53) as Hd53.
  { destruct (Z_le_gt_dec (Zpos (digits2_pos p)) 53) as [|Hgt];
      [assumption|].
    assert (2 ^ 53 <= 2 ^ (Zpos (digits2_pos p) - 1))
      by (apply Z.pow_le_mono_r; lia).
    lia. }
  assert (fexp 53 1024 (Zpos (digits2_pos p) + 0)
          = Zpos (digits2_pos p) - 53) as ->
    by (unfold fexp, emin; lia).
  destruct (Zpos (digits2_pos p) - 53 - 0) as [|k|k] eqn:Hk; try lia.
  - exists p, 0. split; [apply round_aux_exact; lia|].
    change (2 ^ 0)%Q with 1%Q. ring.
  - destruct (iter_xO k p) as [Hv Hdig].
    exists (Pos.iter xO p k), (Zpos (digits2_pos p) - 53).
    split; [apply round_aux_exact; lia|].
    rewrite Hv, inject_Z_mult, pow2_Z by lia.
    replace (Zpos (digits2_pos p) - 53) with (- Zpos k) by lia.
    rewrite <- Qmult_assoc, <- pow2_add, Z.add_opp_diag_r.
    change (2 ^ 0)%Q with 1%Q. ring.
Qed.

(** [Math.floor(u * n)] for a draw [u] in [0, 1) and an array length [n]
    is an index of the array: the rounding of the product never reaches
    [n]. *)
Lemma unit_index u n :
  unit64 u = true -> 1 <= n < 2 ^ 53 ->
  exists i,
    floor64 (SFmul 53 1024 u (of_int n)) = Some i /\ 0 <= i < n.
Proof.
  intros Hu Hn.
  destruct (of_int_value n Hn) as (my & ey & -> & Hy).
  destruct (unit64_inv u Hu) as [[s ->]|(mu & eu & -> & Hub)].
  { exists 0. split; [reflexivity|lia]. }
  cbn [SFmul xorb].
  destruct (round_aux_bound false (mu * my) (eu + ey))
    as (m2 & e2 & Hm2 & -> & Hbound).
  assert (inject_Z (Zpos (mu * my)) * 2 ^ (eu + ey)
          == inject_Z (Zpos mu) * 2 ^ eu * inject_Z n)%Q as HV.
  { rewrite Pos2Z.inj_mul, inject_Z_mult, pow2_add, <- Hy. ring. }
  assert (1 <= inject_Z n)%Q as Hn1
    by (change 1%Q with (inject_Z 1); rewrite <- Zle_Qle; lia).
  assert (0 <= inject_Z (Zpos mu) * 2 ^ eu)%Q as Hu0.
  { apply Qmult_le_0_compat; [|apply Qlt_le_weak, pow2_pos].
    change 0%Q with (inject_Z 0). rewrite <- Zle_Qle. lia. }
  assert (inject_Z m2 * 2 ^ e2 < inject_Z n)%Q as Hr.
  { rewrite HV in Hbound. rewrite eps_value in Hub, Hbound.
    set (U := (inject_Z (Zpos mu) * 2 ^ eu)%Q) in *.
    set (N := inject_Z n) in *.
    assert (2 ^ (-1075) < 1 # 9007199254740992)%Q as Hdelta
      by reflexivity.
    assert (U * N <= (1 - (1 # 9007199254740992)) * N)%Q as HUN
      by (apply Qmult_le_compat_r; [assumption|lra]).
    destruct Hbound as [Hb|Hb].
    - assert (U * N * (1 + (1 # 9007199254740992))
              <= (1 - (1 # 9007199254740992)) * N
                 * (1 + (1 # 9007199254740992)))%Q as H2
        by (apply Qmult_le_compat_r; [assumption|discriminate]).
      lra.
    - lra. }
  destruct m2 as [|m|m]; try lia.
  { exists 0. split; [reflexivity|lia]. }
  assert (e2 <= 1024 - 53) as He2.
  { destruct (Z_le_gt_dec e2 (1024 - 53)) as [|Hgt]; [assumption|].
    exfalso.
    assert (2 ^ 53 <= 2 ^ e2)%Q as Hp by (apply pow2_le; lia).
    assert (1 <= inject_Z (Zpos m))%Q as Hm1
      by (change 1%Q with (inject_Z 1); rewrite <- Zle_Qle; lia).
    assert (1 * 2 ^ e2 <= inject_Z (Zpos m) * 2 ^ e2)%Q as Hmul
      by (apply Qmult_le_compat_r; [assumption|apply Qlt_le_weak, pow2_pos]).
    assert (inject_Z n < 2 ^ 53)%Q as Hn53.
    { rewrite <- pow2_Z by lia. rewrite <- Zlt_Qlt. lia. }
    lra. }
  destruct (Z.leb_spec e2 (1024 - 53)); [|lia].
  cbn [floor64 cond_Zopp].
  exists (Z.shiftl (Zpos m) e2). split; [reflexivity|]. split.
  - apply Z.shiftl_nonneg. lia.
  - rewrite Zlt_Qlt.
    eapply Qle_lt_trans; [apply shiftl_le_value; lia|exact Hr].
Qed.

(** The thresholds are the doubles the literals 0.9, 0.3, 0.08 and 0.8
    denote. *)
Example threshold_literals :
  decimal 9 10 = S754_finite false 8106479329266893 (-53)
  /\ decimal 3 10 = S754_finite false 5404319552844595 (-54)
  /\ decimal 8 100 = S754_finite false 5764607523034235 (-56)
  /\ decimal 8 10 = S754_finite false 7205759403792794 (-53).
Proof. repeat split; reflexivity. Qed.

(** A draw equal to a threshold is not below it. *)
Example draw_at_threshold : SFltb (decimal 3 10) (decimal 3 10) = false.
Proof. reflexivity. Qed.

(** The product is rounded before the floor is taken: for the draw
    1228254443828317 / 2^52 and eleven moves the exact product is
    3 - 2^-52, the double product is 3, and the move read is the one at
    index 3. *)
Example rounded_product_index :
  unit64 (S754_finite false 4913017775313268 (-54)) = true
  /\ floor64 (SFmul 53 1024 (S754_finite false 4913017775313268 (-54))
                    (of_int 11)) = Some 3
  /\ AI.randomChoice (S754_finite false 4913017775313268 (-54))
       (map (fun k => mkMove k k) (upto 11))
     = AI.Chosen (mkMove 3 3).
Proof. repeat split; reflexivity. Qed.

End DoubleFacts.

(* ------------------------------------------------------------------ *)
(** ** GameAIService: the choice among the legal moves *)

Module ChoiceFacts.
Import AIFacts PruningLoops SearchTotal.

(** [randomChoice] on a draw in [0, 1) reads inside the array. *)
Lemma randomChoice_member (u : double) (moves : list Move) :
  unit64 u = true -> moves <> [] -> array_sized moves ->
  exists m i,
    AI.randomChoice u moves = AI.Chosen m
    /\ nth_error moves i = Some m.
Proof.
  intros Hu Hne Hsize. unfold array_sized in Hsize.
  assert (1 <= Z.of_nat (length moves)) as Hn
    by (destruct moves; [congruence|cbn [length]; lia]).
  assert (2 ^ 32 < 2 ^ 53) as Hpow by reflexivity.
  destruct (DoubleFacts.unit_index u (Z.of_nat (length moves)) Hu
              ltac:(lia)) as (i & Hi & Hrange).
  unfold AI.randomChoice. rewrite Hi.
  destruct (js_nth_in_range moves i Hrange) as [m Hm]. rewrite Hm.
  exists m, (Z.to_nat i). split; [reflexivity|].
  unfold js_nth in Hm. destruct (Z.ltb_spec i 0); [lia|assumption].
Qed.

Section FirstBest.
Variable score : Move -> Z -> Prop.
Hypothesis score_fun : forall a w w', score a w -> score a w' -> w = w'.

Lemma first_best_keep before after m v a w rest :
  score m v -> score a w -> w <= v ->
  (forall b u, In b after -> score b u -> u <= v) ->
  first_best score (before ++ m :: (after ++ [a]) ++ rest) m ->
  first_best score (before ++ m :: after ++ a :: rest) m.
Proof. intros _ _ _ _. now rewrite <- app_assoc. Qed.

Lemma later_scores after v a w :
  score a w -> w <= v ->
  (forall b u, In b after -> score b u -> u <= v) ->
  forall b u, In b (after ++ [a]) -> score b u -> u <= v.
Proof.
  intros Ha Hw Hafter b u [Hb|[<-|[]]]%in_app_or Hs.
  - now apply (Hafter b).
  - now rewrite (score_fun _ _ _ Hs Ha).
Qed.

Lemma earlier_scores before after m v w :
  score m v -> v < w ->
  (forall b u, In b before -> score b u -> u < v) ->
  (forall b u, In b after -> score b u -> u <= v) ->
  forall b u, In b (before ++ m :: after) -> score b u -> u < w.
Proof.
  intros Hm Hw Hbefore Hafter b u [Hb|[<-|Hb]]%in_app_or Hs.
  - specialize (Hbefore b u Hb Hs). lia.
  - rewrite (score_fun _ _ _ Hs Hm). lia.
  - specialize (Hafter b u Hb Hs). lia.
Qed.

Lemma first_best_In moves m : first_best score moves m -> In m moves.
Proof.
  intros (before & after & v & -> & _). apply in_or_app. right. now left.
Qed.

End FirstBest.

Lemma captures_fun board player a w w' :
  captures board player a w -> captures board player a w' -> w = w'.
Proof. intros (f & Hf & ->) (f' & Hf' & ->). congruence. Qed.

Lemma search_value_fun board player depth a w w' :
  search_value board player depth a w ->
  search_value board player depth a w' -> w = w'.
Proof. intros (ch & Hc & H) (ch' & Hc' & H'). congruence. Qed.

(** The loop of [getBestImmediateMove] once it holds a move. *)
Lemma best_immediate_loop_first board player rest :
  forall before m after v,
    (forall a, In a rest -> exists w, captures board player a w) ->
    captures board player m v ->
    (forall b u, In b before -> captures board player b u -> u < v) ->
    (forall b u, In b after -> captures board player b u -> u <= v) ->
    exists m',
      AI.best_immediate_loop board player rest (AI.Chosen m) (Fin v)
      = Done (AI.Chosen m')
      /\ first_best (captures board player)
                    (before ++ m :: after ++ rest) m'.
Proof.
  induction rest as [|a rest IH]; intros before m after v Hall Hm Hb Ha.
  - exists m. split; [reflexivity|]. rewrite app_nil_r.
    now exists before, after, v.
  - destruct (Hall a (or_introl eq_refl)) as (w & Hw).
    pose proof Hw as (found & Hf & Hlen).
    cbn [AI.best_immediate_loop]. rewrite Hf. cbn [obind].
    rewrite <- Hlen. unfold num_ltb. cbn [num_leb].
    destruct (Z.leb_spec w v) as [Hle|Hlt]; cbn [negb].
    + destruct (IH before m (after ++ [a]) v) as (m' & Hrun & Hfirst); auto.
      { intros; apply Hall; now right. }
      { now apply (later_scores _ (captures_fun board player) after v a w). }
      exists m'. split; [assumption|]. now rewrite <- app_assoc in Hfirst.
    + destruct (IH (before ++ m :: after) a [] w) as (m' & Hrun & Hfirst);
        auto.
      { intros; apply Hall; now right. }
      { now apply (earlier_scores _ (captures_fun board player)
                     before after m v w). }
      { intros b u []. }
      exists m'. split; [assumption|].
      now rewrite <- app_assoc in Hfirst.
Qed.

(** [getBestImmediateMove] on any non-empty list of moves that name
    cells of the board. *)
Lemma getBestImmediateMove_first board player moves :
  moves <> [] ->
  (forall a, In a moves -> exists w, captures board player a w) ->
  exists m,
    AI.getBestImmediateMove board moves player = Done (AI.Chosen m)
    /\ first_best (captures board player) moves m.
Proof.
  intros Hne Hall. destruct moves as [|a rest]; [congruence|].
  destruct (Hall a (or_introl eq_refl)) as (w & Hw).
  pose proof Hw as (found & Hf & Hlen).
  unfold AI.getBestImmediateMove. cbn [AI.best_immediate_loop].
  rewrite Hf. cbn [obind]. rewrite <- Hlen.
  change (num_ltb NegInf (Fin w)) with true. cbv iota.
  destruct (best_immediate_loop_first board player rest [] a [] w)
    as (m' & Hrun & Hfirst); auto.
  - intros; apply Hall; now right.
  - intros b u [].
  - intros b u [].
  - exists m'. split; assumption.
Qed.

Lemma valid_moves_capture board player moves :
  AI.getValidMoves board player = Done moves ->
  forall a, In a moves -> exists w, captures board player a w.
Proof.
  intros Hm a Hin.
  destruct (getValidMoves_valid _ _ _ _ Hm Hin) as (_ & found & Hf & _).
  exists (Z.of_nat (length found)), found. now split.
Qed.

Lemma valid_moves_rows board player moves :
  AI.getValidMoves board player = Done moves -> moves <> [] ->
  (2 <= length board)%nat.
Proof.
  intros Hm Hne.
  destruct (le_lt_dec 2 (length board)) as [|Hlt]; [assumption|].
  rewrite (getValidMoves_small board player Hlt) in Hm. congruence.
Qed.

(** The plain decision loop once it holds a move. *)
Lemma decision_all_first board player depth rest :
  forall before m after v,
    (forall a, In a rest -> exists w, search_value board player depth a w) ->
    search_value board player depth m v ->
    (forall b u, In b before ->
                 search_value board player depth b u -> u < v) ->
    (forall b u, In b after ->
                 search_value board player depth b u -> u <= v) ->
    exists m',
      Plain.decision_all
        (fun child =>
           Plain.minimax (AI.fuel_for (depth - 1)) child (depth - 1) player
                         (AI.opponent player))
        board player rest (Fin v) (Some m) = Done (Some m')
      /\ first_best (search_value board player depth)
                    (before ++ m :: after ++ rest) m'.
Proof.
  induction rest as [|a rest IH]; intros before m after v Hall Hm Hb Ha.
  - exists m. split; [reflexivity|]. rewrite app_nil_r.
    now exists before, after, v.
  - destruct (Hall a (or_introl eq_refl)) as (w & Hw).
    pose proof Hw as (child & Hc & Hv).
    cbn [Plain.decision_all]. rewrite Hc. cbn [obind].
    rewrite Hv. cbn [obind].
    unfold num_ltb. cbn [num_leb].
    destruct (Z.leb_spec w v) as [Hle|Hlt]; cbn [negb].
    + destruct (IH before m (after ++ [a]) v) as (m' & Hrun & Hfirst); auto.
      { intros; apply Hall; now right. }
      { now apply (later_scores _ (search_value_fun board player depth)
                     after v a w). }
      exists m'. split; [assumption|]. now rewrite <- app_assoc in Hfirst.
    + destruct (IH (before ++ m :: after) a [] w) as (m' & Hrun & Hfirst);
        auto.
      { intros; apply Hall; now right. }
      { now apply (earlier_scores _ (search_value_fun board player depth)
                     before after m v w). }
      { intros b u []. }
      exists m'. split; [assumption|].
      now rewrite <- app_assoc in Hfirst.
Qed.

Lemma valid_moves_search board player depth moves :
  1 <= depth ->
  AI.getValidMoves board player = Done moves ->
  forall a, In a moves -> exists w, search_value board player depth a w.
Proof.
  intros Hd Hm a Hin.
  assert (moves <> []) as Hne by (intros ->; contradiction).
  pose proof (valid_moves_rows _ _ _ Hm Hne) as Hn.
  destruct (applyMove_valid _ _ _ _ Hm Hin) as (child & Hc & Hl).
  destruct (plain_minimax_total (AI.fuel_for (depth - 1)) child (depth - 1)
              player (AI.opponent player)) as [V HV]; [lia|lia| |].
  { left. unfold AI.fuel_for. lia. }
  destruct (plain_minimax_finite _ _ _ _ _ _ HV) as [w ->].
  exists w, child. now split.
Qed.

(** [minimaxDecision] at depth 1 or more, on the legal moves. *)
Lemma minimaxDecision_first board player depth moves :
  1 <= depth ->
  AI.getValidMoves board player = Done moves -> moves <> [] ->
  exists m,
    AI.minimaxDecision board player depth = Done (Some m)
    /\ first_best (search_value board player depth) moves m.
Proof.
  intros Hd Hm Hne.
  pose proof (valid_moves_search _ _ _ _ Hd Hm) as Hall.
  destruct moves as [|a rest]; [congruence|].
  destruct (Hall a (or_introl eq_refl)) as (w & Hw).
  pose proof Hw as (child & Hc & Hv).
  destruct (decision_all_first board player depth rest [] a [] w)
    as (m' & Hrun & Hfirst); auto.
  { intros; apply Hall; now right. }
  { intros b u []. }
  { intros b u []. }
  exists m'. split; [|assumption].
  apply minimaxDecision_same. unfold Plain.minimaxDecision.
  rewrite Hm. cbn [obind length Nat.eqb Plain.decision_all].
  rewrite Hc. cbn [obind]. rewrite Hv. cbn [obind].
  change (num_ltb NegInf (Fin w)) with true. cbv iota. exact Hrun.
Qed.

(** The sort of [choiceAmongTopMoves]. *)
Lemma insert_by_score_perm e l :
  Permutation (e :: l) (AI.insert_by_score e l).
Proof.
  induction l as [|e' rest IH]; cbn [AI.insert_by_score]; [reflexivity|].
  destruct (snd e' <=? snd e); [reflexivity|].
  rewrite perm_swap. now constructor.
Qed.

Lemma sort_by_score_perm l : Permutation l (AI.sort_by_score l).
Proof.
  induction l as [|e rest IH]; cbn; [constructor|].
  rewrite <- insert_by_score_perm. now constructor.
Qed.

Lemma insert_by_score_sorted e l :
  StronglySorted (fun a b : Move * Z => snd b <= snd a) l ->
  StronglySorted (fun a b : Move * Z => snd b <= snd a)
                 (AI.insert_by_score e l).
Proof.
  induction 1 as [|e' rest Hs IH Hall]; cbn [AI.insert_by_score].
  - repeat constructor.
  - destruct (Z.leb_spec (snd e') (snd e)) as [Hle|Hlt].
    + constructor; [now constructor|].
      constructor; [assumption|].
      rewrite Forall_forall in *. intros x Hx. specialize (Hall x Hx). lia.
    + constructor; [assumption|].
      rewrite Forall_forall in *. intros x Hx.
      apply (Permutation_in _ (Permutation_sym (insert_by_score_perm e rest)))
        in Hx.
      destruct Hx as [<-|Hx]; [lia|now apply Hall].
Qed.

Lemma sort_by_score_sorted l :
  StronglySorted (fun a b : Move * Z => snd b <= snd a)
                 (AI.sort_by_score l).
Proof.
  induction l as [|e rest IH]; cbn; [constructor|].
  now apply insert_by_score_sorted.
Qed.

Lemma filter_none {A} (f : A -> bool) (l : list A) :
  (forall y, In y l -> f y = false) -> filter f l = [].
Proof.
  induction l as [|x rest IH]; intros Hf; cbn [filter]; [reflexivity|].
  rewrite (Hf x (or_introl eq_refl)). apply IH. intros; apply Hf; now right.
Qed.

(** In a list sorted best first, fewer than [i + 1] entries score more
    than the entry at index [i]. *)
Lemma sorted_rank (l : list (Move * Z)) :
  StronglySorted (fun a b : Move * Z => snd b <= snd a) l ->
  forall i e,
    nth_error l i = Some e ->
    (length (filter (fun x => (snd e <? snd x)%Z) l) <= i)%nat.
Proof.
  induction 1 as [|x rest Hs IH Hall]; intros i e Hi.
  - destruct i; discriminate.
  - destruct i as [|i]; cbn [nth_error] in Hi.
    + injection Hi as ->. cbn [filter]. rewrite Z.ltb_irrefl.
      rewrite (filter_none _ rest); [reflexivity|].
      intros y Hy. rewrite Forall_forall in Hall. specialize (Hall y Hy).
      apply Z.ltb_ge. lia.
    + specialize (IH i e Hi). cbn [filter].
      destruct (snd e <? snd x); cbn [length]; lia.
Qed.

Lemma filter_length_perm {A} (f : A -> bool) (l l' : list A) :
  Permutation l l' -> length (filter f l) = length (filter f l').
Proof.
  induction 1 as [|x l l' _ IH|x y l|l l' l'' _ IH1 _ IH2]; cbn [filter].
  - reflexivity.
  - destruct (f x); cbn [length]; now rewrite IH.
  - destruct (f x), (f y); reflexivity.
  - congruence.
Qed.

(** [moves.map(...)] pairs every move with its score, in order. *)
Lemma evaluate_each_total board player moves :
  (forall a, In a moves -> exists v, static_value board player a = Done v) ->
  exists evaluated,
    AI.evaluate_each board player moves = Done evaluated
    /\ map fst evaluated = moves
    /\ (forall e, In e evaluated ->
          static_value board player (fst e) = Done (snd e)).
Proof.
  induction moves as [|a rest IH]; intros Hall.
  - exists []. repeat split. intros e [].
  - destruct (Hall a (or_introl eq_refl)) as (v & Hv).
    destruct IH as (tail & Ht & Hfst & Hsc);
      [intros; apply Hall; now right|].
    exists ((a, v) :: tail). cbn [AI.evaluate_each].
    pose proof Hv as Hv'. unfold static_value in Hv'.
    destruct (AI.applyMove board (row a) (col a) player) as [child|h];
      [|discriminate].
    cbn [obind] in *. rewrite Hv', Ht. cbn [obind].
    repeat split.
    + cbn [map fst]. now rewrite Hfst.
    + intros e [<-|He]; [exact Hv|now apply Hsc].
Qed.

Lemma valid_moves_static board player moves :
  AI.getValidMoves board player = Done moves ->
  forall a, In a moves -> exists v, static_value board player a = Done v.
Proof.
  intros Hm a Hin.
  assert (moves <> []) as Hne by (intros ->; contradiction).
  pose proof (valid_moves_rows _ _ _ Hm Hne) as Hn.
  destruct (applyMove_valid _ _ _ _ Hm Hin) as (child & Hc & Hl).
  unfold static_value. rewrite Hc. cbn [obind].
  apply evaluate_total. lia.
Qed.

Lemma beats_count board player v evaluated :
  (forall e, In e evaluated ->
     static_value board player (fst e) = Done (snd e)) ->
  length (filter (beats board player v) (map fst evaluated))
  = length (filter (fun x : Move * Z => v <? snd x) evaluated).
Proof.
  induction evaluated as [|e rest IH]; intros Hsc; [reflexivity|].
  cbn [map filter]. unfold beats at 1.
  rewrite (Hsc e (or_introl eq_refl)).
  specialize (IH (fun x Hx => Hsc x (or_intror Hx))).
  destruct (v <? snd e); cbn [length]; now rewrite IH.
Qed.

(** [choiceAmongTopMoves] on moves whose scores exist. *)
Lemma choiceAmongTopMoves_rank (u : double) board player moves k :
  unit64 u = true -> moves <> [] -> array_sized moves ->
  (forall a, In a moves -> exists v, static_value board player a = Done v) ->
  exists m v,
    AI.choiceAmongTopMoves u board moves player k = Done (AI.Chosen m)
    /\ In m moves
    /\ static_value board player m = Done v
    /\ Z.of_nat (length (filter (beats board player v) moves)) < Z.max 1 k.
Proof.
  intros Hu Hne Hsize Hall.
  destruct (evaluate_each_total board player moves Hall)
    as (evaluated & Hev & Hfst & Hsc).
  unfold AI.choiceAmongTopMoves. rewrite Hev. cbn [obind].
  set (sorted := AI.sort_by_score evaluated).
  pose proof (sort_by_score_perm evaluated) as Hperm. fold sorted in Hperm.
  pose proof (sort_by_score_sorted evaluated) as Hsorted.
  fold sorted in Hsorted.
  set (t := Z.to_nat (Z.max 1 (Z.min k (Z.of_nat (length sorted))))).
  assert (length sorted = length moves) as Hlen.
  { rewrite <- (Permutation_length Hperm), <- Hfst. now rewrite length_map. }
  assert (1 <= length sorted)%nat as Hpos
    by (rewrite Hlen; destruct moves; [congruence|cbn; lia]).
  assert (map fst (firstn t sorted) <> []) as Htop.
  { destruct sorted as [|e rest]; [cbn in Hpos; lia|].
    assert (exists t', t = S t') as [t' ->]
      by (exists (Nat.pred t); subst t; lia).
    discriminate. }
  assert (array_sized (map fst (firstn t sorted))) as Htopsize.
  { unfold array_sized in *. rewrite length_map, length_firstn. lia. }
  destruct (randomChoice_member u _ Hu Htop Htopsize) as (m & i & Hch & Hi).
  exists m.
  rewrite nth_error_map in Hi.
  destruct (nth_error (firstn t sorted) i) as [e|] eqn:He; [|discriminate].
  cbn [option_map] in Hi. injection Hi as <-.
  assert (i < t)%nat as Hit.
  { assert (i < length (firstn t sorted))%nat as Hlt
      by (apply nth_error_Some; congruence).
    rewrite length_firstn in Hlt. lia. }
  rewrite nth_error_firstn in He.
  destruct (Nat.ltb_spec i t) as [_|]; [|lia].
  assert (In e evaluated) as Hin.
  { apply (Permutation_in _ (Permutation_sym Hperm)).
    now apply nth_error_In with i. }
  exists (snd e). split; [now rewrite Hch|]. split.
  { rewrite <- Hfst. now apply in_map. }
  split; [now apply Hsc|].
  rewrite <- Hfst, (beats_count _ _ _ _ Hsc).
  rewrite (filter_length_perm _ _ _ Hperm).
  pose proof (sorted_rank sorted Hsorted i e He) as Hrank.
  subst t. lia.
Qed.

(** With a legal move at hand, every branch of [chooseMove] returns one
    of the legal moves. *)
Lemma chooseMove_some rnd board player difficulty moves :
  unit_draws rnd ->
  AI.getValidMoves board player = Done moves -> moves <> [] ->
  array_sized moves ->
  exists m,
    AI.chooseMove rnd board player difficulty = Done (AI.Chosen m)
    /\ In m moves.
Proof.
  intros Hrnd Hm Hne Hsize.
  unfold AI.chooseMove. rewrite Hm. cbn [obind].
  destruct moves as [|a0 rest0] eqn:Hshape; [congruence|].
  cbn [length Nat.eqb]. rewrite <- Hshape in *. clear Hshape.
  assert (exists m, AI.randomChoice (rnd 1%nat) moves = AI.Chosen m
                    /\ In m moves) as Hrandom.
  { destruct (randomChoice_member _ _ (Hrnd 1%nat) Hne Hsize)
      as (m & i & Hc & Hi).
    exists m. split; [assumption|]. now apply nth_error_In with i. }
  assert (exists m, AI.getBestImmediateMove board moves player
                    = Done (AI.Chosen m) /\ In m moves) as Hgreedy.
  { destruct (getBestImmediateMove_first board player moves Hne
                (valid_moves_capture _ _ _ Hm)) as (m & Hrun & Hfirst).
    exists m. split; [assumption|]. now apply first_best_In in Hfirst. }
  assert (forall depth, 1 <= depth ->
            exists m, (o <- AI.minimaxDecision board player depth ;;
                       Done (AI.of_option o)) = Done (AI.Chosen m)
                      /\ In m moves) as Hsearch.
  { intros depth Hd.
    destruct (minimaxDecision_first board player depth moves Hd Hm Hne)
      as (m & Hrun & Hfirst).
    exists m. rewrite Hrun. split; [reflexivity|].
    now apply first_best_In in Hfirst. }
  assert (exists m, AI.choiceAmongTopMoves (rnd 1%nat) board moves player 3
                    = Done (AI.Chosen m) /\ In m moves) as Htop.
  { destruct (choiceAmongTopMoves_rank (rnd 1%nat) board player moves 3
                (Hrnd 1%nat) Hne Hsize (valid_moves_static _ _ _ Hm))
      as (m & v & Hrun & Hin & _).
    exists m. now split. }
  destruct difficulty; cbn [AI.depthByDifficulty AI.randomnessByDifficulty].
  - destruct (SFltb _ _).
    + destruct Hrandom as (m & -> & Hin). now exists m.
    + exact Hgreedy.
  - destruct (SFltb _ _).
    + destruct Hrandom as (m & -> & Hin). now exists m.
    + destruct (SFltb _ _); [exact Hgreedy|apply Hsearch; lia].
  - destruct (SFltb _ _); [exact Htop|apply Hsearch; lia].
  - apply Hsearch; lia.
Qed.

End ChoiceFacts.

Module ChoiceRules.
Import AIFacts SearchTotal ChoiceFacts.

(** X9.  Whatever the difficulty and whatever doubles in [0, 1)
    [Math.random()] draws, [chooseMove] returns [null] exactly when the
    player has no legal move, and otherwise one of the player's legal
    moves: never [undefined], never a cell outside the list of
    [getValidMoves].  The index [Math.floor(Math.random() * moves.length)]
    is computed on doubles, product rounded to nearest; the list is a
    JavaScript array, of fewer than 2^32 elements. *)
Theorem chooseMove_is_legal
    (rnd : AI.Random) (board : Board) (player : Player)
    (difficulty : AI.Difficulty) :
  unit_draws rnd ->
  exists moves,
    AI.getValidMoves board player = Done moves
    /\ (moves = []
        -> AI.chooseMove rnd board player difficulty = Done AI.Null)
    /\ (moves <> [] -> array_sized moves
        -> exists m,
             AI.chooseMove rnd board player difficulty
             = Done (AI.Chosen m)
             /\ In m moves).
Proof.
  intros Hrnd.
  destruct (ai_getValidMoves_total board player) as [moves Hm].
  exists moves. split; [assumption|]. split.
  { intros ->. unfold AI.chooseMove. now rewrite Hm. }
  intros Hne Hsize. now apply chooseMove_some.
Qed.

Lemma chooseMove_is_legal_witness :
  unit_draws (fun _ => decimal 1 2)
  /\ exists moves,
       AI.getValidMoves Logic.start.(Logic.board) P_ia = Done moves
       /\ (moves = []
           -> AI.chooseMove (fun _ => decimal 1 2)
                Logic.start.(Logic.board) P_ia AI.Facile
              = Done AI.Null)
       /\ (moves <> [] -> array_sized moves
           -> exists m,
                AI.chooseMove (fun _ => decimal 1 2)
                  Logic.start.(Logic.board) P_ia AI.Facile
                = Done (AI.Chosen m)
                /\ In m moves).
Proof.
  assert (unit_draws (fun _ => decimal 1 2)) as H
    by (intros i; reflexivity).
  split; [exact H|].
  exact (chooseMove_is_legal (fun _ => decimal 1 2)
           Logic.start.(Logic.board) P_ia AI.Facile H).
Defined.

(** X10.  On the legal moves of a player who has one,
    [getBestImmediateMove] returns the first move, in the order of the
    list, among those that capture the most discs: every move before it
    captures strictly fewer, every move after it at most as many. *)
Theorem getBestImmediateMove_greedy
    (board : Board) (player : Player) (moves : list Move) :
  AI.getValidMoves board player = Done moves -> moves <> [] ->
  exists m,
    AI.getBestImmediateMove board moves player = Done (AI.Chosen m)
    /\ first_best (captures board player) moves m.
Proof.
  intros Hm Hne.
  apply getBestImmediateMove_first; [assumption|].
  now apply valid_moves_capture.
Qed.

Lemma getBestImmediateMove_greedy_witness :
  AI.getValidMoves Logic.start.(Logic.board) P_player
  = Done [mkMove 2 4; mkMove 3 5; mkMove 4 2; mkMove 5 3]
  /\ [mkMove 2 4; mkMove 3 5; mkMove 4 2; mkMove 5 3] <> []
  /\ exists m,
       AI.getBestImmediateMove Logic.start.(Logic.board)
         [mkMove 2 4; mkMove 3 5; mkMove 4 2; mkMove 5 3] P_player
       = Done (AI.Chosen m)
       /\ first_best (captures Logic.start.(Logic.board) P_player)
                     [mkMove 2 4; mkMove 3 5; mkMove 4 2; mkMove 5 3] m.
Proof.
  split; [reflexivity|]. split; [discriminate|].
  apply (getBestImmediateMove_greedy Logic.start.(Logic.board) P_player
           [mkMove 2 4; mkMove 3 5; mkMove 4 2; mkMove 5 3]);
    [reflexivity|discriminate].
Defined.

(** X11.  On the legal moves of a player who has one (a JavaScript
    array, of fewer than 2^32 elements) and on a double in [0, 1) drawn by
    [Math.random()], [choiceAmongTopMoves] returns one of these moves, and
    one of the [k] best by the score [evaluate] gives to the position the
    move leads to: fewer than [max(1, k)] legal moves score strictly more
    than the move returned.  The index into the top moves is computed on
    doubles, product rounded to nearest. *)
Theorem choiceAmongTopMoves_among_best
    (u : double) (board : Board) (player : Player) (moves : list Move)
    (k : Z) :
  unit64 u = true ->
  AI.getValidMoves board player = Done moves -> moves <> [] ->
  array_sized moves ->
  exists m v,
    AI.choiceAmongTopMoves u board moves player k = Done (AI.Chosen m)
    /\ In m moves
    /\ static_value board player m = Done v
    /\ Z.of_nat (length (filter (beats board player v) moves)) < Z.max 1 k.
Proof.
  intros Hu Hm Hne Hsize.
  apply choiceAmongTopMoves_rank; try assumption.
  now apply valid_moves_static.
Qed.

Lemma choiceAmongTopMoves_among_best_witness :
  unit64 (decimal 2 3) = true
  /\ AI.getValidMoves Logic.start.(Logic.board) P_player
     = Done [mkMove 2 4; mkMove 3 5; mkMove 4 2; mkMove 5 3]
  /\ array_sized [mkMove 2 4; mkMove 3 5; mkMove 4 2; mkMove 5 3]
  /\ exists m v,
       AI.choiceAmongTopMoves (decimal 2 3) Logic.start.(Logic.board)
         [mkMove 2 4; mkMove 3 5; mkMove 4 2; mkMove 5 3] P_player 3
       = Done (AI.Chosen m)
       /\ In m [mkMove 2 4; mkMove 3 5; mkMove 4 2; mkMove 5 3]
       /\ static_value Logic.start.(Logic.board) P_player m = Done v
       /\ Z.of_nat (length (filter (beats Logic.start.(Logic.board)
                                          P_player v)
                               [mkMove 2 4; mkMove 3 5; mkMove 4 2;
                                mkMove 5 3]))
          < Z.max 1 3.
Proof.
  split; [reflexivity|]. split; [reflexivity|]. split; [reflexivity|].
  exact (choiceAmongTopMoves_among_best (decimal 2 3)
           Logic.start.(Logic.board) P_player
           [mkMove 2 4; mkMove 3 5; mkMove 4 2; mkMove 5 3] 3
           eq_refl eq_refl ltac:(discriminate) eq_refl).
Defined.

(** X12.  At any depth of 1 or more, [minimaxDecision] returns [null]
    exactly when the player has no legal move; otherwise it returns the
    first legal move, in the order of [getValidMoves], among those whose
    position has the greatest minimax value: the alpha/beta window never
    changes which move that is. *)
Theorem minimaxDecision_first_best
    (board : Board) (player : Player) (depth : Z) :
  1 <= depth ->
  exists moves,
    AI.getValidMoves board player = Done moves
    /\ (moves = [] -> AI.minimaxDecision board player depth = Done None)
    /\ (moves <> [] ->
        exists m,
          AI.minimaxDecision board player depth = Done (Some m)
          /\ first_best (search_value board player depth) moves m).
Proof.
  intros Hd.
  destruct (ai_getValidMoves_total board player) as [moves Hm].
  exists moves. split; [assumption|]. split.
  - intros ->. unfold AI.minimaxDecision. now rewrite Hm.
  - intros Hne. now apply minimaxDecision_first.
Qed.

Lemma minimaxDecision_first_best_witness :
  1 <= 2
  /\ exists moves,
       AI.getValidMoves pass_board P_ia = Done moves
       /\ (moves = [] -> AI.minimaxDecision pass_board P_ia 2 = Done None)
       /\ (moves <> [] ->
           exists m,
             AI.minimaxDecision pass_board P_ia 2 = Done (Some m)
             /\ first_best (search_value pass_board P_ia 2) moves m).
Proof.
  split; [lia|].
  exact (minimaxDecision_first_best pass_board P_ia 2 ltac:(lia)).
Defined.

End ChoiceRules.

(* ------------------------------------------------------------------ *)
(** ** BoardGameComponent: the display follows the service *)

Module StepFacts.
Import LogicFacts PlayFacts AIFacts AgreeFacts GameFacts.
Import BoardGame.

Lemma square_covers s : square s -> rows_cover s.
Proof. intros [Hlen _]. unfold rows_cover. lia. Qed.


Lemma animate_discs b to_ v flips :
  (forall d, In d flips -> cell b d.(r) d.(c) = Done (Some v)) ->
  animate b to_ flips
  = Done (map (fun p => mkPawn p.(r) p.(c) (Some v) to_) flips).
Proof.
  induction flips as [|p rest IH]; intros Hall; cbn [animate map];
    [reflexivity|].
  rewrite (Hall p (or_introl eq_refl)). cbn [obind].
  rewrite IH by (intros; apply Hall; now right). reflexivity.
Qed.

(** Painting the pawns of the captured discs does to the component's
    board what [playMove] did to the service's. *)
Lemma paint_flips to_ v extra found :
  forall s s1 w,
    Logic.flip_all found to_ s = (s1, Done tt) ->
    w.(board) = s.(Logic.board) ->
    paint (map (fun p => mkPawn p.(r) p.(c) v to_) found ++ extra) w
    = paint extra (set_board s1.(Logic.board) w).
Proof.
  induction found as [|f rest IH]; intros s s1 w Hrun Hb;
    cbn [Logic.flip_all map app paint] in *.
  - unfold Logic.ret in Hrun. injection Hrun as <-.
    rewrite <- Hb. now destruct w.
  - unfold Logic.bind, Logic.update_board in Hrun.
    destruct (assign (Logic.board s) (r f) (c f) to_) as [b1|h] eqn:Hb1;
      [|discriminate].
    unfold bind at 1, update_board. cbn [p_row p_col p_to].
    rewrite Hb, Hb1.
    rewrite (IH (Logic.set_board b1 s) s1 (set_board b1 w) Hrun eq_refl).
    reflexivity.
Qed.

(** [refresh] on a square service. *)
Lemma refresh_ok w :
  square w.(gameLogic) ->
  exists moves,
    Logic.getValidMoves w.(gameLogic) w.(gameLogic).(Logic.currentPlayer)
    = Done moves
    /\ refresh w
       = (set_validMoves moves
            (set_currentPlayer w.(gameLogic).(Logic.currentPlayer) w),
          Done tt).
Proof.
  intros Hsq.
  destruct (getValidMoves_total w.(gameLogic)
              w.(gameLogic).(Logic.currentPlayer) (square_covers _ Hsq))
    as [moves Hm].
  exists moves. split; [assumption|].
  unfold refresh, bind, modify, read.
  cbn [set_currentPlayer gameLogic currentPlayer]. now rewrite Hm.
Qed.

(** What a legal move does, seen from a component in step. *)
Lemma move_in_step w x y :
  in_step w ->
  Logic.isValidMove w.(gameLogic) x y w.(currentPlayer) = Done true ->
  exists found pawns s',
    Logic.getFlippableDiscs w.(gameLogic) x y w.(currentPlayer) = Done found
    /\ animate w.(board) w.(currentPlayer) found = Done pawns
    /\ Logic.playMove x y w.(gameLogic) = (s', Done true)
    /\ square s'
    /\ s'.(Logic.currentPlayer) = opponent_of w.(currentPlayer)
    /\ forall w1,
         w1.(board) = w.(board) ->
         paint (pawns ++ [mkPawn x y (Some P_none) w.(currentPlayer)]) w1
         = (set_board s'.(Logic.board) w1, Done tt).
Proof.
  intros (Hsq & Hb & Hcp & Hmoves & Hfl & Hside) Hv.
  rewrite Hcp in Hv.
  destruct (playMove_valid _ _ _ Hv)
    as (found & b1 & b2 & Hf & Hne & Hrun & Hb2 & Heq).
  exists found,
    (map (fun p => mkPawn p.(r) p.(c)
                     (Some (opponent_of w.(currentPlayer)))
                     w.(currentPlayer)) found).
  eexists. rewrite Hcp at 1. split; [exact Hf|]. split.
  { apply animate_discs. intros d Hd. rewrite Hb, Hcp.
    apply (getFlippableDiscs_discs _ _ _ _ _ Hf d Hd). }
  split; [exact Heq|].
  destruct (playMove_square _ _ _ _ _ Heq Hsq) as [Hsq' _].
  split; [exact Hsq'|]. split; [cbn [Logic.currentPlayer]; now rewrite Hcp|].
  intros w1 Hw1. rewrite Hcp in *.
  rewrite (paint_flips _ _ _ found w.(gameLogic) _ w1 Hrun)
    by congruence.
  cbn [paint Logic.set_board Logic.board].
  unfold bind, update_board. cbn [set_board board p_row p_col p_to].
  rewrite Hb2. reflexivity.
Qed.

Lemma valid_move_listed s player moves m :
  Logic.getValidMoves s player = Done moves -> In m moves ->
  Logic.isValidMove s m.(row) m.(col) player = Done true.
Proof.
  intros Hm Hin.
  destruct (scan_rows_valid _ _ _ _ _ Hm m Hin) as [[]|Hv]. exact Hv.
Qed.

End StepFacts.

Module StepRules.
Import LogicFacts PlayFacts AIFacts AgreeFacts GameFacts StepFacts.
Import BoardGame.



(** X14.  The AI's turn while the component is in step with the service
    and the draws of [Math.random()] are in [0, 1).  If the AI has no
    legal move, [playAIMove] hands the turn back to the human, on both
    sides, and leaves the board alone.  Otherwise the move [chooseMove]
    picks on the displayed board is one the service accepts (the branch
    for a refused move is never taken), and once the animation's callback
    has run the component is in step again with the turn passed to the
    human: the callback never schedules a second AI move. *)
Theorem ai_turn_keeps_in_step (rnd : AI.Random) (w : BoardGameComponent) :
  in_step w -> w.(currentPlayer) = P_ia -> unit_draws rnd ->
  array_sized w.(validMoves) ->
  (w.(validMoves) = [] ->
   exists w1,
     playAIMove rnd w = (w1, Done NoTimer)
     /\ w1.(board) = w.(board)
     /\ w1.(currentPlayer) = P_player
     /\ in_step w1)
  /\ (w.(validMoves) <> [] ->
      exists m w1 w2,
        In m w.(validMoves)
        /\ playAIMove rnd w = (w1, Done Animation)
        /\ Logic.playMove m.(row) m.(col) w.(gameLogic)
           = (w1.(gameLogic), Done true)
        /\ ai_callback w1 = (w2, Done NoTimer)
        /\ w2.(gameLogic) = w1.(gameLogic)
        /\ w2.(currentPlayer) = P_player
        /\ in_step w2).
Proof.
  intros Hstep Hme Hrnd Hsize.
  pose proof Hstep as (Hsq & Hb & Hcp & Hmoves & Hfl & Hside).
  assert (AI.getValidMoves w.(board) P_ia = Done w.(validMoves)) as Hai.
  { rewrite Hb, getValidMoves_agree by (symmetry; apply Hsq).
    now rewrite <- Hme. }
  split.
  - intros Hnone.
    set (s1 := Logic.set_currentPlayer P_player w.(gameLogic)).
    assert (square s1) as Hsq1 by exact Hsq.
    destruct (getValidMoves_total s1 P_player (square_covers _ Hsq1))
      as [moves Hm].
    exists (set_validMoves moves
              (set_currentPlayer P_player (set_gameLogic s1 w))).
    split.
    { unfold playAIMove. unfold bind at 1. unfold read at 1.
      unfold AI.chooseMove. rewrite Hai, Hnone.
      cbn [obind length Nat.eqb].
      unfold bind, service, modify, read, Logic.modify, ret.
      cbn [gameLogic set_gameLogic set_currentPlayer currentPlayer].
      fold s1. now rewrite Hm. }
    split; [reflexivity|]. split; [reflexivity|].
    repeat split; cbn; try assumption; try reflexivity;
      try apply Hsq; discriminate.
  - intros Hsome.
    destruct (ChoiceFacts.chooseMove_some rnd w.(board) P_ia w.(difficulty)
                w.(validMoves) Hrnd Hai Hsome Hsize)
      as (m & Hchoose & Hin).
    pose proof (valid_move_listed _ _ _ _ Hmoves Hin) as Hv.
    destruct (move_in_step w m.(row) m.(col) Hstep Hv)
      as (found & pawns & s' & Hf & Han & Hplay & Hsq' & Hcp' & Hpaint).
    rewrite Hme in Hf, Han, Hpaint, Hcp'.
    set (w1 := set_gameLogic s'
                 (set_flippingPawns
                    (pawns ++ [mkPawn m.(row) m.(col) (Some P_none) P_ia])
                    w)).
    destruct (refresh_ok
                (set_flippingPawns [] (set_board s'.(Logic.board) w1)))
      as (moves & Hm & Hrefresh); [exact Hsq'|].
    exists m, w1. eexists. split; [exact Hin|].
    split.
    { unfold playAIMove. unfold bind at 1. unfold read at 1.
      rewrite Hchoose.
      unfold bind, read, modify, service.
      rewrite Hf, Han.
      cbn [set_flippingPawns gameLogic]. rewrite Hplay. reflexivity. }
    split; [exact Hplay|].
    assert (ai_callback w1
            = (set_validMoves moves
                 (set_currentPlayer s'.(Logic.currentPlayer)
                    (set_flippingPawns []
                       (set_board s'.(Logic.board) w1))),
               Done NoTimer)) as Hcb.
    { unfold ai_callback. unfold bind at 1. unfold read at 1.
      unfold bind at 1.
      change (flippingPawns w1)
        with (pawns ++ [mkPawn m.(row) m.(col) (Some P_none) P_ia]).
      rewrite (Hpaint w1 eq_refl).
      unfold bind at 1. unfold modify at 1.
      unfold bind at 1. rewrite Hrefresh.
      unfold bind, read, ret. cbn [set_validMoves set_currentPlayer
        currentPlayer gameLogic set_flippingPawns set_board w1
        set_gameLogic validMoves].
      rewrite Hcp'. reflexivity. }
    split; [exact Hcb|]. split; [reflexivity|].
    split; [cbn; now rewrite Hcp'|].
    repeat split; cbn; try assumption; try reflexivity.
    + apply Hsq'.
    + apply Hsq'.
    + rewrite Hcp'. discriminate.
Qed.

Lemma ai_turn_keeps_in_step_witness :
  in_step (mkComponent 4 AI.Difficile pass_board P_ia [mkMove 0 2] []
             (Logic.mkService pass_board 4 P_ia []))
  /\ unit_draws (fun _ => decimal 1 2)
  /\ exists m w1 w2,
       In m [mkMove 0 2]
       /\ playAIMove (fun _ => decimal 1 2)
            (mkComponent 4 AI.Difficile pass_board P_ia [mkMove 0 2] []
               (Logic.mkService pass_board 4 P_ia []))
          = (w1, Done Animation)
       /\ Logic.playMove m.(row) m.(col)
            (Logic.mkService pass_board 4 P_ia [])
          = (w1.(gameLogic), Done true)
       /\ ai_callback w1 = (w2, Done NoTimer)
       /\ w2.(gameLogic) = w1.(gameLogic)
       /\ w2.(currentPlayer) = P_player
       /\ in_step w2.
Proof.
  assert (in_step (mkComponent 4 AI.Difficile pass_board P_ia [mkMove 0 2]
                     [] (Logic.mkService pass_board 4 P_ia []))) as H.
  { unfold in_step.
    split; [split; [vm_compute; reflexivity|vm_compute; repeat constructor]|].
    repeat split; try (vm_compute; reflexivity). vm_compute. discriminate. }
  assert (unit_draws (fun _ => decimal 1 2)) as Hr
    by (intros i; reflexivity).
  split; [exact H|]. split; [exact Hr|].
  apply (proj2 (ai_turn_keeps_in_step (fun _ => decimal 1 2) _ H eq_refl Hr
                  eq_refl)).
  discriminate.
Defined.

(** X15.  For every even size of 2 or more, [initGame] returns without
    throwing and leaves the component in step with the service on the
    start position: two discs each, the human to move, nothing being
    animated, and no AI move scheduled. *)
Theorem initGame_in_step (w : BoardGameComponent) :
  Z.even w.(size) = true -> 2 <= w.(size) ->
  exists w1,
    initGame w = (w1, Done NoTimer)
    /\ in_step w1
    /\ w1.(currentPlayer) = P_player
    /\ w1.(gameLogic).(Logic.size) = w.(size)
    /\ Logic.getScores w1.(gameLogic) = (2, 2).
Proof.
  intros He Hn.
  destruct (initBoard_even w.(size) w.(gameLogic) He Hn)
    as (b1 & b2 & b3 & b4 & _ & _ & _ & _ & Heq & _).
  destruct (initBoard_position w.(size) w.(gameLogic) He Hn)
    as (Hsq & Hsize & Hscores & Hcp).
  rewrite Heq in Hsq, Hsize, Hscores, Hcp. cbn [fst] in *.
  set (s1 := Logic.mkService b4 w.(size) P_player []) in *.
  destruct (refresh_ok (set_board s1.(Logic.board) (set_gameLogic s1 w)))
    as (moves & Hm & Hrefresh); [exact Hsq|].
  eexists. split.
  { unfold initGame. unfold bind at 1. unfold read at 1.
    unfold bind at 1. unfold service at 1. rewrite Heq. fold s1.
    unfold bind at 1. unfold modify at 1.
    cbn [gameLogic set_gameLogic]. rewrite map_id.
    unfold bind at 1. rewrite Hrefresh.
    unfold bind, modify, read, ret.
    reflexivity. }
  split.
  { repeat split; cbn; try assumption; try reflexivity;
      try apply Hsq; discriminate. }
  split; [reflexivity|]. split; [exact Hsize|exact Hscores].
Qed.

Lemma initGame_in_step_witness :
  Z.even fresh.(size) = true /\ 2 <= fresh.(size)
  /\ exists w1,
       initGame fresh = (w1, Done NoTimer)
       /\ in_step w1
       /\ w1.(currentPlayer) = P_player
       /\ w1.(gameLogic).(Logic.size) = fresh.(size)
       /\ Logic.getScores w1.(gameLogic) = (2, 2).
Proof.
  split; [reflexivity|]. split; [cbn; lia|].
  apply (initGame_in_step fresh); [reflexivity|cbn; lia].
Defined.

(** X16.  [passTurn] while the component is in step with the service: it
    does nothing unless it is the human's turn and the human has no legal
    move; then it gives the turn to the AI on both sides, leaves the board
    alone, lists the AI's legal moves, schedules [playAIMove], and the
    component is still in step. *)
Theorem passTurn_keeps_in_step (w : BoardGameComponent) :
  in_step w ->
  (w.(currentPlayer) <> P_player \/ w.(validMoves) <> [] ->
   passTurn w = (w, Done NoTimer))
  /\ (w.(currentPlayer) = P_player -> w.(validMoves) = [] ->
      exists w1,
        passTurn w = (w1, Done AIMove)
        /\ w1.(board) = w.(board)
        /\ w1.(currentPlayer) = P_ia
        /\ w1.(gameLogic).(Logic.board) = w.(gameLogic).(Logic.board)
        /\ in_step w1).
Proof.
  intros Hstep.
  pose proof Hstep as (Hsq & Hb & Hcp & Hmoves & Hfl & Hside).
  split.
  - intros Hno. unfold passTurn, bind, read. cbn [ret].
    destruct (Player_eqb (currentPlayer w) P_player) eqn:Hme;
      [|reflexivity].
    cbn [negb]. destruct Hno as [Hno|Hno].
    + destruct (currentPlayer w); try discriminate. now contradiction Hno.
    + destruct (validMoves w); [congruence|reflexivity].
  - intros Hme Hnone.
    set (s1 := Logic.set_currentPlayer P_ia w.(gameLogic)).
    assert (square s1) as Hsq1 by exact Hsq.
    destruct (getValidMoves_total s1 P_ia (square_covers _ Hsq1))
      as [moves Hm].
    exists (set_validMoves moves
              (set_currentPlayer P_ia (set_gameLogic s1 w))).
    split.
    { unfold passTurn. unfold bind at 1. unfold read at 1.
      rewrite Hme. cbn [Player_eqb negb].
      unfold bind at 1. unfold read at 1. rewrite Hnone.
      cbn [length Z.of_nat Z.ltb Z.compare].
      unfold bind, service, modify, read, Logic.modify, ret.
      cbn [gameLogic set_gameLogic set_currentPlayer currentPlayer].
      fold s1. now rewrite Hm. }
    split; [reflexivity|]. split; [reflexivity|]. split; [reflexivity|].
    repeat split; cbn; try assumption; try reflexivity;
      try apply Hsq; discriminate.
Qed.

Lemma passTurn_keeps_in_step_witness :
  in_step (mkComponent 4 AI.Moyen pass_board P_player [] []
             (Logic.mkService pass_board 4 P_player []))
  /\ exists w1,
       passTurn (mkComponent 4 AI.Moyen pass_board P_player [] []
                   (Logic.mkService pass_board 4 P_player []))
       = (w1, Done AIMove)
       /\ w1.(board) = pass_board
       /\ w1.(currentPlayer) = P_ia
       /\ w1.(gameLogic).(Logic.board) = pass_board
       /\ in_step w1.
Proof.
  assert (in_step (mkComponent 4 AI.Moyen pass_board P_player [] []
                     (Logic.mkService pass_board 4 P_player []))) as H.
  { unfold in_step.
    split; [split; [vm_compute; reflexivity|vm_compute; repeat constructor]|].
    repeat split; try (vm_compute; reflexivity). vm_compute. discriminate. }
  split; [exact H|].
  apply (proj2 (passTurn_keeps_in_step _ H)); reflexivity.
Defined.

End StepRules.
